(** * Batch processor: admission control and per-job pipeline

    A shallow embedding of the resilience layer of the batch processor
    (batch-processor-vps.js): the token-bucket [RateLimiter], the
    [ConcurrencyLimiter], the adaptive [UploadLimiter], the
    [SimpleCircuitBreaker] and the per-job function [processPrompt].

    Conventions of the embedding.
    - JavaScript numbers that hold counters and millisecond timestamps are
      integers ([Z]); numbers that are divided (token counts, averages,
      adaptive timeouts, wait times) are exact rationals ([Q]), so the
      rounding of IEEE doubles is not modelled.
    - [Date.now()] is an input of every operation that reads the clock.
    - An [async] function is cut at its [await] points into steps; the
      cooperative scheduler runs one step at a time, so a step is atomic.
    - Error values are JavaScript [Error] objects, of which only [message]
      is ever inspected; messages are ASCII strings. *)

From Stdlib Require Import ZArith QArith Qminmax List String Ascii Bool Lia Lqa.
From Stdlib Require Import DecimalString Permutation Qround.
Import ListNotations.

Open Scope Z_scope.

(* ====================================================================== *)
(** * Definitions                                                          *)
(* ====================================================================== *)

(** ** Array helpers *)

(** [arr.slice(-k)]: the last [k] elements (the whole array if shorter). *)
Definition slice_last {A : Type} (k : nat) (arr : list A) : list A :=
  skipn (List.length arr - k) arr.

(** [arr.reduce((a, b) => a + b, 0)]. *)
Definition reduce_sum (arr : list Q) : Q :=
  fold_left (fun a b => (a + b)%Q) arr 0%Q.

(** The comparison [a < b] on numbers, as a boolean. *)
Definition Qlt_bool (a b : Q) : bool := negb (Qle_bool b a).

(** [Array.prototype.length] as a JavaScript number. *)
Definition len {A : Type} (arr : list A) : Z := Z.of_nat (List.length arr).

(* ---------------------------------------------------------------------- *)
(** ** SimpleCircuitBreaker *)

Module SimpleCircuitBreaker.

Record t : Type := mk {
  failures : Z;
  lastFailure : option Z;      (* [null] until the first failure *)
  threshold : Z;
  cooldownMs : Z;
  totalBreaks : Z
}.

(** [constructor(threshold = 5, cooldownMs = 60000)] *)
Definition new (threshold cooldownMs : Z) : t :=
  mk 0 None threshold cooldownMs 0.

Definition set_failures (f : Z) (b : t) : t :=
  mk f (lastFailure b) (threshold b) (cooldownMs b) (totalBreaks b).

(** [Date.now() - this.lastFailure]; [null] converts to [0]. *)
Definition timeSinceFailure (now : Z) (b : t) : Z :=
  now - match lastFailure b with Some l => l | None => 0 end.

Definition canProceed (now : Z) (b : t) : bool * t :=
  if failures b <? threshold b then (true, b)
  else if cooldownMs b <? timeSinceFailure now b
       then (true, set_failures 0 b)
       else (false, b).

Definition recordFailure (now : Z) (b : t) : t :=
  let f := failures b + 1 in
  if threshold b <=? f
  then mk f (Some now) (threshold b) (cooldownMs b) (totalBreaks b + 1)
  else mk f (Some now) (threshold b) (cooldownMs b) (totalBreaks b).

Definition recordSuccess (b : t) : t :=
  if 0 <? failures b then set_failures 0 b else b.

(** [getStats().isOpen] *)
Definition isOpen (b : t) : bool := threshold b <=? failures b.

(** A run of consecutive [recordFailure] calls, one per clock reading. *)
Definition recordFailures (nows : list Z) (b : t) : t :=
  fold_left (fun acc now => recordFailure now acc) nows b.

(** States the constructor and the three methods can produce. *)
Definition wf (b : t) : Prop := 0 <= failures b.

End SimpleCircuitBreaker.

(* ---------------------------------------------------------------------- *)
(** ** UploadLimiter *)

Module UploadLimiter.

Record t : Type := mk {
  max : Z;
  baseTimeout : Q;
  fallbackConcurrency : Z;
  uploading : Z;
  queue : list nat;            (* pending [resolve] callbacks, by caller *)
  recentUploadTimes : list Q;
  totalUploads : Z;
  slowConnectionDetected : bool
}.

(** [constructor(maxUpload, baseTimeoutMs, fallbackConcurrency = 2)] *)
Definition new (maxUpload : Z) (baseTimeoutMs : Q) (fallback : Z) : t :=
  mk maxUpload baseTimeoutMs fallback 0 [] [] 0 false.

(** One pass through the loop of [acquireUploadSlot]: either the caller
    parks its [resolve] in the queue ([false]) or it takes a slot. *)
Definition acquireUploadSlot (caller : nat) (u : t) : bool * t :=
  if max u <=? uploading u
  then (false, mk (max u) (baseTimeout u) (fallbackConcurrency u)
                  (uploading u) (queue u ++ [caller])
                  (recentUploadTimes u) (totalUploads u)
                  (slowConnectionDetected u))
  else (true, mk (max u) (baseTimeout u) (fallbackConcurrency u)
                 (uploading u + 1) (queue u)
                 (recentUploadTimes u) (totalUploads u)
                 (slowConnectionDetected u)).

(** [releaseUploadSlot]: returns the caller it woke, if any. *)
Definition releaseUploadSlot (u : t) : option nat * t :=
  (hd_error (queue u),
   mk (max u) (baseTimeout u) (fallbackConcurrency u)
      (uploading u - 1) (tl (queue u))
      (recentUploadTimes u) (totalUploads u)
      (slowConnectionDetected u)).

Definition getAdaptiveTimeout (u : t) : Q :=
  if len (recentUploadTimes u) <? 3 then baseTimeout u
  else
    let last5 := slice_last 5 (recentUploadTimes u) in
    let avg := (reduce_sum last5 / inject_Z (len last5))%Q in
    Qmax (baseTimeout u) (Qmin (avg * 2) 60000).

Definition set_history (h : list Q) (u : t) : t :=
  mk (max u) (baseTimeout u) (fallbackConcurrency u) (uploading u)
     (queue u) h (totalUploads u) (slowConnectionDetected u).

Definition set_mode (slow : bool) (m : Z) (u : t) : t :=
  mk m (baseTimeout u) (fallbackConcurrency u) (uploading u)
     (queue u) (recentUploadTimes u) (totalUploads u) slow.

(** [recordUploadTime].  Samples and their average are exact rationals
    here; the code's doubles compare with the two thresholds the same way
    except where the average lies within rounding error of one of them,
    which whole-millisecond samples never do. *)
Definition recordUploadTime (durationMs : Q) (u : t) : t :=
  let pushed := recentUploadTimes u ++ [durationMs] in
  let hist := if 10 <? len pushed then tl pushed else pushed in
  let u1 := set_history hist u in
  if 3 <=? len hist then
    let avg := (reduce_sum (slice_last 3 hist) / 3)%Q in
    if Qlt_bool 20000 avg && negb (slowConnectionDetected u1)
    then set_mode true (fallbackConcurrency u1) u1
    else if Qlt_bool avg 15000 && slowConnectionDetected u1
         then set_mode false (fallbackConcurrency u1 + 1) u1
         else u1
  else u1.

(** The average of the last three samples, as [recordUploadTime]
    computes it. *)
Definition avgLast3 (h : list Q) : Q :=
  (reduce_sum (slice_last 3 h) / 3)%Q.

(** The fields the latency history drives. *)
Definition latency_view (u : t) : list Q * bool * Z * Z :=
  (recentUploadTimes u, slowConnectionDetected u, max u,
   fallbackConcurrency u).

(** *** [wrapFetch]

    The body of [wrapFetch] after its slot has been granted.  Its local
    variables form a [Call]; what happens next is decided by the event
    loop, which delivers the timer callback and the settlement of the
    [fetch] promise in some order. *)

Record Call : Type := mkCall {
  startTime : Z;
  timeout : Q;
  slotReleased : bool;
  timerPending : bool;         (* [uploadTimeoutHandle] neither fired nor cleared *)
  settled : bool               (* the [fetch] promise has settled *)
}.

Inductive Event : Type :=
| TimerFires                   (* the [setTimeout] callback runs *)
| FetchResolves (now : Z)      (* [await fetch] returns, clock reads [now] *)
| FetchRejects.                (* [await fetch] throws *)

(** The guarded release that appears three times in [wrapFetch]. *)
Definition releaseOnce (c : Call) (u : t) : Call * t :=
  if slotReleased c then (c, u)
  else
    let u1 := snd (releaseUploadSlot u) in
    (mkCall (startTime c) (timeout c) true (timerPending c) (settled c),
     mk (max u1) (baseTimeout u1) (fallbackConcurrency u1) (uploading u1)
        (queue u1) (recentUploadTimes u1) (totalUploads u1 + 1)
        (slowConnectionDetected u1)).

Definition clearTimeout (c : Call) : Call :=
  mkCall (startTime c) (timeout c) (slotReleased c) false (settled c).

(** A timer that has fired is not pending any more either. *)
Definition fired (c : Call) : Call := clearTimeout c.

Definition settle (c : Call) : Call :=
  mkCall (startTime c) (timeout c) (slotReleased c) (timerPending c) true.

(** Entry of [wrapFetch] once [acquireUploadSlot] has granted the slot. *)
Definition wrapFetch_start (now : Z) (u : t) : Call * t :=
  (mkCall now (getAdaptiveTimeout u) false true false,
   mk (max u) (baseTimeout u) (fallbackConcurrency u) (uploading u + 1)
      (queue u) (recentUploadTimes u) (totalUploads u)
      (slowConnectionDetected u)).

Definition wrapFetch_step (ev : Event) (cu : Call * t) : Call * t :=
  let (c, u) := cu in
  match ev with
  | TimerFires =>
      if timerPending c then releaseOnce (fired c) u else (c, u)
  | FetchResolves now =>
      if settled c then (c, u)
      else
        let uploadDuration := now - startTime c in
        let (c1, u1) := releaseOnce (clearTimeout (settle c)) u in
        (c1, recordUploadTime (Qmin (inject_Z uploadDuration) (timeout c)) u1)
  | FetchRejects =>
      if settled c then (c, u)
      else releaseOnce (clearTimeout (settle c)) u
  end.

Definition wrapFetch_run (evs : list Event) (cu : Call * t) : Call * t :=
  fold_left (fun acc ev => wrapFetch_step ev acc) evs cu.

(** How many times the call has released its slot so far. *)
Definition releases (c : Call) : Z := if slotReleased c then 1 else 0.

Definition is_resolve (ev : Event) : bool :=
  match ev with FetchResolves _ => true | _ => false end.

Definition is_timer (ev : Event) : bool :=
  match ev with TimerFires => true | _ => false end.

(** *** Notions used to state the properties *)

(** The history after a recording: the new sample appended, the oldest
    one dropped once there are more than ten. *)
Definition pushed_history (d : Q) (u : t) : list Q :=
  if 10 <? len (recentUploadTimes u ++ [d])
  then tl (recentUploadTimes u ++ [d])
  else recentUploadTimes u ++ [d].


(** What holds of a call in flight, relative to the limiter [u0] it
    started from. *)
Definition call_inv (now : Z) (u0 : t) (cu : Call * t) : Prop :=
  let (c, u) := cu in
  startTime c = now /\
  timeout c = getAdaptiveTimeout u0 /\
  uploading u = uploading u0 + 1 - releases c /\
  totalUploads u = totalUploads u0 + releases c /\
  queue u = (if slotReleased c then tl (queue u0) else queue u0) /\
  (slotReleased c = false -> timerPending c = true /\ settled c = false).

End UploadLimiter.

(* ---------------------------------------------------------------------- *)
(** ** RateLimiter *)

Module RateLimiter.

Record t : Type := mk {
  rpm : Q;
  tokens : Q;
  lastRefill : Z;
  totalRequests : Z;
  totalWaitTime : Q
}.

(** [constructor(requestsPerMinute)], clock reading [now]. *)
Definition new (requestsPerMinute : Q) (now : Z) : t :=
  mk requestsPerMinute requestsPerMinute now 0 0.

Definition elapsed (now : Z) (r : t) : Z := now - lastRefill r.

Definition tokensToAdd (now : Z) (r : t) : Q :=
  (inject_Z (elapsed now r) / 60000 * rpm r)%Q.

(** [Math.min(this.rpm, this.tokens + tokensToAdd)] *)
Definition refilled (now : Z) (r : t) : Q :=
  Qmin (rpm r) (tokens r + tokensToAdd now r).

Definition advanced (now : Z) (r : t) : Z :=
  if 1000 <=? elapsed now r then now else lastRefill r.

(** [acquire] up to its [await sleep(waitTime)]: [None] when a token was
    taken at once, [Some waitTime] when the caller goes to sleep.  (With
    [rpm = 0] the JavaScript quotient is infinite; [waitTime] is only
    meaningful for a positive [rpm].)  Token counts are exact rationals
    here; the code's doubles take the same branch of [tokens >= 1] except
    where the refilled count lies within rounding error of 1. *)
Definition acquire_enter (now : Z) (r : t) : t * option Q :=
  let tk := refilled now r in
  if Qle_bool 1 tk
  then (mk (rpm r) (tk - 1) (advanced now r) (totalRequests r + 1)
           (totalWaitTime r), None)
  else
    let waitTime := ((1 - tk) / rpm r * 60000)%Q in
    (mk (rpm r) tk (advanced now r) (totalRequests r)
        (totalWaitTime r + waitTime), Some waitTime).

(** [acquire] after the sleep. *)
Definition acquire_resume (r : t) : t :=
  mk (rpm r) 0 (lastRefill r) (totalRequests r + 1) (totalWaitTime r).

(** A call of [acquire] that runs to completion undisturbed. *)
Definition acquire (now : Z) (r : t) : t * option Q :=
  let (r1, w) := acquire_enter now r in
  match w with
  | None => (r1, None)
  | Some _ => (acquire_resume r1, w)
  end.

(** Tokens credited by the refill of one call. *)
Definition credited (now : Z) (r : t) : Q := (refilled now r - tokens r)%Q.

(** Total credited over a sequence of calls made at the readings [nows]. *)
Fixpoint total_credited (nows : list Z) (r : t) : Q :=
  match nows with
  | [] => 0%Q
  | now :: rest =>
      (credited now r + total_credited rest (fst (acquire now r)))%Q
  end.

(** Every call comes at least 1000 ms after the previous refill stamp. *)
Fixpoint spaced (last : Z) (nows : list Z) : Prop :=
  match nows with
  | [] => True
  | now :: rest => last + 1000 <= now /\ spaced now rest
  end.

(** The clock reading of the last call of a sequence ([t0] if none). *)
Fixpoint last_reading (t0 : Z) (nows : list Z) : Z :=
  match nows with
  | [] => t0
  | now :: rest => last_reading now rest
  end.

(** Tokens that accrue in [ms] milliseconds at [rpm] per minute. *)
Definition accrual (ms : Z) (r : t) : Q :=
  (inject_Z ms * rpm r / 60000)%Q.

Definition wf (r : t) : Prop :=
  (0 <= rpm r)%Q /\ (0 <= tokens r)%Q /\ (tokens r <= rpm r)%Q.

End RateLimiter.

(* ---------------------------------------------------------------------- *)
(** ** ConcurrencyLimiter *)

Module ConcurrencyLimiter.

Record t : Type := mk {
  max : Z;
  running : Z;
  queue : list nat;            (* pending [resolve] callbacks, by task *)
  totalExecuted : Z
}.

(** [constructor(maxConcurrent)] *)
Definition new (maxConcurrent : Z) : t := mk maxConcurrent 0 [] 0.

(** One pass through the head of [run]: while [running >= max] the task
    parks its [resolve] in the queue and suspends ([false]); otherwise it
    leaves the loop and takes a slot. *)
Definition enter (task : nat) (l : t) : bool * t :=
  if max l <=? running l
  then (false, mk (max l) (running l) (queue l ++ [task]) (totalExecuted l))
  else (true, mk (max l) (running l + 1) (queue l) (totalExecuted l)).

(** The rest of [run] once [fn()] has settled: [totalExecuted++] on the
    success path only, then the [finally] block.  Returns the task whose
    [resolve] was shifted off the queue and called. *)
Definition leave (ok : bool) (l : t) : option nat * t :=
  (hd_error (queue l),
   mk (max l) (running l - 1) (tl (queue l))
      (if ok then totalExecuted l + 1 else totalExecuted l)).

(** The limiter together with the tasks that go through it.  A woken
    waiter does not run at once: its continuation is queued as a
    microtask, and microtasks run first-in first-out. *)
Record Sched : Type := mkSched {
  limiter : t;
  microtasks : list nat;          (* woken, continuation not yet run *)
  executing : list nat;           (* inside [await fn()] *)
  started : list nat;             (* log: tasks in the order they took a slot *)
  finished : list (nat * bool)    (* log: settled tasks, [true] = fulfilled *)
}.

Inductive Event : Type :=
| Call (task : nat)               (* [limiter.run(fn)] is invoked *)
| Settle (task : nat) (ok : bool) (* [fn()] fulfils or throws *)
| Resume.                         (* the next woken waiter re-tests the loop *)

Definition init (maxConcurrent : Z) : Sched :=
  mkSched (new maxConcurrent) [] [] [] [].

Definition take_or_park (task : nat) (micro : list nat) (s : Sched) : Sched :=
  let (granted, l) := enter task (limiter s) in
  if granted
  then mkSched l micro (executing s ++ [task]) (started s ++ [task]) (finished s)
  else mkSched l micro (executing s) (started s) (finished s).

Fixpoint remove_first (x : nat) (l : list nat) : list nat :=
  match l with
  | [] => []
  | y :: l' => if Nat.eqb x y then l' else y :: remove_first x l'
  end.

Definition woken (w : option nat) : list nat :=
  match w with Some j => [j] | None => [] end.

(** [None]: the event cannot happen in this state. *)
Definition step (ev : Event) (s : Sched) : option Sched :=
  match ev with
  | Call i => Some (take_or_park i (microtasks s) s)
  | Settle i ok =>
      if existsb (Nat.eqb i) (executing s) then
        let (w, l) := leave ok (limiter s) in
        Some (mkSched l (microtasks s ++ woken w)
                      (remove_first i (executing s)) (started s)
                      (finished s ++ [(i, ok)]))
      else None
  | Resume =>
      match microtasks s with
      | [] => None
      | j :: rest => Some (take_or_park j rest s)
      end
  end.

Fixpoint run (evs : list Event) (s : Sched) : option Sched :=
  match evs with
  | [] => Some s
  | ev :: rest =>
      match step ev s with
      | Some s' => run rest s'
      | None => None
      end
  end.




(** *** Invariants *)



End ConcurrencyLimiter.

(* ---------------------------------------------------------------------- *)
(** ** ProgressTracker *)

Module ProgressTracker.

Record t : Type := mk {
  totalPrompts : Z;
  processedPrompts : Z;
  successCount : Z;
  failCount : Z;
  lastUpdate : Z
}.

(** [maybeShowProgress], the state it leaves: printing aside, it stamps
    [lastUpdate].  Whether the display returns or throws is in
    [Display], below. *)
Definition maybeShowProgress (now : Z) (p : t) : t :=
  if (now - lastUpdate p <? 2000) && (processedPrompts p <? totalPrompts p)
  then p
  else mk (totalPrompts p) (processedPrompts p) (successCount p)
          (failCount p) now.

Definition increment (now : Z) (success : bool) (p : t) : t :=
  maybeShowProgress now
    (if success
     then mk (totalPrompts p) (processedPrompts p + 1) (successCount p + 1)
             (failCount p) (lastUpdate p)
     else mk (totalPrompts p) (processedPrompts p + 1) (successCount p)
             (failCount p + 1) (lastUpdate p)).

End ProgressTracker.

(* ---------------------------------------------------------------------- *)
(** ** ProgressTracker: the display *)

Module Display.
Local Open Scope string_scope.
Local Open Scope Z_scope.

(** [Math.round]: the nearest integer, halves upwards. *)
Definition Math_round (x : Q) : Z := Qfloor (x + (1 # 2)).

Fixpoint replicate (n : nat) (c : ascii) : string :=
  match n with
  | O => EmptyString
  | S n' => String c (replicate n' c)
  end.

(** [c.repeat(count)] for a one-character string; a negative count is a
    [RangeError] ([None]). *)
Definition repeat_char (c : ascii) (count : Z) : option string :=
  if count <? 0 then None else Some (replicate (Z.to_nat count) c).

Definition makeProgressBar (percentage width : Z) : option string :=
  let filled := Math_round (inject_Z percentage / 100 * inject_Z width) in
  let empty := width - filled in
  match repeat_char "=" filled with
  | None => None
  | Some bar =>
      match repeat_char "-" empty with
      | None => None
      | Some rest => Some (bar ++ rest)
      end
  end.

(** [percentage] of [showProgress].  The quotient is an exact rational
    here; the code's doubles round the same way except where the value
    lies within rounding error of a half, as at a ratio of 203/200. *)
Definition percentage (p : ProgressTracker.t) : Z :=
  if 0 <? ProgressTracker.totalPrompts p
  then Math_round (inject_Z (ProgressTracker.processedPrompts p)
                   / inject_Z (ProgressTracker.totalPrompts p) * 100)
  else 0.

(** [showProgress]: [true] when it returns, [false] when it throws; the
    only statement of it that can throw is the call of [makeProgressBar]. *)
Definition showProgress (p : ProgressTracker.t) : bool :=
  match makeProgressBar (percentage p) 30 with
  | Some _ => true
  | None => false
  end.

(** [maybeShowProgress] with the display: the tracker it leaves and
    whether it returned. *)
Definition maybeShowProgress (now : Z) (p : ProgressTracker.t)
  : ProgressTracker.t * bool :=
  if (now - ProgressTracker.lastUpdate p <? 2000)
     && (ProgressTracker.processedPrompts p <? ProgressTracker.totalPrompts p)
  then (p, true)
  else
    let p1 := ProgressTracker.mk (ProgressTracker.totalPrompts p)
                (ProgressTracker.processedPrompts p)
                (ProgressTracker.successCount p)
                (ProgressTracker.failCount p) now in
    (p1, showProgress p1).

(** [setTotal(total)], called by [main] at the start of every batch. *)
Definition setTotal (total : Z) (p : ProgressTracker.t) : ProgressTracker.t :=
  ProgressTracker.mk total (ProgressTracker.processedPrompts p)
    (ProgressTracker.successCount p) (ProgressTracker.failCount p)
    (ProgressTracker.lastUpdate p).

(** The tally has room for one more job within the batch total. *)
Definition room_for_one (p : ProgressTracker.t) : Prop :=
  0 <= ProgressTracker.processedPrompts p /\
  ProgressTracker.processedPrompts p + 1 <= ProgressTracker.totalPrompts p.

(** [increment(success)] with the display. *)
Definition increment (now : Z) (success : bool) (p : ProgressTracker.t)
  : ProgressTracker.t * bool :=
  maybeShowProgress now
    (if success
     then ProgressTracker.mk (ProgressTracker.totalPrompts p)
            (ProgressTracker.processedPrompts p + 1)
            (ProgressTracker.successCount p + 1)
            (ProgressTracker.failCount p) (ProgressTracker.lastUpdate p)
     else ProgressTracker.mk (ProgressTracker.totalPrompts p)
            (ProgressTracker.processedPrompts p + 1)
            (ProgressTracker.successCount p)
            (ProgressTracker.failCount p + 1) (ProgressTracker.lastUpdate p)).

End Display.

(* ---------------------------------------------------------------------- *)
(** ** Strings and errors *)

Module Js.
Local Open Scope string_scope.

(** [hay.includes(needle)] *)
Fixpoint includes (needle hay : string) : bool :=
  match hay with
  | EmptyString => String.prefix needle EmptyString
  | String _ rest => String.prefix needle hay || includes needle rest
  end.

Definition lower_ascii (c : ascii) : ascii :=
  let n := nat_of_ascii c in
  if ((65 <=? n)%nat && (n <=? 90)%nat)%bool
  then ascii_of_nat (n + 32)
  else c.

(** [s.toLowerCase()] on ASCII text. *)
Fixpoint toLowerCase (s : string) : string :=
  match s with
  | EmptyString => EmptyString
  | String c rest => String (lower_ascii c) (toLowerCase rest)
  end.

(** The decimal rendering of an integer inside a template literal. *)
Definition String_of (n : Z) : string := NilZero.string_of_int (Z.to_int n).

(** [new Error(message)]; thrown values are only ever read through
    [message]. *)
Record Error : Type := mkError { message : string }.

(** An HTTP response as the code reads it: the status, the body as
    [response.text()] gives it and the value [response.json()] gives;
    either read can itself reject. *)
Record Response (B : Type) : Type := mkResponse {
  status : Z;
  text : Error + string;
  json : Error + B
}.
Arguments mkResponse {B}.
Arguments status {B}.
Arguments text {B}.
Arguments json {B}.

(** What [await fetch(...)] does. *)
Inductive Fetch (B : Type) : Type :=
| Rejected (e : Error)
| Resolved (r : Response B).
Arguments Rejected {B}.
Arguments Resolved {B}.

(** [response.ok] *)
Definition ok {B} (r : Response B) : bool :=
  ((200 <=? status r)%Z && (status r <=? 299)%Z)%bool.

(** Truthiness of a possibly undefined string. *)
Definition truthy (s : option string) : bool :=
  match s with
  | Some EmptyString | None => false
  | Some _ => true
  end.

End Js.

(* ---------------------------------------------------------------------- *)
(** ** The per-job pipeline: [processPrompt] *)

Module Pipeline.
Import Js.
Local Open Scope string_scope.
Local Open Scope list_scope.
Local Open Scope Z_scope.

Local Infix "+++" := String.append (at level 60, right associativity).

(** *** Data *)

Record Attachment : Type := mkAttachment { url : string }.

(** A row of the Generation table as far as the processor reads or
    writes it; a field the table leaves out is [None]. *)
Record Fields : Type := mkFields {
  Prompt : option string;
  Video_Prompt : option string;
  Generated_Images : option (list Attachment);
  Prompt_Image : option (list Attachment);
  Generated_Videos : option (list Attachment);
  Error_Message : option string
}.

Record PromptRecord : Type := mkRecord { id : string; fields : Fields }.

Record GenConfig : Type := mkConfig {
  numImages : Z;
  imageSize : string;
  enableNSFW : bool;
  enableVideo : bool;
  videoDuration : Z;
  geminiApiKey : option string;
  geminiPromptTemplate : string;
  downloadsDir : string
}.

(** One entry of the [fields] object of a PATCH. *)
Inductive FieldUpdate : Type :=
| SetPrompt (text : string)
| SetGeneratedImages (images : list Attachment)
| SetGeneratedVideos (videos : list Attachment)
| SetErrorMessage (msg : option string).   (* [null] clears the field *)

Definition apply_update (f : Fields) (u : FieldUpdate) : Fields :=
  match u with
  | SetPrompt t =>
      mkFields (Some t) (Video_Prompt f) (Generated_Images f)
               (Prompt_Image f) (Generated_Videos f) (Error_Message f)
  | SetGeneratedImages l =>
      mkFields (Prompt f) (Video_Prompt f) (Some l)
               (Prompt_Image f) (Generated_Videos f) (Error_Message f)
  | SetGeneratedVideos l =>
      mkFields (Prompt f) (Video_Prompt f) (Generated_Images f)
               (Prompt_Image f) (Some l) (Error_Message f)
  | SetErrorMessage m =>
      mkFields (Prompt f) (Video_Prompt f) (Generated_Images f)
               (Prompt_Image f) (Generated_Videos f) m
  end.

(** The Generation table, by record id. *)
Definition Store : Type := string -> Fields.

Definition store_patch (recordId : string) (us : list FieldUpdate)
           (st : Store) : Store :=
  fun r => if String.eqb r recordId then fold_left apply_update us (st r)
           else st r.

(** What the job does to the outside world, in order. *)
Inductive Effect : Type :=
| Sleep (ms : Q)
| Analyze (imageUrl : string)
| FetchImage (imageUrl : string)
| Generate (attempt : Z) (prompt : option string) (refImageUrls : list string)
| GenerateVideo (attempt : Z) (imageUrl : string) (prompt : option string)
| Download (fileUrl : string) (filename : string)
| Patch (recordId : string) (fields : list FieldUpdate).

(** The module-level variables and the table. *)
Record World : Type := mkWorld {
  circuitBreaker : option SimpleCircuitBreaker.t;
  geminiLimiter : option RateLimiter.t;
  progressTracker : ProgressTracker.t;
  airtable : Store;
  trace : list Effect
}.

(** The five places that call [updateAirtableRecord]. *)
Inductive PatchSite : Type :=
| PromptPatch | ImagesPatch | VideoPatch | VideoErrorPatch | ErrorPatch.

Record GeminiResult : Type := mkGemini {
  gemini_text : string;
  gemini_dataUri : string      (* the image bytes and mime type, as a data URI *)
}.

(** The behaviour of everything outside the process during one job:
    clock readings and the outcome of every request.  The generation
    request goes through [uploadLimiter.wrapFetch], which hands the
    response or the error of its fetch through unchanged. *)
Record Env : Type := mkEnv {
  clock_canProceed : Z;
  clock_acquire : Z;
  clock_recordFailure : Z;
  clock_increment : Z;
  analyzeImageWithGemini : Error + GeminiResult;
  fetch_promptImage : Fetch string;      (* body already as a data URI *)
  fetch_generate : Z -> Fetch (option (list Attachment));   (* by attempt *)
  fetch_video : Z -> Fetch (option string);                 (* by attempt *)
  fetch_patch : PatchSite -> Fetch unit
}.

(** *** State and exceptions *)

Inductive Outcome (A : Type) : Type :=
| Returned (a : A)
| Thrown (e : Error).
Arguments Returned {A}.
Arguments Thrown {A}.

Definition M (A : Type) : Type := World -> Outcome A * World.

Definition ret {A} (a : A) : M A := fun w => (Returned a, w).

Definition throw {A} (e : Error) : M A := fun w => (Thrown e, w).

Definition bind {A B} (m : M A) (k : A -> M B) : M B :=
  fun w => match m w with
           | (Returned a, w1) => k a w1
           | (Thrown e, w1) => (Thrown e, w1)
           end.

(** [try { m } catch (e) { h e }] *)
Definition try_catch {A} (m : M A) (h : Error -> M A) : M A :=
  fun w => match m w with
           | (Returned a, w1) => (Returned a, w1)
           | (Thrown e, w1) => h e w1
           end.

Notation "x <- m ;; k" := (bind m (fun x => k))
  (at level 61, m at next level, right associativity).
Notation "m ;; k" := (bind m (fun _ => k))
  (at level 61, right associativity).

Definition emit (e : Effect) : M unit :=
  fun w => (Returned tt,
            mkWorld (circuitBreaker w) (geminiLimiter w) (progressTracker w)
                    (airtable w) (trace w ++ [e])).

(** [await sleep(ms)] *)
Definition sleep (ms : Q) : M unit := emit (Sleep ms).

(** *** Error classification *)

(** [isRetryable] of the generation loop. *)
Definition isRetryable (msg : string) : bool :=
  let errorMsg := toLowerCase msg in
  let is524 := includes "524" msg in
  let isTimeout := includes "timeout" errorMsg in
  let is5xxError :=
    includes "502" msg || includes "503" msg || includes "504" msg in
  is524 || isTimeout || is5xxError.

(** [isTransient] of the outer [catch]. *)
Definition isTransient (msg : string) : bool :=
  let errorMsg := toLowerCase msg in
  let is524 := includes "524" msg in
  let isTimeout := includes "timeout" errorMsg in
  let isTooManySubrequests := includes "too many subrequests" errorMsg in
  let is5xxError :=
    includes "502" msg || includes "503" msg || includes "504" msg in
  is524 || isTimeout || isTooManySubrequests || is5xxError.

(** The retry test of the video loop. *)
Definition isVideoRetryable (msg : string) : bool :=
  includes "524" msg || includes "timeout" (toLowerCase msg).

(** [[1000, 2000, 4000][attempt - 1]] *)
Definition backoffDelay (attempt : Z) : Q :=
  nth (Z.to_nat (attempt - 1)) [1000%Q; 2000%Q; 4000%Q] 0%Q.

(** *** Decoding the providers' responses *)

(** [FalSeedreamAPI.generate] after its fetch. *)
Definition generate_result (f : Fetch (option (list Attachment)))
  : Error + list Attachment :=
  match f with
  | Rejected e => inl e
  | Resolved r =>
      if negb (ok r) then
        match text r with
        | inl e => inl e
        | inr errorText =>
            inl (mkError ("FAL API error " +++ String_of (status r) +++ ": "
                          +++ substring 0 200 errorText))
        end
      else
        match json r with
        | inl e => inl e
        | inr result =>
            let images := match result with Some l => l | None => [] end in
            if len images =? 0
            then inl (mkError "FAL returned no images")
            else inr images
        end
  end.

(** [FalSeedreamAPI.generateVideo] after its fetch. *)
Definition video_result (f : Fetch (option string)) : Error + Attachment :=
  match f with
  | Rejected e => inl e
  | Resolved r =>
      if negb (ok r) then
        match text r with
        | inl e => inl e
        | inr errorText =>
            inl (mkError ("FAL Video API error " +++ String_of (status r)
                          +++ ": " +++ substring 0 200 errorText))
        end
      else
        match json r with
        | inl e => inl e
        | inr videoUrl =>
            if truthy videoUrl
            then inr (mkAttachment
                        (match videoUrl with Some u => u | None => EmptyString end))
            else inl (mkError "FAL returned no video URL")
        end
  end.

(** The object [processPrompt] returns. *)
Record Result : Type := mkResult {
  success : bool;
  promptId : string;
  error : option string;
  skipErrorSave : bool;
  imageCount : option Z
}.

(** *** The operations of one job *)

Section WithEnv.
Variable env : Env.

Definition set_airtable (st : Store) : M unit :=
  fun w => (Returned tt,
            mkWorld (circuitBreaker w) (geminiLimiter w)
                    (progressTracker w) st (trace w)).

(** [updateAirtableRecord].  The function itself only sends the PATCH
    and reads the answer.  The [airtable] component of the world is an
    assumption about the service, which the source does not contain: the
    table applies a PATCH exactly when it answers with a 2xx, and leaves
    the row alone otherwise. *)
Definition updateAirtableRecord (site : PatchSite) (recordId : string)
           (us : list FieldUpdate) : M unit :=
  emit (Patch recordId us) ;;
  match fetch_patch env site with
  | Rejected e => throw e
  | Resolved r =>
      if negb (ok r) then
        match text r with
        | inl e => throw e
        | inr errorText =>
            throw (mkError ("Airtable update failed: "
                            +++ String_of (status r) +++ " - "
                            +++ substring 0 100 errorText))
        end
      else
        (fun w => set_airtable (store_patch recordId us (airtable w)) w) ;;
        match json r with
        | inl e => throw e
        | inr _ => ret tt
        end
  end.

(** [api.generate(...)] *)
Definition api_generate (attempt : Z) (prompt : option string)
           (refImageUrls : list string) : M (list Attachment) :=
  emit (Generate attempt prompt refImageUrls) ;;
  match generate_result (fetch_generate env attempt) with
  | inl e => throw e
  | inr images => ret images
  end.

(** [for (let attempt = 1; attempt <= 3; attempt++)]: [remaining]
    counts the iterations the loop condition still allows.  The result
    is the pair of the loop variables [images] and [lastError]. *)
Fixpoint generate_attempts (remaining : nat) (attempt : Z)
         (prompt : option string) (refImageUrls : list string)
         (lastError : option Error)
  : M (option (list Attachment) * option Error) :=
  match remaining with
  | O => ret (None, lastError)
  | S remaining' =>
      try_catch
        (images <- api_generate attempt prompt refImageUrls ;;
         ret (Some images, lastError))
        (fun error =>
           if isRetryable (message error) && (attempt <? 3)
           then sleep (backoffDelay attempt) ;;
                generate_attempts remaining' (attempt + 1) prompt
                                  refImageUrls (Some error)
           else throw error)
  end.

(** The retry loop and the test that follows it. *)
Definition generateImages (prompt : option string)
           (refImageUrls : list string) : M (list Attachment) :=
  r <- generate_attempts 3 1 prompt refImageUrls None ;;
  match fst r with
  | Some images => ret images
  | None =>
      throw (match snd r with
             | Some lastError => lastError
             | None => mkError "Failed to generate images after 3 attempts"
             end)
  end.

(** The download loop; a failed download is logged and nothing more. *)
Fixpoint downloadImages (recordId : string) (i : Z)
         (images : list Attachment) : M unit :=
  match images with
  | [] => ret tt
  | img :: rest =>
      emit (Download (url img)
                     (recordId +++ "_" +++ String_of (i + 1) +++ ".png")) ;;
      downloadImages recordId (i + 1) rest
  end.

(** [await geminiLimiter.acquire()] *)
Definition geminiAcquire : M unit :=
  fun w =>
    match geminiLimiter w with
    | None =>
        (Thrown (mkError "Cannot read properties of null (reading 'acquire')"), w)
    | Some r =>
        let (r', wait) := RateLimiter.acquire (clock_acquire env) r in
        let w1 := mkWorld (circuitBreaker w) (Some r') (progressTracker w)
                          (airtable w) (trace w) in
        match wait with
        | None => (Returned tt, w1)
        | Some ms => sleep ms w1
        end
    end.

(** The block guarded by [promptImageAttachment]: the texts and the
    reference images the generation will use. *)
Definition prepareReferences (r : PromptRecord) (baseRefImageUrls : list string)
           (cfg : GenConfig)
  : M (option string * option string * list string) :=
  let promptText := Prompt (fields r) in
  let videoPromptText :=
    if truthy (Video_Prompt (fields r)) then Video_Prompt (fields r)
    else promptText in
  match Prompt_Image (fields r) with
  | Some (att :: _) =>
      let promptImageUrl := url att in
      x <- (if truthy (geminiApiKey cfg) then
              geminiAcquire ;;
              emit (Analyze promptImageUrl) ;;
              match analyzeImageWithGemini env with
              | inl e => throw e
              | inr g =>
                  updateAirtableRecord PromptPatch (id r)
                                       [SetPrompt (gemini_text g)] ;;
                  ret (Some (gemini_text g),
                       (if truthy (Video_Prompt (fields r))
                        then videoPromptText
                        else Some (gemini_text g)),
                       Some (gemini_dataUri g))
              end
            else ret (promptText, videoPromptText, None)) ;;
      let '(pt, vpt, cached) := x in
      refs <- match cached with
              | Some dataUri => ret (baseRefImageUrls ++ [dataUri])
              | None =>
                  emit (FetchImage promptImageUrl) ;;
                  match fetch_promptImage env with
                  | Rejected e => throw e
                  | Resolved imgResp =>
                      if ok imgResp then
                        match json imgResp with
                        | inl e => throw e
                        | inr dataUri => ret (baseRefImageUrls ++ [dataUri])
                        end
                      else ret baseRefImageUrls
                  end
              end ;;
      ret (pt, vpt, refs)
  | _ => ret (promptText, videoPromptText, baseRefImageUrls)
  end.

(** The [else] branch of the test on [existingImages]. *)
Definition generateBranch (r : PromptRecord) (baseRefImageUrls : list string)
           (cfg : GenConfig) : M (list Attachment * option string) :=
  x <- prepareReferences r baseRefImageUrls cfg ;;
  let '(promptText, videoPromptText, finalRefImageUrls) := x in
  images <- generateImages promptText finalRefImageUrls ;;
  downloadImages (id r) 0 images ;;
  updateAirtableRecord ImagesPatch (id r)
    [SetGeneratedImages (map (fun img => mkAttachment (url img)) images);
     SetErrorMessage None] ;;
  ret (images, videoPromptText).

(** [api.generateVideo(...)] *)
Definition api_generateVideo (attempt : Z) (imageUrl : string)
           (prompt : option string) : M Attachment :=
  emit (GenerateVideo attempt imageUrl prompt) ;;
  match video_result (fetch_video env attempt) with
  | inl e => throw e
  | inr video => ret video
  end.

(** [for (let attempt = 1; attempt <= 2; attempt++)] *)
Fixpoint video_attempts (remaining : nat) (attempt : Z) (imageUrl : string)
         (prompt : option string) (lastVideoError : option Error)
  : M (option Attachment * option Error) :=
  match remaining with
  | O => ret (None, lastVideoError)
  | S remaining' =>
      try_catch
        (video <- api_generateVideo attempt imageUrl prompt ;;
         ret (Some video, lastVideoError))
        (fun error =>
           if isVideoRetryable (message error) && (attempt <? 2)
           then sleep 5000 ;;
                video_attempts remaining' (attempt + 1) imageUrl prompt
                               (Some error)
           else throw error)
  end.

(** The [if (enableVideo)] block with its own [try]/[catch]. *)
Definition generateVideos (r : PromptRecord) (images : list Attachment)
           (videoPromptText : option string) : M unit :=
  try_catch
    (match images with
     | [] => throw (mkError "Cannot read properties of undefined (reading 'url')")
     | first :: _ =>
         res <- video_attempts 2 1 (url first) videoPromptText None ;;
         match fst res with
         | None =>
             throw (match snd res with
                    | Some lastVideoError => lastVideoError
                    | None => mkError "Failed to generate video after 2 attempts"
                    end)
         | Some video =>
             emit (Download (url video) (id r +++ "_video.mp4")) ;;
             updateAirtableRecord VideoPatch (id r)
               [SetGeneratedVideos [mkAttachment (url video)]]
         end
     end)
    (fun videoError =>
       updateAirtableRecord VideoErrorPatch (id r)
         [SetErrorMessage
            (Some ("Video generation failed: " +++ message videoError))]).

(** The [RangeError] of ['-'.repeat(empty)] in [makeProgressBar] for
    the tracker [p] being displayed, [empty] being negative. *)
Definition display_RangeError (p : ProgressTracker.t) : Error :=
  mkError ("Invalid count value: "
           +++ String_of (30 - Display.Math_round
                                 (inject_Z (Display.percentage p) / 100
                                  * inject_Z 30))).

(** [progressTracker.increment(ok)]: the counters are updated first;
    then the display either returns or throws out of [increment]. *)
Definition progress_increment (ok : bool) : M unit :=
  fun w =>
    let (p, returned) :=
      Display.increment (clock_increment env) ok (progressTracker w) in
    let w' := mkWorld (circuitBreaker w) (geminiLimiter w) p
                      (airtable w) (trace w) in
    if returned then (Returned tt, w') else (Thrown (display_RangeError p), w').

(** [if (circuitBreaker) circuitBreaker.recordSuccess()] *)
Definition breaker_recordSuccess : M unit :=
  fun w => (Returned tt,
            mkWorld (option_map SimpleCircuitBreaker.recordSuccess
                                (circuitBreaker w))
                    (geminiLimiter w) (progressTracker w)
                    (airtable w) (trace w)).

(** [if (circuitBreaker) circuitBreaker.recordFailure()] *)
Definition breaker_recordFailure : M unit :=
  fun w => (Returned tt,
            mkWorld (option_map (SimpleCircuitBreaker.recordFailure
                                   (clock_recordFailure env))
                                (circuitBreaker w))
                    (geminiLimiter w) (progressTracker w)
                    (airtable w) (trace w)).

(** [!(circuitBreaker && !circuitBreaker.canProceed())] *)
Definition breaker_check : M bool :=
  fun w =>
    match circuitBreaker w with
    | None => (Returned true, w)
    | Some b =>
        let (go, b') := SimpleCircuitBreaker.canProceed (clock_canProceed env) b in
        (Returned go,
         mkWorld (Some b') (geminiLimiter w) (progressTracker w)
                 (airtable w) (trace w))
    end.

(** The body of the outer [try]. *)
Definition pipeline (r : PromptRecord) (baseRefImageUrls : list string)
           (cfg : GenConfig) : M Result :=
  let promptText := Prompt (fields r) in
  let videoPromptText :=
    if truthy (Video_Prompt (fields r)) then Video_Prompt (fields r)
    else promptText in
  x <- match Generated_Images (fields r) with
       | Some (img :: rest) =>
           ret (map (fun i => mkAttachment (url i)) (img :: rest),
                videoPromptText)
       | _ => generateBranch r baseRefImageUrls cfg
       end ;;
  (if enableVideo cfg then generateVideos r (fst x) (snd x) else ret tt) ;;
  progress_increment true ;;
  breaker_recordSuccess ;;
  ret (mkResult true (id r) None false (Some (len (fst x)))).

(** The outer [catch]. *)
Definition on_error (r : PromptRecord) (err : Error) : M Result :=
  if isTransient (message err) then
    progress_increment false ;;
    ret (mkResult false (id r) (Some (message err)) true None)
  else
    breaker_recordFailure ;;
    try_catch
      (updateAirtableRecord ErrorPatch (id r)
         [SetErrorMessage (Some (substring 0 200 (message err)))])
      (fun _ => ret tt) ;;
    progress_increment false ;;
    ret (mkResult false (id r) (Some (message err)) false None).

Definition processPrompt (r : PromptRecord) (baseRefImageUrls : list string)
           (cfg : GenConfig) : M Result :=
  go <- breaker_check ;;
  if go
  then try_catch (pipeline r baseRefImageUrls cfg) (on_error r)
  else ret (mkResult false (id r) (Some "Circuit breaker open") true None).

End WithEnv.

(** [existingImages && existingImages.length > 0] *)
Definition hasExistingImages (r : PromptRecord) : bool :=
  match Generated_Images (fields r) with
  | Some (_ :: _) => true
  | _ => false
  end.

(** *** Reading a trace *)

Definition is_generate (e : Effect) : bool :=
  match e with Generate _ _ _ => true | _ => false end.

Definition is_analyze (e : Effect) : bool :=
  match e with Analyze _ => true | _ => false end.

(** The attempt numbers of the generation requests, in order. *)
Fixpoint attempts_of (tr : list Effect) : list Z :=
  match tr with
  | [] => []
  | Generate a _ _ :: rest => a :: attempts_of rest
  | _ :: rest => attempts_of rest
  end.


(** The PATCHes sent, in order. *)
Fixpoint patches_of (tr : list Effect) : list (string * list FieldUpdate) :=
  match tr with
  | [] => []
  | Patch r us :: rest => (r, us) :: patches_of rest
  | _ :: rest => patches_of rest
  end.

(** *** Notions used to state the properties *)

(** The operation touches nothing but the trace, and sends no PATCH. *)
Definition quiet {A} (m : M A) : Prop :=
  forall w,
    circuitBreaker (snd (m w)) = circuitBreaker w /\
    geminiLimiter (snd (m w)) = geminiLimiter w /\
    progressTracker (snd (m w)) = progressTracker w /\
    airtable (snd (m w)) = airtable w /\
    patches_of (trace (snd (m w))) = patches_of (trace w).

(** The operation leaves the breaker and the tally alone. *)
Definition steady {A} (m : M A) : Prop :=
  forall w,
    circuitBreaker (snd (m w)) = circuitBreaker w /\
    progressTracker (snd (m w)) = progressTracker w.


(** Neither an image generation nor a vision analysis. *)
Definition no_generation (e : Effect) : Prop :=
  is_generate e = false /\ is_analyze e = false.

(** Every effect the operation adds to the trace satisfies [P]. *)
Definition adds {A} (P : Effect -> Prop) (m : M A) : Prop :=
  forall w, exists new,
    trace (snd (m w)) = trace w ++ new /\ Forall P new.

End Pipeline.

(* ---------------------------------------------------------------------- *)
(** ** Concrete jobs and environments *)

Module Scenario.
Import Js Pipeline.
Local Open Scope string_scope.
Local Open Scope list_scope.
Local Open Scope Z_scope.

Definition unused : Error := mkError "not requested".

(** A PATCH the table accepts. *)
Definition patch_ok : Fetch unit := Resolved (mkResponse 200 (inr "{}") (inr tt)).

(** The generation endpoint answers every attempt with [status] and
    [body]. *)
Definition env_status (status : Z) (body : string) : Env :=
  mkEnv 100 100 200 300 (inl unused) (Rejected unused)
        (fun _ => Resolved (mkResponse status (inr body) (inr None)))
        (fun _ => Rejected unused)
        (fun _ => patch_ok).

(** The generation fetch itself rejects with [msg] on every attempt. *)
Definition env_reject (msg : string) : Env :=
  mkEnv 100 100 200 300 (inl unused) (Rejected unused)
        (fun _ => Rejected (mkError msg))
        (fun _ => Rejected unused)
        (fun _ => patch_ok).

Definition blank : Fields := mkFields (Some "a prompt") None None None None None.

(** A job with a prompt and nothing else. *)
Definition fresh_job : PromptRecord := mkRecord "rec1" blank.

(** A job whose row already lists one generated image. *)
Definition done_job : PromptRecord :=
  mkRecord "rec1"
    (mkFields (Some "a prompt") None (Some [mkAttachment "https://cdn/1.png"])
              None None None).

Definition base_refs : list string := ["data:face"; "data:body"].

(** Video and Gemini switched off. *)
Definition images_only : GenConfig :=
  mkConfig 6 "2048x2048" false false 5 None "describe" "/downloads".

(** A run at its start: the breaker [main] builds, one job expected. *)
Definition world_of (b : SimpleCircuitBreaker.t) : World :=
  mkWorld (Some b) None (ProgressTracker.mk 1 0 0 0 0) (fun _ => blank) [].

Definition world0 : World := world_of (SimpleCircuitBreaker.new 5 60000).

(** The same after two hard failures, the last at clock reading 50. *)
Definition world_two_failures : World :=
  world_of (SimpleCircuitBreaker.mk 2 (Some 50) 5 60000 0).

End Scenario.

(* ---------------------------------------------------------------------- *)
(** ** Sequences of calls *)

Module Sequences.

(** [recordUploadTime] called once per sample, in order. *)
Definition record_all (samples : list Q) (u : UploadLimiter.t) : UploadLimiter.t :=
  fold_left (fun acc d => UploadLimiter.recordUploadTime d acc) samples u.

(** [acquire] called at each clock reading in turn, every call running to
    completion before the next: the waits of the calls and the final
    state. *)
Fixpoint acquire_seq (nows : list Z) (r : RateLimiter.t)
  : list (option Q) * RateLimiter.t :=
  match nows with
  | [] => ([], r)
  | now :: rest =>
      let (r1, w) := RateLimiter.acquire now r in
      let (ws, r2) := acquire_seq rest r1 in
      (w :: ws, r2)
  end.

(** [progressTracker.increment(ok)] called once per pair of a clock
    reading and an outcome. *)
Definition increments (calls : list (Z * bool)) (p : ProgressTracker.t)
  : ProgressTracker.t :=
  fold_left (fun acc c => ProgressTracker.increment (fst c) (snd c) acc) calls p.

(** How many of the settled tasks fulfilled. *)
Definition fulfilled (finished : list (nat * bool)) : Z :=
  len (filter snd finished).

(** The counters of a scheduler state agree with its logs. *)
Definition accounted (s : ConcurrencyLimiter.Sched) : Prop :=
  ConcurrencyLimiter.totalExecuted (ConcurrencyLimiter.limiter s)
    = fulfilled (ConcurrencyLimiter.finished s) /\
  len (ConcurrencyLimiter.started s)
    = len (ConcurrencyLimiter.executing s) + len (ConcurrencyLimiter.finished s).

End Sequences.

(* ---------------------------------------------------------------------- *)
(** ** More trace readers and fixtures *)

Module Fixture.
Import Js Pipeline.
Local Open Scope string_scope.
Local Open Scope list_scope.
Local Open Scope Z_scope.

(** The attempt numbers of the video requests, in order. *)
Fixpoint video_attempts_of (tr : list Effect) : list Z :=
  match tr with
  | [] => []
  | GenerateVideo a _ _ :: rest => a :: video_attempts_of rest
  | _ :: rest => video_attempts_of rest
  end.

(** The URLs handed to [downloadImage], in order. *)
Fixpoint downloads_of (tr : list Effect) : list string :=
  match tr with
  | [] => []
  | Download u _ :: rest => u :: downloads_of rest
  | _ :: rest => downloads_of rest
  end.

(** The first attempt is answered with a 503, the second with two
    images; video requests are rejected. *)
Definition env_second_try : Env :=
  mkEnv 100 100 200 300 (inl Scenario.unused) (Rejected Scenario.unused)
        (fun a => if a =? 1
                  then Resolved (mkResponse 503 (inr "Service Unavailable") (inr None))
                  else Resolved (mkResponse 200 (inr "ok")
                                   (inr (Some [mkAttachment "https://cdn/a.png";
                                               mkAttachment "https://cdn/b.png"]))))
        (fun _ => Rejected (mkError "fetch failed"))
        (fun _ => Scenario.patch_ok).

(** Video switched on. *)
Definition with_video : GenConfig :=
  mkConfig 6 "2048x2048" false true 5 None "describe" "/downloads".

(** A breaker that has just reached its threshold. *)
Definition world_tripped : World :=
  Scenario.world_of (SimpleCircuitBreaker.mk 5 (Some 50) 5 60000 1).

(** The start of a second batch of 50 rows after a first batch of 100:
    [setTotal] has reset the total, the counts are carried over. *)
Definition world_second_batch : World :=
  mkWorld (Some (SimpleCircuitBreaker.new 5 60000)) None
          (ProgressTracker.mk 50 100 97 3 0) (fun _ => Scenario.blank) [].

(** A job that carries a prompt image and a prompt of its own. *)
Definition job_with_image : PromptRecord :=
  mkRecord "rec7"
    (mkFields (Some "typed prompt") None None
              (Some [mkAttachment "https://cdn/pose.png"]) None None).

(** Gemini configured, and answering with a description and the image. *)
Definition with_gemini : GenConfig :=
  mkConfig 6 "2048x2048" false false 5 (Some "key") "describe" "/downloads".

Definition env_gemini : Env :=
  mkEnv 100 100 200 300
        (inr (mkGemini "a described pose" "data:image/png;base64,AAAA"))
        (Rejected Scenario.unused)
        (fun _ => Resolved (mkResponse 200 (inr "ok")
                              (inr (Some [mkAttachment "https://cdn/a.png"]))))
        (fun _ => Rejected Scenario.unused)
        (fun _ => Scenario.patch_ok).

(** The start of a run with the Gemini limiter [main] builds. *)
Definition world_gemini : World :=
  mkWorld (Some (SimpleCircuitBreaker.new 5 60000))
          (Some (RateLimiter.new (10 # 1) 0))
          (ProgressTracker.mk 1 0 0 0 0) (fun _ => Scenario.blank) [].

End Fixture.

(* ---------------------------------------------------------------------- *)
(** ** The start of [main]: settings and base references *)

Module Main.
Import Js Pipeline.
Local Open Scope string_scope.
Local Open Scope list_scope.
Local Open Scope Z_scope.

Local Infix "+++" := String.append (at level 60, right associativity).

(** The numbers [JSON.parse] can produce. *)
Inductive JsNumber : Type :=
| Finite (q : Q)
| PosInfinity
| NegInfinity.

(** A field of the configuration row as [main] sees it; arrays and
    objects are only ever tested for truthiness and type. *)
Inductive JsValue : Type :=
| JUndefined
| JNull
| JBool (b : bool)
| JNumber (n : JsNumber)
| JString (s : string)
| JObject.

Definition ToBoolean (v : JsValue) : bool :=
  match v with
  | JUndefined | JNull => false
  | JBool b => b
  | JNumber (Finite q) => negb (Qeq_bool q 0)
  | JNumber _ => true
  | JString EmptyString => false
  | JString _ => true
  | JObject => true
  end.

(** [v || d] *)
Definition or_else (v d : JsValue) : JsValue := if ToBoolean v then v else d.

(** [n < k] and [n > k] for a number [n] and a finite [k]. *)
Definition num_lt (n : JsNumber) (k : Q) : bool :=
  match n with
  | Finite q => Qlt_bool q k
  | PosInfinity => false
  | NegInfinity => true
  end.

Definition num_gt (n : JsNumber) (k : Q) : bool :=
  match n with
  | Finite q => Qlt_bool k q
  | PosInfinity => true
  | NegInfinity => false
  end.

(** [numImages] as [main] settles it; the comparisons are reached only
    when [typeof numImages] is ['number']. *)
Definition numImages (num_images : JsValue) : JsValue :=
  let numImages := or_else num_images (JNumber (Finite 6)) in
  match numImages with
  | JNumber n =>
      if num_lt n 1 || num_gt n 6 then JNumber (Finite 6) else numImages
  | _ => JNumber (Finite 6)
  end.

(** [[5, 10].includes(v)]: only a number of that value is found. *)
Definition includes_5_10 (v : JsValue) : bool :=
  match v with
  | JNumber (Finite q) => Qeq_bool q 5 || Qeq_bool q 10
  | _ => false
  end.

Definition videoDuration (Video_Duration : JsValue) : JsValue :=
  let videoDuration := or_else Video_Duration (JNumber (Finite 5)) in
  if negb (includes_5_10 videoDuration) then JNumber (Finite 5)
  else videoDuration.

(** [airtableConfig.Face_Reference || []] *)
Definition or_empty (a : option (list Attachment)) : list Attachment :=
  match a with Some l => l | None => [] end.

(** [faceImages] and [bodyImages], or the error thrown when both fields
    are empty. *)
Definition referenceImages (Face_Reference Body_Reference : option (list Attachment))
  : Error + (list Attachment * list Attachment) :=
  let faceReference := or_empty Face_Reference in
  let bodyReference := or_empty Body_Reference in
  if (len faceReference =? 0) && (len bodyReference =? 0)
  then inl (mkError
         "No Face_Reference or Body_Reference found in Airtable configuration")
  else inr (firstn 2 faceReference, firstn 2 bodyReference).

(** The loop that turns the attachments into data URIs, from index [i]
    on; [fetch_ref i] is what the download of attachment [i] does, the
    value of its [json] standing for the data URI built from the body. *)
Fixpoint convertReferences (fetch_ref : Z -> Fetch string) (faceCount i : Z)
         (atts : list Attachment) (baseRefImageUrls : list string)
  : Error + list string :=
  match atts with
  | [] => inr baseRefImageUrls
  | _ :: rest =>
      let imageType := if i <? faceCount then "Face" else "Body" in
      match fetch_ref i with
      | Rejected e => inl e
      | Resolved imgResp =>
          if negb (ok imgResp)
          then inl (mkError ("Failed to download " +++ imageType
                             +++ " reference image " +++ String_of (i + 1)))
          else
            match json imgResp with
            | inl e => inl e
            | inr dataUri =>
                convertReferences fetch_ref faceCount (i + 1) rest
                                  (baseRefImageUrls ++ [dataUri])
            end
      end
  end.

Definition baseRefImageUrls (fetch_ref : Z -> Fetch string)
           (Face_Reference Body_Reference : option (list Attachment))
  : Error + list string :=
  match referenceImages Face_Reference Body_Reference with
  | inl e => inl e
  | inr (faceImages, bodyImages) =>
      convertReferences fetch_ref (len faceImages) 0
                        (faceImages ++ bodyImages) []
  end.

(** Every reference downloads and becomes the data URI ["data:" + index]. *)
Definition fetch_ref_ok (i : Z) : Fetch string :=
  Resolved (mkResponse 200 (inr "bytes") (inr ("data:" +++ String_of i))).

End Main.

(* ---------------------------------------------------------------------- *)
(** ** [arrayToBase64] *)

Module Helpers.
Local Open Scope string_scope.
Local Open Scope list_scope.
Local Open Scope nat_scope.

(** [0x8000] *)
Definition CHUNK : nat := Z.to_nat 32768.

(** [bytes.subarray(i, j)] for [i <= j]. *)
Definition subarray {A : Type} (i j : nat) (bytes : list A) : list A :=
  firstn (j - i) (skipn i bytes).

(** [String.fromCharCode.apply(null, chunk)]: one character per byte. *)
Definition fromCharCode (chunk : list ascii) : string :=
  string_of_list_ascii chunk.

Section WithBtoa.
(** The platform's [btoa]. *)
Variable btoa : string -> string.

(** The [for] loop from index [i] on; [fuel] bounds the iterations, and
    [length bytes] is enough as every iteration advances [i]. *)
Fixpoint chunk_loop (fuel i : nat) (bytes : list ascii) (str : string) : string :=
  match fuel with
  | O => str
  | S fuel' =>
      if i <? List.length bytes
      then chunk_loop fuel' (i + CHUNK) bytes
                      (String.append str
                         (fromCharCode (subarray i (i + CHUNK) bytes)))
      else str
  end.

Definition arrayToBase64 (bytes : list ascii) : string :=
  btoa (chunk_loop (List.length bytes) 0 bytes EmptyString).

End WithBtoa.

End Helpers.

(* ====================================================================== *)
(** * Theorems                                                             *)
(* ====================================================================== *)


(* ---------------------------------------------------------------------- *)
(** ** Circuit breaker *)

Module CircuitBreakerFacts.
Import SimpleCircuitBreaker.

Lemma recordFailure_static now b :
  threshold (recordFailure now b) = threshold b /\
  cooldownMs (recordFailure now b) = cooldownMs b.
Proof.
  unfold recordFailure.
  destruct (threshold b <=? failures b + 1); simpl; auto.
Qed.

Lemma recordFailure_failures now b :
  failures (recordFailure now b) = failures b + 1.
Proof.
  unfold recordFailure.
  destruct (threshold b <=? failures b + 1); reflexivity.
Qed.

Lemma recordFailure_stamp now b :
  lastFailure (recordFailure now b) = Some now.
Proof.
  unfold recordFailure.
  destruct (threshold b <=? failures b + 1); reflexivity.
Qed.

Lemma recordFailure_totalBreaks now b :
  totalBreaks (recordFailure now b) =
  totalBreaks b + (if threshold b <=? failures b + 1 then 1 else 0).
Proof.
  unfold recordFailure.
  destruct (threshold b <=? failures b + 1); simpl; lia.
Qed.

Lemma recordFailures_cons now nows b :
  recordFailures (now :: nows) b = recordFailures nows (recordFailure now b).
Proof. reflexivity. Qed.

Lemma recordFailures_failures nows : forall b,
  failures (recordFailures nows b) = failures b + len nows.
Proof.
  induction nows as [|now nows IH]; intro b.
  - unfold len; simpl; lia.
  - rewrite recordFailures_cons, IH, recordFailure_failures.
    unfold len; simpl List.length; lia.
Qed.

(** Every call that leaves the counter at or above the threshold counts
    one more break. *)
Lemma recordFailures_totalBreaks nows : forall b,
  totalBreaks (recordFailures nows b) - totalBreaks b =
  Z.max 0 (Z.min (len nows) (failures b + len nows - threshold b + 1)).
Proof.
  induction nows as [|now nows IH]; intro b.
  - unfold len; simpl; lia.
  - rewrite recordFailures_cons.
    specialize (IH (recordFailure now b)).
    rewrite recordFailure_failures, recordFailure_totalBreaks in IH.
    destruct (recordFailure_static now b) as [Ht _]; rewrite Ht in IH.
    assert (Hl : len (now :: nows) = len nows + 1)
      by (unfold len; simpl List.length; lia).
    rewrite Hl.
    assert (0 <= len nows) by (unfold len; lia).
    destruct (Z.leb_spec (threshold b) (failures b + 1)); lia.
Qed.

(** C4 (as amended): [recordFailure] adds one to [failures] and stamps
    [lastFailure]; over a run of consecutive calls [totalBreaks] grows by
    the number of calls that end with [failures >= threshold], which is
    at most one as long as the run does not go past the threshold. *)
Theorem recordFailure_breaks_tally : forall (nows : list Z) (now : Z) (b : t),
  failures (recordFailure now b) = failures b + 1 /\
  lastFailure (recordFailure now b) = Some now /\
  totalBreaks (recordFailures nows b) - totalBreaks b =
    Z.max 0 (Z.min (len nows) (failures b + len nows - threshold b + 1)) /\
  (failures b + len nows <= threshold b ->
   totalBreaks (recordFailures nows b) - totalBreaks b <= 1).
Proof.
  intros nows now b.
  split; [apply recordFailure_failures|].
  split; [apply recordFailure_stamp|].
  split; [apply recordFailures_totalBreaks|].
  intro H. rewrite recordFailures_totalBreaks. lia.
Qed.

Lemma recordFailure_breaks_tally_witness :
  failures (new 5 60000) + len [10; 20; 30; 40; 50] <= threshold (new 5 60000) /\
  totalBreaks (recordFailures [10; 20; 30; 40; 50] (new 5 60000))
    - totalBreaks (new 5 60000) <= 1.
Proof.
  split; [vm_compute; discriminate|].
  apply (recordFailure_breaks_tally [10; 20; 30; 40; 50] 0 (new 5 60000)).
  vm_compute; discriminate.
Defined.

(** Seven failures in a row on the breaker [main] builds: the fifth,
    sixth and seventh call each count a break. *)
Lemma recordFailure_breaks_repeat :
  totalBreaks (recordFailures [1; 2; 3; 4; 5; 6; 7] (new 5 60000))
    - totalBreaks (new 5 60000) = 3 /\
  ~ (totalBreaks (recordFailures [1; 2; 3; 4; 5; 6; 7] (new 5 60000))
       - totalBreaks (new 5 60000) <= 1).
Proof. split; [reflexivity | vm_compute; intro H; apply H; reflexivity]. Qed.

Lemma canProceed_closed now b :
  failures b < threshold b -> canProceed now b = (true, b).
Proof.
  intro H. unfold canProceed.
  destruct (Z.ltb_spec (failures b) (threshold b)); [reflexivity | lia].
Qed.

Lemma canProceed_heals now b :
  threshold b <= failures b -> cooldownMs b < timeSinceFailure now b ->
  canProceed now b = (true, set_failures 0 b).
Proof.
  intros H1 H2. unfold canProceed.
  destruct (Z.ltb_spec (failures b) (threshold b)); [lia|].
  destruct (Z.ltb_spec (cooldownMs b) (timeSinceFailure now b)); [reflexivity | lia].
Qed.

Lemma canProceed_open now b :
  threshold b <= failures b -> timeSinceFailure now b <= cooldownMs b ->
  canProceed now b = (false, b).
Proof.
  intros H1 H2. unfold canProceed.
  destruct (Z.ltb_spec (failures b) (threshold b)); [lia|].
  destruct (Z.ltb_spec (cooldownMs b) (timeSinceFailure now b)); [lia | reflexivity].
Qed.

Lemma canProceed_true_reset now b :
  fst (canProceed now b) = true ->
  snd (canProceed now b) = b \/ snd (canProceed now b) = set_failures 0 b.
Proof.
  unfold canProceed.
  destruct (failures b <? threshold b); [left; reflexivity|].
  destruct (cooldownMs b <? timeSinceFailure now b); simpl; auto.
Qed.

Lemma recordSuccess_resets b : wf b -> failures (recordSuccess b) = 0.
Proof.
  unfold wf, recordSuccess. intro H.
  destruct (Z.ltb_spec 0 (failures b)); simpl; lia.
Qed.

Lemma wf_preserved now b :
  wf b ->
  wf (snd (canProceed now b)) /\ wf (recordFailure now b) /\ wf (recordSuccess b).
Proof.
  unfold wf. intro H. repeat split.
  - unfold canProceed.
    destruct (failures b <? threshold b); [assumption|].
    destruct (cooldownMs b <? timeSinceFailure now b); simpl; lia.
  - rewrite recordFailure_failures; lia.
  - unfold recordSuccess. destruct (0 <? failures b); simpl; lia.
Qed.

(** C5: [canProceed] answers true below the threshold.  At or above it,
    with [last] the clock reading stamped by the last recorded failure,
    it answers true and zeroes [failures] (leaving every other field)
    exactly when [now - last] exceeds [cooldownMs], and answers false and
    changes nothing otherwise; so the breaker is open iff
    [failures >= threshold] and [now - last <= cooldownMs].  A breaker
    that never recorded a failure measures from clock reading 0.
    [recordFailure] at reading [t] stamps [t] and adds one failure;
    [recordSuccess] leaves [failures] at 0 and the stamp in place. *)
Theorem canProceed_contract : forall (now : Z) (b : t),
  wf b ->
  (failures b < threshold b -> canProceed now b = (true, b)) /\
  (forall last, lastFailure b = Some last -> threshold b <= failures b ->
     (cooldownMs b < now - last ->
        canProceed now b
        = (true, mk 0 (Some last) (threshold b) (cooldownMs b) (totalBreaks b))) /\
     (now - last <= cooldownMs b -> canProceed now b = (false, b))) /\
  (forall last, lastFailure b = Some last ->
     (fst (canProceed now b) = false <->
      threshold b <= failures b /\ now - last <= cooldownMs b)) /\
  (lastFailure b = None ->
     (fst (canProceed now b) = false <->
      threshold b <= failures b /\ now <= cooldownMs b)) /\
  (forall t, lastFailure (recordFailure t b) = Some t /\
             failures (recordFailure t b) = failures b + 1) /\
  failures (recordSuccess b) = 0 /\
  lastFailure (recordSuccess b) = lastFailure b.
Proof.
  intros now b Hwf.
  assert (Hopen : forall since,
            timeSinceFailure now b = since ->
            (fst (canProceed now b) = false <->
             threshold b <= failures b /\ since <= cooldownMs b)).
  { intros since Hs. split.
    - intro Hf.
      destruct (Z.lt_ge_cases (failures b) (threshold b)) as [Hlt|Hge].
      + rewrite (canProceed_closed now b Hlt) in Hf; discriminate.
      + split; [assumption|].
        destruct (Z.lt_ge_cases (cooldownMs b) since) as [Hc|Hc]; [|assumption].
        rewrite <- Hs in Hc.
        rewrite (canProceed_heals now b Hge Hc) in Hf; discriminate.
    - intros [H1 H2]. rewrite <- Hs in H2.
      rewrite (canProceed_open now b H1 H2). reflexivity. }
  split; [apply canProceed_closed|].
  split.
  { intros last Hl Ht.
    assert (Hs : timeSinceFailure now b = now - last)
      by (unfold timeSinceFailure; rewrite Hl; reflexivity).
    split; intro Hc.
    - rewrite canProceed_heals by (rewrite ?Hs; assumption).
      unfold set_failures. rewrite Hl. reflexivity.
    - apply canProceed_open; rewrite ?Hs; assumption. }
  split.
  { intros last Hl. apply Hopen. unfold timeSinceFailure. rewrite Hl. reflexivity. }
  split.
  { intro Hl. apply Hopen. unfold timeSinceFailure. rewrite Hl. lia. }
  split.
  { intro t. split; [|apply recordFailure_failures].
    unfold recordFailure. destruct (threshold b <=? failures b + 1); reflexivity. }
  split; [apply recordSuccess_resets; assumption|].
  unfold recordSuccess. destruct (0 <? failures b); reflexivity.
Qed.

Lemma canProceed_contract_witness :
  let b := recordFailures [1; 2; 3; 4; 5] (new 5 60000) in
  wf b /\ lastFailure b = Some 5 /\ threshold b <= failures b /\
  canProceed 60005 b = (false, b) /\
  canProceed 60006 b = (true, mk 0 (Some 5) 5 60000 1).
Proof.
  cbv zeta.
  assert (Hwf : wf (recordFailures [1; 2; 3; 4; 5] (new 5 60000)))
    by (vm_compute; discriminate).
  assert (Hl : lastFailure (recordFailures [1; 2; 3; 4; 5] (new 5 60000)) = Some 5)
    by reflexivity.
  assert (Ht : threshold (recordFailures [1; 2; 3; 4; 5] (new 5 60000))
               <= failures (recordFailures [1; 2; 3; 4; 5] (new 5 60000)))
    by (vm_compute; discriminate).
  split; [exact Hwf|]. split; [exact Hl|]. split; [exact Ht|].
  split.
  - destruct (canProceed_contract 60005 _ Hwf) as (_ & H2 & _).
    destruct (H2 5 Hl Ht) as [_ Hstay].
    apply Hstay. vm_compute. discriminate.
  - destruct (canProceed_contract 60006 _ Hwf) as (_ & H2 & _).
    destruct (H2 5 Hl Ht) as [Hheal _].
    apply Hheal. vm_compute. reflexivity.
Defined.

End CircuitBreakerFacts.

(* ---------------------------------------------------------------------- *)
(** ** Upload limiter *)

Module UploadLimiterFacts.
Import UploadLimiter.



Lemma recordUploadTime_history d u :
  recentUploadTimes (recordUploadTime d u) = pushed_history d u.
Proof.
  unfold recordUploadTime, pushed_history.
  set (hist := if 10 <? len (recentUploadTimes u ++ [d])
               then tl (recentUploadTimes u ++ [d])
               else recentUploadTimes u ++ [d]).
  destruct (3 <=? len hist); [|reflexivity].
  destruct (Qlt_bool 20000 _ && _); [reflexivity|].
  destruct (Qlt_bool _ 15000 && _); reflexivity.
Qed.

Lemma recordUploadTime_frame d u :
  uploading (recordUploadTime d u) = uploading u /\
  queue (recordUploadTime d u) = queue u /\
  totalUploads (recordUploadTime d u) = totalUploads u /\
  fallbackConcurrency (recordUploadTime d u) = fallbackConcurrency u /\
  baseTimeout (recordUploadTime d u) = baseTimeout u.
Proof.
  unfold recordUploadTime.
  destruct (3 <=? len _); [|simpl; auto].
  destruct (Qlt_bool 20000 _ && _); [simpl; auto|].
  destruct (Qlt_bool _ 15000 && _); simpl; auto.
Qed.

(** The three outcomes of the mode switch, by the average of the last
    three samples of the new history. *)
Lemma recordUploadTime_mode d u :
  let h := pushed_history d u in
  (slowConnectionDetected (recordUploadTime d u),
   max (recordUploadTime d u)) =
  if 3 <=? len h then
    if Qlt_bool 20000 (avgLast3 h) && negb (slowConnectionDetected u)
    then (true, fallbackConcurrency u)
    else if Qlt_bool (avgLast3 h) 15000 && slowConnectionDetected u
         then (false, fallbackConcurrency u + 1)
         else (slowConnectionDetected u, max u)
  else (slowConnectionDetected u, max u).
Proof.
  unfold recordUploadTime, pushed_history, avgLast3. cbv zeta.
  set (hist := if 10 <? len (recentUploadTimes u ++ [d])
               then tl (recentUploadTimes u ++ [d])
               else recentUploadTimes u ++ [d]).
  destruct (3 <=? len hist); [|reflexivity].
  simpl slowConnectionDetected. simpl fallbackConcurrency.
  destruct (Qlt_bool 20000 _ && _); [reflexivity|].
  destruct (Qlt_bool _ 15000 && _); reflexivity.
Qed.





(** The scenario of the limiter [main] builds: three slow transfers
    switch slow mode on, three fast ones switch it off again, and one
    slow transfer followed by fast ones switches nothing. *)
Example hysteresis_scenario :
  let slow3 := recordUploadTime 25000 (recordUploadTime 25000
                 (recordUploadTime 25000 (new 3 10000 2))) in
  let fast3 := recordUploadTime 5000 (recordUploadTime 5000
                 (recordUploadTime 5000 slow3)) in
  let blip := recordUploadTime 5000 (recordUploadTime 5000
                 (recordUploadTime 30000 (new 3 10000 2))) in
  (slowConnectionDetected slow3, max slow3) = (true, 2) /\
  (slowConnectionDetected fast3, max fast3) = (false, 3) /\
  (slowConnectionDetected blip, max blip) = (false, 3).
Proof. vm_compute. repeat split. Qed.

(** *** [wrapFetch] *)

(** [wrapFetch] starts from the limiter a granted [acquireUploadSlot]
    leaves. *)
Lemma wrapFetch_start_slot now caller u :
  uploading u < max u ->
  acquireUploadSlot caller u = (true, snd (wrapFetch_start now u)).
Proof.
  intro H. unfold acquireUploadSlot, wrapFetch_start.
  destruct (Z.leb_spec (max u) (uploading u)); [lia | reflexivity].
Qed.

Lemma call_inv_start now u : call_inv now u (wrapFetch_start now u).
Proof.
  unfold call_inv, wrapFetch_start, releases; simpl.
  repeat split; lia.
Qed.

Lemma releaseOnce_inv now u0 c u :
  call_inv now u0 (c, u) ->
  call_inv now u0 (releaseOnce (clearTimeout (settle c)) u) /\
  call_inv now u0 (releaseOnce (clearTimeout c) u) /\
  slotReleased (fst (releaseOnce (clearTimeout (settle c)) u)) = true /\
  slotReleased (fst (releaseOnce (clearTimeout c) u)) = true.
Proof.
  unfold call_inv, releaseOnce, releases, clearTimeout, settle.
  intros (Hs & Ht & Hu & Hn & Hq & Hp). simpl.
  destruct (slotReleased c) eqn:E; simpl; rewrite ?E; simpl;
    repeat split; try assumption; try discriminate; try lia;
    try (rewrite Hq; reflexivity).
Qed.

Lemma step_inv now u0 ev cu :
  call_inv now u0 cu -> call_inv now u0 (wrapFetch_step ev cu).
Proof.
  destruct cu as [c u]. intro H.
  destruct (releaseOnce_inv now u0 c u H) as (H1 & H2 & _ & _).
  unfold wrapFetch_step. destruct ev as [|n|].
  - destruct (timerPending c); assumption.
  - destruct (settled c); [assumption|].
    destruct (releaseOnce (clearTimeout (settle c)) u) as [c1 u1] eqn:E.
    unfold call_inv in *.
    destruct (recordUploadTime_frame
                (Qmin (inject_Z (n - startTime c)) (timeout c)) u1)
      as (F1 & F2 & F3 & _).
    rewrite F1, F2, F3. exact H1.
  - destruct (settled c); assumption.
Qed.

Lemma run_cons ev evs cu :
  wrapFetch_run (ev :: evs) cu = wrapFetch_run evs (wrapFetch_step ev cu).
Proof. reflexivity. Qed.

Lemma run_inv now u0 evs : forall cu,
  call_inv now u0 cu -> call_inv now u0 (wrapFetch_run evs cu).
Proof.
  induction evs as [|ev evs IH]; intros cu H; [exact H|].
  apply IH, step_inv, H.
Qed.

Lemma step_releases now u0 ev cu :
  call_inv now u0 cu -> slotReleased (fst (wrapFetch_step ev cu)) = true.
Proof.
  destruct cu as [c u]. intro H.
  destruct (releaseOnce_inv now u0 c u H) as (_ & _ & R1 & R2).
  destruct H as (_ & _ & _ & _ & _ & Hp).
  unfold wrapFetch_step.
  destruct (slotReleased c) eqn:E.
  - destruct ev as [|n|].
    + destruct (timerPending c); [exact R2 | exact E].
    + destruct (settled c); [exact E|].
      destruct (releaseOnce (clearTimeout (settle c)) u) as [c1 u1].
      exact R1.
    + destruct (settled c); [exact E | exact R1].
  - destruct (Hp eq_refl) as [Ht Hs]. rewrite Ht, Hs.
    destruct ev as [|n|]; try assumption.
    destruct (releaseOnce (clearTimeout (settle c)) u) as [c1 u1].
    exact R1.
Qed.

Lemma run_releases now u0 evs : forall cu,
  call_inv now u0 cu -> slotReleased (fst cu) = true ->
  slotReleased (fst (wrapFetch_run evs cu)) = true.
Proof.
  induction evs as [|ev evs IH]; intros cu H R; [exact R|].
  apply IH; [apply step_inv, H | eapply step_releases, H].
Qed.

(** C9: from the moment [wrapFetch] holds its slot, whatever the event
    loop delivers (timer callback, resolution or rejection of the fetch,
    in any order and number), the slot is released by the first event
    and by no later one: [uploading] goes down by one and [totalUploads]
    up by one exactly when the [slotReleased] guard is set, and the guard
    is set as soon as one event has been delivered. *)
Theorem wrapFetch_releases_once : forall (now : Z) (u : t) (evs : list Event),
  let st := wrapFetch_run evs (wrapFetch_start now u) in
  uploading (snd (wrapFetch_start now u)) - uploading (snd st) = releases (fst st) /\
  totalUploads (snd st) - totalUploads u = releases (fst st) /\
  0 <= releases (fst st) <= 1 /\
  (evs <> [] <-> slotReleased (fst st) = true) /\
  (evs <> [] -> uploading (snd st) = uploading u /\
                totalUploads (snd st) = totalUploads u + 1 /\
                queue (snd st) = tl (queue u)).
Proof.
  intros now u evs st.
  pose proof (run_inv now u evs _ (call_inv_start now u)) as Hinv.
  fold st in Hinv. destruct st as [c' u'] eqn:Est.
  destruct Hinv as (_ & _ & Hu & Hn & Hq & _). simpl fst; simpl snd.
  assert (Hrel : evs <> [] -> slotReleased c' = true).
  { intro Hne. destruct evs as [|ev evs]; [congruence|].
    change c' with (fst (c', u')). rewrite <- Est. unfold st.
    change (wrapFetch_run (ev :: evs) (wrapFetch_start now u))
      with (wrapFetch_run evs (wrapFetch_step ev (wrapFetch_start now u))).
    apply (run_releases now u).
    - apply step_inv, call_inv_start.
    - eapply step_releases, call_inv_start. }
  split; [simpl; lia|]. split; [lia|].
  split; [unfold releases; destruct (slotReleased c'); lia|].
  split.
  - split; [exact Hrel|].
    intros R Hnil. subst evs. unfold st in Est. simpl in Est.
    inversion Est; subst. discriminate.
  - intro Hne. specialize (Hrel Hne). unfold releases in *.
    rewrite Hrel in *. repeat split; [lia | lia | exact Hq].
Qed.

Lemma wrapFetch_releases_once_witness :
  [TimerFires; FetchResolves 12000] <> [] /\
  uploading (snd (wrapFetch_run [TimerFires; FetchResolves 12000]
                    (wrapFetch_start 0 (new 3 10000 2)))) = 0 /\
  totalUploads (snd (wrapFetch_run [TimerFires; FetchResolves 12000]
                    (wrapFetch_start 0 (new 3 10000 2)))) = 1.
Proof.
  assert (Hne : [TimerFires; FetchResolves 12000] <> []) by discriminate.
  split; [exact Hne|].
  destruct (wrapFetch_releases_once 0 (new 3 10000 2)
              [TimerFires; FetchResolves 12000]) as (_ & _ & _ & _ & H).
  destruct (H Hne) as (H1 & H2 & _).
  split; [exact H1 | exact H2].
Defined.

Lemma recordUploadTime_latency d u1 u :
  latency_view u1 = latency_view u ->
  latency_view (recordUploadTime d u1) = latency_view (recordUploadTime d u).
Proof.
  unfold latency_view. intro H. injection H as Hh Hs Hm Hf.
  pose proof (recordUploadTime_mode d u1) as M1.
  pose proof (recordUploadTime_mode d u) as M.
  cbv zeta in M1, M.
  assert (Hp : pushed_history d u1 = pushed_history d u)
    by (unfold pushed_history; rewrite Hh; reflexivity).
  rewrite Hp, Hs, Hm, Hf in M1. rewrite <- M in M1.
  injection M1 as M1 M2.
  rewrite !recordUploadTime_history, Hp, M1, M2.
  destruct (recordUploadTime_frame d u1) as (_ & _ & _ & F1 & _).
  destruct (recordUploadTime_frame d u) as (_ & _ & _ & F & _).
  rewrite F1, F, Hf. reflexivity.
Qed.

Lemma releaseOnce_latency c u :
  latency_view (snd (releaseOnce c u)) = latency_view u.
Proof.
  unfold releaseOnce. destruct (slotReleased c); reflexivity.
Qed.

Lemma step_latency ev cu :
  is_resolve ev = false ->
  latency_view (snd (wrapFetch_step ev cu)) = latency_view (snd cu).
Proof.
  destruct cu as [c u]. destruct ev as [|n|]; [|discriminate|]; intros _; simpl.
  - destruct (timerPending c); [apply releaseOnce_latency | reflexivity].
  - destruct (settled c); [reflexivity | apply releaseOnce_latency].
Qed.

Lemma run_latency evs : forall cu,
  forallb (fun ev => negb (is_resolve ev)) evs = true ->
  latency_view (snd (wrapFetch_run evs cu)) = latency_view (snd cu).
Proof.
  induction evs as [|ev evs IH]; intros cu H; [reflexivity|].
  simpl in H. apply andb_true_iff in H as [H1 H2].
  apply negb_true_iff in H1.
  rewrite run_cons, IH by exact H2. apply step_latency, H1.
Qed.

Lemma step_timer_unsettled cu :
  settled (fst cu) = false ->
  settled (fst (wrapFetch_step TimerFires cu)) = false.
Proof.
  destruct cu as [c u]. simpl. intro H.
  destruct (timerPending c); [|exact H].
  unfold releaseOnce, clearTimeout; simpl.
  destruct (slotReleased c); exact H.
Qed.

Lemma run_timers_unsettled evs : forall cu,
  forallb is_timer evs = true -> settled (fst cu) = false ->
  settled (fst (wrapFetch_run evs cu)) = false.
Proof.
  induction evs as [|ev evs IH]; intros cu H S; [exact S|].
  simpl in H. apply andb_true_iff in H as [H1 H2].
  destruct ev; try discriminate.
  rewrite run_cons. apply IH; [exact H2 | apply step_timer_unsettled, S].
Qed.

Lemma timers_not_resolve evs :
  forallb is_timer evs = true ->
  forallb (fun ev => negb (is_resolve ev)) evs = true.
Proof.
  induction evs as [|ev evs IH]; [reflexivity|].
  simpl. intro H. apply andb_true_iff in H as [H1 H2].
  destruct ev; try discriminate. simpl. apply IH, H2.
Qed.

(** Once the fetch has settled and the timer is gone, no event changes
    anything any more. *)
Lemma step_after_settle ev c u :
  settled c = true -> timerPending c = false ->
  wrapFetch_step ev (c, u) = (c, u).
Proof.
  intros S T. destruct ev; simpl; rewrite ?S, ?T; reflexivity.
Qed.

Lemma run_after_settle evs c u :
  settled c = true -> timerPending c = false ->
  wrapFetch_run evs (c, u) = (c, u).
Proof.
  intros S T. induction evs as [|ev evs IH]; [reflexivity|].
  rewrite run_cons, step_after_settle by assumption. exact IH.
Qed.

(** C10: a call whose fetch rejects, or has not resolved, records no
    sample: history, slow-mode flag and limit are those the call found.
    A call whose fetch resolves at clock reading [t] appends the sample
    [min (t - startTime) timeout] to the history (dropping the oldest
    one beyond ten), where [timeout] is the adaptive timeout read when
    the call started, the base timeout while fewer than three samples
    exist; flag and limit are then what the mode switch of that recording
    makes them, and nothing else touches them. *)
Theorem wrapFetch_records_only_on_resolve :
  forall (now : Z) (u : t) (evs : list Event),
  (forallb (fun ev => negb (is_resolve ev)) evs = true ->
     let u' := snd (wrapFetch_run evs (wrapFetch_start now u)) in
     recentUploadTimes u' = recentUploadTimes u /\
     slowConnectionDetected u' = slowConnectionDetected u /\
     max u' = max u) /\
  (forall (t : Z) (later : list Event),
     forallb is_timer evs = true ->
     let u' := snd (wrapFetch_run (evs ++ FetchResolves t :: later)
                      (wrapFetch_start now u)) in
     let sample := Qmin (inject_Z (t - now)) (getAdaptiveTimeout u) in
     let pushed := recentUploadTimes u ++ [sample] in
     recentUploadTimes u' = (if 10 <? len pushed then tl pushed else pushed) /\
     (len (recentUploadTimes u) < 3 ->
        sample = Qmin (inject_Z (t - now)) (baseTimeout u)) /\
     recentUploadTimes u' = recentUploadTimes (recordUploadTime sample u) /\
     slowConnectionDetected u' = slowConnectionDetected (recordUploadTime sample u) /\
     max u' = max (recordUploadTime sample u)).
Proof.
  intros now u evs. split.
  - intros H u'.
    pose proof (run_latency evs (wrapFetch_start now u) H) as L.
    fold u' in L. unfold latency_view in L. simpl in L.
    injection L as L1 L2 L3 _. auto.
  - intros t later H u' sample pushed.
    assert (L : latency_view u' = latency_view (recordUploadTime sample u)).
    { unfold u', wrapFetch_run. rewrite fold_left_app.
      fold (wrapFetch_run evs (wrapFetch_start now u)).
      pose proof (run_latency evs (wrapFetch_start now u)
                    (timers_not_resolve evs H)) as L0.
      pose proof (run_timers_unsettled evs (wrapFetch_start now u) H eq_refl) as S0.
      pose proof (run_inv now u evs _ (call_inv_start now u)) as I0.
      destruct (wrapFetch_run evs (wrapFetch_start now u)) as [c1 u1].
      simpl in L0, S0. destruct I0 as (Is & It & _).
      simpl fold_left at 1.
      fold (wrapFetch_run later). unfold wrapFetch_step. rewrite S0.
      destruct (releaseOnce (clearTimeout (settle c1)) u1) as [c2 u2] eqn:E.
      assert (S2 : settled c2 = true /\ timerPending c2 = false).
      { unfold releaseOnce in E. simpl in E.
        destruct (slotReleased c1); inversion E; subst; simpl; auto. }
      destruct S2 as [S2 T2].
      rewrite run_after_settle by assumption. simpl snd.
      rewrite Is, It. fold sample.
      apply recordUploadTime_latency.
      change u2 with (snd (c2, u2)). rewrite <- E.
      rewrite releaseOnce_latency. exact L0. }
    unfold latency_view in L. injection L as L1 L2 L3 _.
    split; [rewrite L1; apply recordUploadTime_history|].
    split; [|auto].
    intro Hlt. unfold sample, getAdaptiveTimeout.
    destruct (Z.ltb_spec (len (recentUploadTimes u)) 3); [reflexivity | lia].
Qed.

Lemma wrapFetch_records_only_on_resolve_witness :
  forallb (fun ev => negb (is_resolve ev)) [TimerFires; FetchRejects] = true /\
  recentUploadTimes (snd (wrapFetch_run [TimerFires; FetchRejects]
                            (wrapFetch_start 0 (new 3 10000 2)))) = [] /\
  forallb is_timer [TimerFires] = true /\
  len (recentUploadTimes (new 3 10000 2)) < 3 /\
  recentUploadTimes (snd (wrapFetch_run ([TimerFires] ++ [FetchResolves 12000])
                            (wrapFetch_start 0 (new 3 10000 2))))
  = [Qmin (inject_Z (12000 - 0)) 10000].
Proof.
  split; [reflexivity|]. split.
  - exact (proj1 (proj1 (wrapFetch_records_only_on_resolve 0 (new 3 10000 2)
                           [TimerFires; FetchRejects]) eq_refl)).
  - split; [reflexivity|].
    assert (Hlt : len (recentUploadTimes (new 3 10000 2)) < 3) by reflexivity.
    split; [exact Hlt|].
    destruct (proj2 (wrapFetch_records_only_on_resolve 0 (new 3 10000 2)
                       [TimerFires]) 12000 [] eq_refl) as (Hh & Hs & _).
    rewrite Hh, (Hs Hlt). reflexivity.
Defined.

End UploadLimiterFacts.

(* ---------------------------------------------------------------------- *)
(** ** Rate limiter *)

Module RateLimiterFacts.
Import RateLimiter.

Lemma inject_Z_nonneg z : 0 <= z -> (0 <= inject_Z z)%Q.
Proof. intro H. change 0%Q with (inject_Z 0). rewrite <- Zle_Qle. exact H. Qed.

Lemma tokensToAdd_accrual now r :
  (tokensToAdd now r == accrual (now - lastRefill r) r)%Q.
Proof. unfold tokensToAdd, accrual, elapsed. field. Qed.

Lemma accrual_nonneg ms r : 0 <= ms -> (0 <= rpm r)%Q -> (0 <= accrual ms r)%Q.
Proof.
  intros H1 H2. unfold accrual, Qdiv.
  apply Qmult_le_0_compat; [|discriminate].
  apply Qmult_le_0_compat; [apply inject_Z_nonneg, H1 | exact H2].
Qed.

Lemma accrual_add a b r :
  (accrual a r + accrual b r == accrual (a + b) r)%Q.
Proof. unfold accrual. rewrite inject_Z_plus. field. Qed.

Lemma refilled_bounds now r :
  wf r -> lastRefill r <= now ->
  (0 <= refilled now r)%Q /\ (refilled now r <= rpm r)%Q /\
  (tokens r <= refilled now r)%Q /\
  (refilled now r - tokens r <= accrual (now - lastRefill r) r)%Q.
Proof.
  intros (Hr & H0 & H1) Hn.
  assert (Ha : (0 <= tokensToAdd now r)%Q).
  { rewrite tokensToAdd_accrual. apply accrual_nonneg; [lia | exact Hr]. }
  pose proof (tokensToAdd_accrual now r) as He.
  unfold refilled.
  destruct (Q.min_spec (rpm r) (tokens r + tokensToAdd now r)) as [[A B]|[A B]];
    rewrite B; repeat split; lra.
Qed.

Lemma acquire_enter_static now r :
  rpm (fst (acquire_enter now r)) = rpm r /\
  lastRefill (fst (acquire_enter now r)) = advanced now r.
Proof.
  unfold acquire_enter. destruct (Qle_bool 1 (refilled now r)); simpl; auto.
Qed.

Lemma acquire_enter_wf now r :
  wf r -> lastRefill r <= now -> wf (fst (acquire_enter now r)).
Proof.
  intros Hwf Hn.
  destruct (refilled_bounds now r Hwf Hn) as (B0 & B1 & _ & _).
  destruct Hwf as (Hr & _ & _).
  unfold acquire_enter, wf.
  destruct (Qle_bool 1 (refilled now r)) eqn:E; simpl.
  - apply Qle_bool_iff in E. repeat split; lra.
  - repeat split; assumption.
Qed.

Lemma acquire_resume_wf r : (0 <= rpm r)%Q -> wf (acquire_resume r).
Proof. intro H. unfold wf, acquire_resume; simpl. repeat split; lra. Qed.

Lemma acquire_static now r :
  rpm (fst (acquire now r)) = rpm r /\
  lastRefill (fst (acquire now r)) = advanced now r.
Proof.
  unfold acquire. pose proof (acquire_enter_static now r) as H.
  destruct (acquire_enter now r) as [r1 [w|]]; simpl in *; exact H.
Qed.

Lemma acquire_wf now r :
  wf r -> lastRefill r <= now -> wf (fst (acquire now r)).
Proof.
  intros Hwf Hn. pose proof (acquire_enter_wf now r Hwf Hn) as H.
  unfold acquire. destruct (acquire_enter now r) as [r1 [w|]]; simpl in *.
  - apply acquire_resume_wf. apply H.
  - exact H.
Qed.

Lemma advanced_spaced now r :
  lastRefill r + 1000 <= now -> advanced now r = now.
Proof.
  intro H. unfold advanced, elapsed.
  destruct (Z.leb_spec 1000 (now - lastRefill r)); [reflexivity | lia].
Qed.

Lemma last_reading_ge nows : forall t0,
  spaced t0 nows -> t0 <= last_reading t0 nows.
Proof.
  induction nows as [|now rest IH]; intros t0 H; simpl; [lia|].
  destruct H as [H1 H2]. specialize (IH now H2). lia.
Qed.

(** When every call advances [lastRefill], no interval is credited
    twice and the credits add up to at most the accrual over the whole
    span. *)
Lemma total_credited_spaced nows : forall r,
  wf r -> spaced (lastRefill r) nows ->
  (total_credited nows r <=
   accrual (last_reading (lastRefill r) nows - lastRefill r) r)%Q.
Proof.
  induction nows as [|now rest IH]; intros r Hwf Hs;
    cbn [total_credited last_reading].
  - rewrite Z.sub_diag.
    assert (E : (accrual 0 r == 0)%Q)
      by (unfold accrual; change (inject_Z 0) with 0%Q; field).
    rewrite E. apply Qle_refl.
  - destruct Hs as [H1 H2].
    assert (Hn : lastRefill r <= now) by lia.
    destruct (refilled_bounds now r Hwf Hn) as (_ & _ & _ & Hc).
    destruct (acquire_static now r) as [Er El].
    rewrite advanced_spaced in El by exact H1.
    specialize (IH (fst (acquire now r)) (acquire_wf now r Hwf Hn)).
    rewrite El in IH. specialize (IH H2).
    assert (Ea : accrual (last_reading now rest - now) (fst (acquire now r))
                 = accrual (last_reading now rest - now) r)
      by (unfold accrual; rewrite Er; reflexivity).
    rewrite Ea in IH.
    pose proof (accrual_add (now - lastRefill r) (last_reading now rest - now) r) as Hadd.
    replace (now - lastRefill r + (last_reading now rest - now))
      with (last_reading now rest - lastRefill r) in Hadd by lia.
    unfold credited. lra.
Qed.

(** What the refill of one call adds: the accrual since [lastRefill],
    cut off where the bucket is full. *)
Lemma credited_formula now r :
  (credited now r ==
   Qmin (rpm r - tokens r) (accrual (now - lastRefill r) r))%Q.
Proof.
  unfold credited, refilled.
  pose proof (tokensToAdd_accrual now r) as He.
  destruct (Q.min_spec (rpm r) (tokens r + tokensToAdd now r)) as [[A B]|[A B]];
    destruct (Q.min_spec (rpm r - tokens r) (accrual (now - lastRefill r) r))
      as [[C D]|[C D]];
    rewrite B, D; lra.
Qed.

(** The bucket is within its bounds after a whole call, whatever the
    clock reads. *)
Lemma acquire_wf_any now r : wf r -> wf (fst (acquire now r)).
Proof.
  intros (Hr & H0 & H1). unfold acquire, acquire_enter.
  destruct (Qle_bool 1 (refilled now r)) eqn:E; cbn [fst snd].
  - apply Qle_bool_iff in E.
    assert (Hm : (refilled now r <= rpm r)%Q) by (unfold refilled; apply Q.le_min_l).
    unfold wf; cbn [rpm tokens]. repeat split; lra.
  - unfold wf, acquire_resume; cbn [rpm tokens]. repeat split; lra.
Qed.

(** C7 (as amended): [0 <= tokens <= rpm] holds after every call of
    [acquire] when it held before, and also at its sleep when the clock
    has not run backwards.  With [credit] the smaller of the room left in
    the bucket and the accrual over the time since [lastRefill], a call
    adds exactly [credit] tokens and then takes one if it does not
    sleep.  [lastRefill] moves (to [now]) exactly when at least 1000 ms
    have passed; when it stays, the next call credits the accrual
    counted from the old [lastRefill] again.  Over a sequence of calls
    each at least 1000 ms after the previous refill stamp the credits
    total at most the accrual over the elapsed wall-clock time. *)
Theorem acquire_bucket_invariant : forall (now : Z) (r : t),
  wf r ->
  let credit := Qmin (rpm r - tokens r) (accrual (now - lastRefill r) r) in
  wf (fst (acquire now r)) /\
  (credited now r == credit)%Q /\
  match snd (acquire_enter now r) with
  | None => (tokens (fst (acquire_enter now r)) == tokens r + credit - 1)%Q
  | Some _ => (tokens (fst (acquire_enter now r)) == tokens r + credit)%Q
  end /\
  (credit <= accrual (now - lastRefill r) r)%Q /\
  (tokens r + credit <= rpm r)%Q /\
  (lastRefill r <= now ->
     (0 <= credit)%Q /\
     wf (fst (acquire_enter now r)) /\
     wf (acquire_resume (fst (acquire_enter now r)))) /\
  (1000 <= now - lastRefill r -> lastRefill (fst (acquire now r)) = now) /\
  (now - lastRefill r < 1000 ->
     lastRefill (fst (acquire now r)) = lastRefill r /\
     forall next : Z,
       (credited next (fst (acquire now r)) ==
        Qmin (rpm r - tokens (fst (acquire now r)))
             (accrual (next - lastRefill r) r))%Q) /\
  (forall nows : list Z, spaced (lastRefill r) nows ->
     (total_credited nows r <=
      accrual (last_reading (lastRefill r) nows - lastRefill r) r)%Q).
Proof.
  intros now r Hwf credit.
  pose proof (credited_formula now r) as Hc. fold credit in Hc.
  destruct (acquire_static now r) as [Erpm El].
  split; [apply acquire_wf_any; assumption|].
  split; [exact Hc|].
  split.
  { unfold credited in Hc. unfold acquire_enter.
    destruct (Qle_bool 1 (refilled now r)); cbn [fst snd tokens]; lra. }
  split; [apply Q.le_min_r|].
  split.
  { pose proof (Q.le_min_l (rpm r - tokens r) (accrual (now - lastRefill r) r)) as M.
    fold credit in M. lra. }
  split.
  { intro Hn.
    destruct (refilled_bounds now r Hwf Hn) as (B0 & B1 & B2 & B3).
    split; [unfold credited in Hc; lra|].
    split; [apply acquire_enter_wf; assumption|].
    apply acquire_resume_wf.
    destruct (acquire_enter_static now r) as [Er _]. rewrite Er. apply Hwf. }
  split.
  { rewrite El. unfold advanced, elapsed.
    destruct (Z.leb_spec 1000 (now - lastRefill r)); intros; lia. }
  split.
  { intro H.
    assert (Es : lastRefill (fst (acquire now r)) = lastRefill r).
    { rewrite El. unfold advanced, elapsed.
      destruct (Z.leb_spec 1000 (now - lastRefill r)); [lia | reflexivity]. }
    split; [exact Es|].
    intro next. rewrite credited_formula, Erpm, Es. unfold accrual.
    rewrite Erpm. reflexivity. }
  intros nows Hs. apply total_credited_spaced; assumption.
Qed.

Lemma acquire_bucket_invariant_witness :
  wf (new 10 0) /\ lastRefill (new 10 0) <= 1500 /\
  wf (fst (acquire 1500 (new 10 0))) /\
  lastRefill (fst (acquire 1500 (new 10 0))) = 1500 /\
  600 - lastRefill (fst (acquire 0 (new 10 0))) < 1000 /\
  (credited 900 (fst (acquire 600 (fst (acquire 0 (new 10 0))))) == 3 # 20)%Q.
Proof.
  assert (Hwf : wf (new 10 0))
    by (unfold wf; simpl; repeat split; discriminate).
  assert (Hn : lastRefill (new 10 0) <= 1500) by (simpl; discriminate).
  destruct (acquire_bucket_invariant 1500 (new 10 0) Hwf)
    as (H1 & _ & _ & _ & _ & _ & H7 & _).
  split; [exact Hwf|]. split; [exact Hn|]. split; [exact H1|].
  split; [apply H7; simpl; discriminate|].
  assert (Hwf1 : wf (fst (acquire 0 (new 10 0))))
    by (unfold wf; vm_compute; repeat split; discriminate).
  assert (Hlt : 600 - lastRefill (fst (acquire 0 (new 10 0))) < 1000)
    by (vm_compute; reflexivity).
  split; [exact Hlt|].
  destruct (acquire_bucket_invariant 600 (fst (acquire 0 (new 10 0))) Hwf1)
    as (_ & _ & _ & _ & _ & _ & _ & H8 & _).
  destruct (H8 Hlt) as [_ Hnext].
  rewrite (Hnext 900). vm_compute. reflexivity.
Defined.

(** The limiter [main] builds (10 per minute), called at 0, 600 and
    900 ms: the second call credits 600 ms of accrual, the third credits
    900 ms again because [lastRefill] has not moved, so 1/4 token is
    credited within 900 ms, in which only 3/20 accrue. *)
Lemma refill_credited_twice :
  let calls := [0; 600; 900] in
  let r0 := new 10 0 in
  (total_credited calls r0 == 1 # 4)%Q /\
  (accrual (900 - 0) r0 == 3 # 20)%Q /\
  ~ (total_credited calls r0 <= accrual (last_reading 0 calls - 0) r0)%Q.
Proof.
  split; [vm_compute; reflexivity|].
  split; [vm_compute; reflexivity|].
  vm_compute. intro H. apply H. reflexivity.
Qed.

End RateLimiterFacts.

(* ---------------------------------------------------------------------- *)
(** ** Concurrency limiter *)

Module ConcurrencyLimiterFacts.
Import ConcurrencyLimiter.



Lemma len_snoc {A} (l : list A) x : len (l ++ [x]) = len l + 1.
Proof. unfold len. rewrite length_app. simpl. lia. Qed.

Lemma len_cons {A} (l : list A) x : len (x :: l) = len l + 1.
Proof. unfold len. simpl List.length. lia. Qed.


Lemma len_tl {A} (l : list A) : l <> [] -> len (tl l) = len l - 1.
Proof. destruct l; [congruence|]. intros _. rewrite len_cons. simpl. lia. Qed.


Lemma remove_first_spec i l :
  existsb (Nat.eqb i) l = true ->
  Permutation l (i :: remove_first i l) /\ len (remove_first i l) = len l - 1.
Proof.
  induction l as [|y l IH]; cbn [remove_first existsb]; [discriminate|].
  destruct (Nat.eqb_spec i y) as [->|Hne]; cbn [orb].
  - intros _. split; [reflexivity | rewrite len_cons; lia].
  - intro H. destruct (IH H) as [P Hl]. split.
    + rewrite perm_swap. constructor. exact P.
    + rewrite !len_cons. lia.
Qed.

(** *** The bound on [running], for every interleaving *)






(** *** A batch of [N] tasks launched together *)


















End ConcurrencyLimiterFacts.

(* ---------------------------------------------------------------------- *)
(** ** The progress display *)

Module DisplayFacts.
Import Display.
Local Open Scope string_scope.
Local Open Scope Z_scope.

Lemma Math_round_ge (a : Z) (x : Q) :
  (inject_Z a - (1 # 2) <= x)%Q -> a <= Math_round x.
Proof.
  intro H. unfold Math_round. rewrite <- (Qfloor_Z a).
  apply Qfloor_resp_le. lra.
Qed.

Lemma Math_round_le (b : Z) (x : Q) :
  (x <= inject_Z b)%Q -> Math_round x <= b.
Proof.
  intro H. unfold Math_round.
  pose proof (Qfloor_le (x + (1 # 2))) as F.
  destruct (Z.le_gt_cases (Qfloor (x + (1 # 2))) b) as [|Hgt]; [assumption|].
  exfalso.
  assert (Hz : b + 1 <= Qfloor (x + (1 # 2))) by lia.
  rewrite Zle_Qle, inject_Z_plus in Hz.
  change (inject_Z 1) with 1%Q in Hz. lra.
Qed.

Lemma replicate_length n c : String.length (replicate n c) = n.
Proof. induction n as [|n IH]; simpl; congruence. Qed.

Lemma append_length (a b : string) :
  String.length (a ++ b) = (String.length a + String.length b)%nat.
Proof. induction a as [|c a IH]; simpl; congruence. Qed.

(** The share of [width] a percentage between 0 and 100 fills. *)
Lemma filled_bounds (percentage width : Z) :
  0 <= percentage <= 100 -> 0 <= width ->
  0 <= Math_round (inject_Z percentage / 100 * inject_Z width) <= width.
Proof.
  intros [H0 H1] Hw.
  rewrite Zle_Qle in H0, H1, Hw.
  change (inject_Z 0) with 0%Q in *. change (inject_Z 100) with 100%Q in *.
  assert (Hx : (0 <= inject_Z percentage / 100 * inject_Z width)%Q).
  { apply Qmult_le_0_compat; [|exact Hw].
    unfold Qdiv. apply Qmult_le_0_compat; [exact H0 | discriminate]. }
  assert (Hy : (inject_Z percentage / 100 * inject_Z width <= inject_Z width)%Q).
  { setoid_replace (inject_Z width) with (1 * inject_Z width)%Q at 2 by ring.
    apply Qmult_le_compat_r; [|exact Hw].
    apply Qle_shift_div_r; [reflexivity | lra]. }
  split.
  - apply Math_round_ge. change (inject_Z 0) with 0%Q. lra.
  - apply Math_round_le. exact Hy.
Qed.

Lemma makeProgressBar_some (percentage width : Z) :
  0 <= percentage <= 100 -> 0 <= width ->
  exists filled : nat,
    (filled <= Z.to_nat width)%nat /\
    makeProgressBar percentage width
    = Some (replicate filled "=" ++ replicate (Z.to_nat width - filled) "-").
Proof.
  intros Hp Hw.
  destruct (filled_bounds percentage width Hp Hw) as [F0 F1].
  unfold makeProgressBar, repeat_char.
  set (f := Math_round (inject_Z percentage / 100 * inject_Z width)) in *.
  destruct (Z.ltb_spec f 0); [lia|].
  destruct (Z.ltb_spec (width - f) 0); [lia|].
  exists (Z.to_nat f).
  replace (Z.to_nat (width - f)) with (Z.to_nat width - Z.to_nat f)%nat by lia.
  split; [lia | reflexivity].
Qed.

(** For a percentage between 0 and 100 the bar has exactly [width]
    characters: the filled share as [=], the rest as [-]. *)
Theorem makeProgressBar_width : forall (percentage width : Z),
  0 <= percentage <= 100 -> 0 <= width ->
  exists filled : nat,
    (filled <= Z.to_nat width)%nat /\
    makeProgressBar percentage width
    = Some (replicate filled "=" ++ replicate (Z.to_nat width - filled) "-") /\
    forall bar, makeProgressBar percentage width = Some bar ->
                String.length bar = Z.to_nat width.
Proof.
  intros p w Hp Hw.
  destruct (makeProgressBar_some p w Hp Hw) as (f & Hf & Hb).
  exists f. split; [exact Hf|]. split; [exact Hb|].
  intros bar Hbar. rewrite Hb in Hbar. inversion Hbar; subst bar.
  rewrite append_length, !replicate_length. lia.
Qed.

Lemma makeProgressBar_width_witness :
  0 <= 40 <= 100 /\ 0 <= 30 /\
  forall bar, makeProgressBar 40 30 = Some bar -> String.length bar = 30%nat.
Proof.
  assert (H1 : 0 <= 40 <= 100) by (split; discriminate).
  assert (H2 : 0 <= 30) by discriminate.
  split; [exact H1|]. split; [exact H2|].
  destruct (makeProgressBar_width 40 30 H1 H2) as (f & _ & _ & H).
  exact H.
Defined.

Lemma percentage_in_range p :
  0 <= ProgressTracker.processedPrompts p <= ProgressTracker.totalPrompts p ->
  0 <= percentage p <= 100.
Proof.
  intros [H0 H1]. unfold percentage.
  destruct (Z.ltb_spec 0 (ProgressTracker.totalPrompts p)) as [Ht|Ht]; [|lia].
  rewrite Zle_Qle in H0, H1. rewrite Zlt_Qlt in Ht.
  change (inject_Z 0) with 0%Q in *.
  set (a := inject_Z (ProgressTracker.processedPrompts p)) in *.
  set (t := inject_Z (ProgressTracker.totalPrompts p)) in *.
  assert (Hq0 : (0 <= a / t)%Q).
  { unfold Qdiv. apply Qmult_le_0_compat; [exact H0|].
    apply Qlt_le_weak, Qinv_lt_0_compat, Ht. }
  assert (Hq1 : (a / t <= 1)%Q) by (apply Qle_shift_div_r; [exact Ht | lra]).
  split.
  - apply Math_round_ge. change (inject_Z 0) with 0%Q. lra.
  - apply Math_round_le. change (inject_Z 100) with 100%Q. lra.
Qed.

Lemma showProgress_ok p :
  0 <= percentage p <= 100 -> showProgress p = true.
Proof.
  intro H. unfold showProgress.
  destruct (makeProgressBar_some (percentage p) 30 H ltac:(lia)) as (f & _ & Hb).
  rewrite Hb. reflexivity.
Qed.

Lemma showProgress_throws p :
  102 <= percentage p -> showProgress p = false.
Proof.
  intro H. unfold showProgress, makeProgressBar, repeat_char.
  assert (F : 31 <= Math_round (inject_Z (percentage p) / 100 * inject_Z 30)).
  { apply Math_round_ge. rewrite Zle_Qle in H.
    change (inject_Z 102) with 102%Q in H. change (inject_Z 31) with 31%Q.
    change (inject_Z 30) with 30%Q.
    setoid_replace (inject_Z (percentage p) / 100 * 30)%Q
      with (inject_Z (percentage p) * (3 # 10))%Q by field.
    lra. }
  set (f := Math_round (inject_Z (percentage p) / 100 * inject_Z 30)) in *.
  destruct (Z.ltb_spec f 0); [reflexivity|].
  destruct (Z.ltb_spec (30 - f) 0); [reflexivity | lia].
Qed.

Lemma percentage_overshoot p :
  0 < ProgressTracker.totalPrompts p ->
  203 * ProgressTracker.totalPrompts p <= 200 * ProgressTracker.processedPrompts p ->
  102 <= percentage p.
Proof.
  intros Ht H. unfold percentage.
  destruct (Z.ltb_spec 0 (ProgressTracker.totalPrompts p)); [|lia].
  apply Math_round_ge.
  rewrite Zle_Qle, !inject_Z_mult in H. rewrite Zlt_Qlt in Ht.
  change (inject_Z 203) with 203%Q in H. change (inject_Z 200) with 200%Q in H.
  change (inject_Z 0) with 0%Q in Ht. change (inject_Z 102) with 102%Q.
  set (a := inject_Z (ProgressTracker.processedPrompts p)) in *.
  set (t := inject_Z (ProgressTracker.totalPrompts p)) in *.
  assert (Hq : ((203 # 200) <= a / t)%Q)
    by (apply Qle_shift_div_l; [exact Ht | lra]).
  lra.
Qed.

Lemma increment_within_total now ok p :
  room_for_one p -> snd (increment now ok p) = true.
Proof.
  intros [H0 H1]. unfold increment, maybeShowProgress.
  destruct ok; cbn [ProgressTracker.lastUpdate ProgressTracker.processedPrompts
                    ProgressTracker.totalPrompts ProgressTracker.successCount
                    ProgressTracker.failCount];
    (destruct (_ && _); [reflexivity|]); cbn [snd];
    apply showProgress_ok, percentage_in_range;
    cbn [ProgressTracker.processedPrompts ProgressTracker.totalPrompts]; lia.
Qed.

(** The tracker [increment] leaves is the same whether its display
    returns or throws. *)
Lemma increment_state now ok p :
  fst (increment now ok p) = ProgressTracker.increment now ok p.
Proof.
  unfold increment, ProgressTracker.increment, maybeShowProgress,
         ProgressTracker.maybeShowProgress.
  destruct ok; cbn [ProgressTracker.lastUpdate ProgressTracker.processedPrompts
                    ProgressTracker.totalPrompts];
    destruct (_ && _); reflexivity.
Qed.

(** [increment] with its display leaves the tracker the tally-only
    [increment] leaves.  It returns normally whenever the call keeps
    [processedPrompts] within [totalPrompts].  Once [processedPrompts]
    has passed [totalPrompts] by 2 percent or more, the bar of every call
    is asked for a negative number of [-] and the call throws, whatever
    the clock reads.  (The switch lies near 1.5 percent, where the
    rounding of the code's arithmetic decides.) *)
Theorem increment_display : forall (now : Z) (ok : bool) (p : ProgressTracker.t),
  fst (increment now ok p) = ProgressTracker.increment now ok p /\
  (0 <= ProgressTracker.processedPrompts p ->
   ProgressTracker.processedPrompts p + 1 <= ProgressTracker.totalPrompts p ->
   snd (increment now ok p) = true) /\
  (0 < ProgressTracker.totalPrompts p ->
   51 * ProgressTracker.totalPrompts p
     <= 50 * (ProgressTracker.processedPrompts p + 1) ->
   snd (increment now ok p) = false).
Proof.
  intros now ok p. split; [|split].
  - apply increment_state.
  - intros H0 H1. unfold increment, maybeShowProgress.
    destruct ok; cbn [ProgressTracker.lastUpdate ProgressTracker.processedPrompts
                      ProgressTracker.totalPrompts ProgressTracker.successCount
                      ProgressTracker.failCount];
      (destruct (_ && _); [reflexivity|]); cbn [snd];
      apply showProgress_ok, percentage_in_range;
      cbn [ProgressTracker.processedPrompts ProgressTracker.totalPrompts]; lia.
  - intros Ht H. unfold increment, maybeShowProgress.
    destruct ok; cbn [ProgressTracker.lastUpdate ProgressTracker.processedPrompts
                      ProgressTracker.totalPrompts ProgressTracker.successCount
                      ProgressTracker.failCount];
      (destruct (Z.ltb_spec (ProgressTracker.processedPrompts p + 1)
                            (ProgressTracker.totalPrompts p)); [lia|]);
      rewrite andb_false_r; cbn [snd];
      apply showProgress_throws, percentage_overshoot;
      cbn [ProgressTracker.processedPrompts ProgressTracker.totalPrompts];
      lia.
Qed.

Lemma increment_display_witness :
  0 <= ProgressTracker.processedPrompts (ProgressTracker.mk 100 40 30 10 0) /\
  ProgressTracker.processedPrompts (ProgressTracker.mk 100 40 30 10 0) + 1
    <= ProgressTracker.totalPrompts (ProgressTracker.mk 100 40 30 10 0) /\
  snd (increment 5000 true (ProgressTracker.mk 100 40 30 10 0)) = true /\
  0 < ProgressTracker.totalPrompts (ProgressTracker.mk 100 101 90 11 0) /\
  51 * ProgressTracker.totalPrompts (ProgressTracker.mk 100 101 90 11 0)
    <= 50 * (ProgressTracker.processedPrompts (ProgressTracker.mk 100 101 90 11 0) + 1) /\
  snd (increment 5000 true (ProgressTracker.mk 100 101 90 11 0)) = false.
Proof.
  assert (A1 : 0 <= ProgressTracker.processedPrompts (ProgressTracker.mk 100 40 30 10 0))
    by (simpl; discriminate).
  assert (A2 : ProgressTracker.processedPrompts (ProgressTracker.mk 100 40 30 10 0) + 1
               <= ProgressTracker.totalPrompts (ProgressTracker.mk 100 40 30 10 0))
    by (simpl; discriminate).
  assert (B1 : 0 < ProgressTracker.totalPrompts (ProgressTracker.mk 100 101 90 11 0))
    by reflexivity.
  assert (B2 : 51 * ProgressTracker.totalPrompts (ProgressTracker.mk 100 101 90 11 0)
               <= 50 * (ProgressTracker.processedPrompts
                           (ProgressTracker.mk 100 101 90 11 0) + 1))
    by (simpl; discriminate).
  split; [exact A1|]. split; [exact A2|].
  split; [exact (proj1 (proj2 (increment_display 5000 true _)) A1 A2)|].
  split; [exact B1|]. split; [exact B2|].
  exact (proj2 (proj2 (increment_display 5000 true _)) B1 B2).
Defined.

End DisplayFacts.

(* ---------------------------------------------------------------------- *)
(** ** The per-job pipeline *)

Module PipelineFacts.
Import Js Pipeline.
Local Open Scope string_scope.
Local Open Scope list_scope.
Local Open Scope Z_scope.

Local Infix "+++" := String.append (at level 60, right associativity).

(** *** Operations that touch nothing but the trace *)

Lemma quiet_ret {A} (a : A) : quiet (ret a).
Proof. intro w. simpl. auto. Qed.

Lemma quiet_throw {A} e : quiet (@throw A e).
Proof. intro w. simpl. auto. Qed.

Lemma quiet_bind {A B} (m : M A) (k : A -> M B) :
  quiet m -> (forall a, quiet (k a)) -> quiet (bind m k).
Proof.
  intros Hm Hk w. unfold bind. specialize (Hm w).
  destruct (m w) as [[a|e] w1]; simpl in Hm.
  - specialize (Hk a w1). destruct Hm as (?&?&?&?&?), Hk as (?&?&?&?&?).
    repeat split; congruence.
  - exact Hm.
Qed.

Lemma quiet_try_catch {A} (m : M A) (h : Error -> M A) :
  quiet m -> (forall e, quiet (h e)) -> quiet (try_catch m h).
Proof.
  intros Hm Hh w. unfold try_catch. specialize (Hm w).
  destruct (m w) as [[a|e] w1]; simpl in Hm.
  - exact Hm.
  - specialize (Hh e w1). destruct Hm as (?&?&?&?&?), Hh as (?&?&?&?&?).
    repeat split; congruence.
Qed.

Lemma patches_of_app tr1 tr2 :
  patches_of (tr1 ++ tr2) = patches_of tr1 ++ patches_of tr2.
Proof.
  induction tr1 as [|e tr1 IH]; [reflexivity|].
  destruct e; simpl; rewrite IH; reflexivity.
Qed.

Lemma quiet_emit e :
  (forall r us, e <> Patch r us) -> quiet (emit e).
Proof.
  intros He w. simpl. repeat split.
  rewrite patches_of_app. destruct e; simpl; try apply app_nil_r.
  exfalso. eapply He. reflexivity.
Qed.

Lemma quiet_api_generate env a p refs : quiet (api_generate env a p refs).
Proof.
  unfold api_generate. apply quiet_bind.
  - apply quiet_emit. discriminate.
  - intros _. destruct (generate_result _); [apply quiet_throw | apply quiet_ret].
Qed.

Lemma quiet_generate_attempts env n : forall a p refs last,
  quiet (generate_attempts env n a p refs last).
Proof.
  induction n as [|n IH]; intros a p refs last; cbn [generate_attempts].
  - apply quiet_ret.
  - apply quiet_try_catch.
    + apply quiet_bind; [apply quiet_api_generate | intros; apply quiet_ret].
    + intro e. destruct (isRetryable (message e) && (a <? 3)).
      * apply quiet_bind; [apply quiet_emit; discriminate | intros; apply IH].
      * apply quiet_throw.
Qed.

Lemma quiet_generateImages env p refs : quiet (generateImages env p refs).
Proof.
  unfold generateImages. apply quiet_bind.
  - apply quiet_generate_attempts.
  - intros [[imgs|] last]; simpl; [apply quiet_ret | apply quiet_throw].
Qed.

(** *** Operations that leave the breaker and the tally alone *)

Lemma quiet_steady {A} (m : M A) : quiet m -> steady m.
Proof. intros H w. destruct (H w) as (?&?&?&?&?). auto. Qed.

Lemma steady_bind {A B} (m : M A) (k : A -> M B) :
  steady m -> (forall a, steady (k a)) -> steady (bind m k).
Proof.
  intros Hm Hk w. unfold bind. specialize (Hm w).
  destruct (m w) as [[a|e] w1]; simpl in Hm.
  - specialize (Hk a w1). destruct Hm, Hk. split; congruence.
  - exact Hm.
Qed.

Lemma steady_updateAirtableRecord env site rid us :
  steady (updateAirtableRecord env site rid us).
Proof.
  unfold updateAirtableRecord. apply steady_bind.
  - intro w. simpl. auto.
  - intros _. destruct (fetch_patch env site) as [e|r].
    + apply quiet_steady, quiet_throw.
    + destruct (negb (ok r)).
      * destruct (text r); apply quiet_steady, quiet_throw.
      * apply steady_bind; [intro w; simpl; auto|].
        intros _. destruct (json r);
          [apply quiet_steady, quiet_throw | apply quiet_steady, quiet_ret].
Qed.

Lemma steady_geminiAcquire env : steady (geminiAcquire env).
Proof.
  intro w. unfold geminiAcquire.
  destruct (geminiLimiter w) as [r|]; [|simpl; auto].
  destruct (RateLimiter.acquire (clock_acquire env) r) as [r' [ms|]]; simpl; auto.
Qed.

Lemma steady_prepareReferences env r base cfg :
  steady (prepareReferences env r base cfg).
Proof.
  unfold prepareReferences.
  destruct (Prompt_Image (fields r)) as [[|att atts]|];
    try (apply quiet_steady, quiet_ret).
  apply steady_bind.
  - destruct (truthy (geminiApiKey cfg)); [|apply quiet_steady, quiet_ret].
    apply steady_bind; [apply steady_geminiAcquire|]. intros _.
    apply steady_bind; [intro w; simpl; auto|]. intros _.
    destruct (analyzeImageWithGemini env) as [e|g];
      [apply quiet_steady, quiet_throw|].
    apply steady_bind; [apply steady_updateAirtableRecord|].
    intros _. apply quiet_steady, quiet_ret.
  - intros [[pt vpt] cached].
    apply steady_bind; [|intros; apply quiet_steady, quiet_ret].
    destruct cached; [apply quiet_steady, quiet_ret|].
    apply steady_bind; [intro w; simpl; auto|]. intros _.
    destruct (fetch_promptImage env) as [e|resp];
      [apply quiet_steady, quiet_throw|].
    destruct (ok resp); [|apply quiet_steady, quiet_ret].
    destruct (json resp);
      [apply quiet_steady, quiet_throw | apply quiet_steady, quiet_ret].
Qed.

Lemma breaker_check_frame env w go w1 :
  breaker_check env w = (Returned go, w1) ->
  progressTracker w1 = progressTracker w /\ airtable w1 = airtable w /\
  trace w1 = trace w /\ geminiLimiter w1 = geminiLimiter w.
Proof.
  unfold breaker_check. destruct (circuitBreaker w) as [b|].
  - destruct (SimpleCircuitBreaker.canProceed _ b) as [g b'].
    intro H; inversion H; subst; simpl; auto.
  - intro H; inversion H; subst; auto.
Qed.

Lemma increment_counts now ok p :
  ProgressTracker.processedPrompts (ProgressTracker.increment now ok p)
    = ProgressTracker.processedPrompts p + 1 /\
  ProgressTracker.successCount (ProgressTracker.increment now ok p)
    = ProgressTracker.successCount p + (if ok then 1 else 0) /\
  ProgressTracker.failCount (ProgressTracker.increment now ok p)
    = ProgressTracker.failCount p + (if ok then 0 else 1).
Proof.
  unfold ProgressTracker.increment, ProgressTracker.maybeShowProgress.
  destruct ok; simpl;
    match goal with |- context [if ?c then _ else _] => destruct c end;
    simpl; repeat split; lia.
Qed.

(** While the tally has room for the job the display returns, and
    [increment] is the update of the counters. *)
Lemma progress_increment_room env ok w :
  Display.room_for_one (progressTracker w) ->
  progress_increment env ok w =
  (Returned tt,
   mkWorld (circuitBreaker w) (geminiLimiter w)
           (ProgressTracker.increment (clock_increment env) ok
                                      (progressTracker w))
           (airtable w) (trace w)).
Proof.
  intro H. unfold progress_increment.
  pose proof (DisplayFacts.increment_state (clock_increment env) ok
                (progressTracker w)) as S.
  pose proof (DisplayFacts.increment_within_total (clock_increment env) ok
                (progressTracker w) H) as R.
  destruct (Display.increment (clock_increment env) ok (progressTracker w))
    as [p b].
  cbn [fst snd] in S, R. subst p b. reflexivity.
Qed.

(** Returning or throwing, [increment] leaves everything but the tally. *)
Lemma progress_increment_frame env ok w :
  circuitBreaker (snd (progress_increment env ok w)) = circuitBreaker w /\
  geminiLimiter (snd (progress_increment env ok w)) = geminiLimiter w /\
  airtable (snd (progress_increment env ok w)) = airtable w /\
  trace (snd (progress_increment env ok w)) = trace w.
Proof.
  unfold progress_increment.
  destruct (Display.increment (clock_increment env) ok (progressTracker w))
    as [p [|]]; repeat split.
Qed.

(** Returning or throwing, [increment] leaves the counters updated. *)
Lemma progress_increment_world env ok w :
  snd (progress_increment env ok w) =
  mkWorld (circuitBreaker w) (geminiLimiter w)
          (ProgressTracker.increment (clock_increment env) ok
                                     (progressTracker w))
          (airtable w) (trace w).
Proof.
  unfold progress_increment.
  pose proof (DisplayFacts.increment_state (clock_increment env) ok
                (progressTracker w)) as S.
  destruct (Display.increment (clock_increment env) ok (progressTracker w))
    as [p [|]]; cbn [fst snd] in *; subst p; reflexivity.
Qed.

(** *** The outer [catch] *)

(** What the outer [catch] leaves behind, whether its [increment]
    returns or throws. *)
Lemma on_error_world env r e w :
  let out := on_error env r e w in
  progressTracker (snd out) =
    ProgressTracker.increment (clock_increment env) false (progressTracker w) /\
  (isTransient (message e) = true ->
     airtable (snd out) = airtable w /\ trace (snd out) = trace w /\
     circuitBreaker (snd out) = circuitBreaker w) /\
  (isTransient (message e) = false ->
     circuitBreaker (snd out) =
       option_map (SimpleCircuitBreaker.recordFailure (clock_recordFailure env))
                  (circuitBreaker w) /\
     patches_of (trace (snd out)) =
       patches_of (trace w)
       ++ [(id r, [SetErrorMessage (Some (substring 0 200 (message e)))])]).
Proof.
  assert (B : forall (k : unit -> Result) (w0 : World),
            snd (bind (progress_increment env false) (fun u => ret (k u)) w0)
            = snd (progress_increment env false w0)).
  { intros k w0. unfold bind.
    destruct (progress_increment env false w0) as [[u|e0] w1]; reflexivity. }
  cbv zeta. unfold on_error.
  destruct (isTransient (message e)).
  - rewrite (B (fun _ => mkResult false (id r) (Some (message e)) true None)).
    rewrite progress_increment_world.
    cbn [progressTracker airtable trace circuitBreaker].
    split; [reflexivity|]. split; [auto | discriminate].
  - unfold bind, try_catch, breaker_recordFailure, updateAirtableRecord, bind, emit.
    cbn [fst snd trace circuitBreaker geminiLimiter progressTracker airtable].
    assert (Leaf : forall w0 : World,
              progressTracker w0 = progressTracker w ->
              circuitBreaker w0 =
                option_map (SimpleCircuitBreaker.recordFailure
                              (clock_recordFailure env)) (circuitBreaker w) ->
              patches_of (trace w0) =
                patches_of (trace w)
                ++ [(id r, [SetErrorMessage
                              (Some (substring 0 200 (message e)))])] ->
              let out :=
                (let (o, w1) := progress_increment env false w0 in
                 match o with
                 | Returned _ =>
                     ret (mkResult false (id r) (Some (message e)) false None) w1
                 | Thrown e0 => (Thrown e0, w1)
                 end) in
              progressTracker (snd out) =
                ProgressTracker.increment (clock_increment env) false
                                          (progressTracker w) /\
              (false = true ->
                 airtable (snd out) = airtable w /\ trace (snd out) = trace w /\
                 circuitBreaker (snd out) = circuitBreaker w) /\
              (false = false ->
                 circuitBreaker (snd out) =
                   option_map (SimpleCircuitBreaker.recordFailure
                                 (clock_recordFailure env)) (circuitBreaker w) /\
                 patches_of (trace (snd out)) =
                   patches_of (trace w)
                   ++ [(id r, [SetErrorMessage
                                 (Some (substring 0 200 (message e)))])])).
    { intros w0 Et Eb Ep. cbv zeta.
      pose proof (progress_increment_world env false w0) as W.
      destruct (progress_increment env false w0) as [[u|e0] w1];
        cbn [snd ret] in *; subst w1;
        cbn [progressTracker circuitBreaker trace];
        (split; [rewrite Et; reflexivity|]); (split; [discriminate|]);
        intros _; split; assumption. }
    destruct (fetch_patch env ErrorPatch) as [e1|resp]; cbn [throw ret].
    + apply Leaf; cbn [progressTracker circuitBreaker trace];
        [reflexivity | reflexivity | apply patches_of_app].
    + destruct (negb (ok resp)).
      * destruct (text resp); cbn [throw ret];
          apply Leaf; cbn [progressTracker circuitBreaker trace];
          [reflexivity | reflexivity | apply patches_of_app
          |reflexivity | reflexivity | apply patches_of_app].
      * cbn [set_airtable]. destruct (json resp); cbn [throw ret];
          apply Leaf; cbn [progressTracker circuitBreaker trace];
          [reflexivity | reflexivity | apply patches_of_app
          |reflexivity | reflexivity | apply patches_of_app].
Qed.

Lemma on_error_transient env r e w :
  Display.room_for_one (progressTracker w) ->
  isTransient (message e) = true ->
  on_error env r e w =
  (Returned (mkResult false (id r) (Some (message e)) true None),
   mkWorld (circuitBreaker w) (geminiLimiter w)
           (ProgressTracker.increment (clock_increment env) false
                                      (progressTracker w))
           (airtable w) (trace w)).
Proof.
  intros R H. unfold on_error, bind. rewrite H.
  rewrite (progress_increment_room env false w R). reflexivity.
Qed.

Lemma on_error_permanent env r e w :
  Display.room_for_one (progressTracker w) ->
  isTransient (message e) = false ->
  let out := on_error env r e w in
  fst out = Returned (mkResult false (id r) (Some (message e)) false None) /\
  circuitBreaker (snd out) =
    option_map (SimpleCircuitBreaker.recordFailure (clock_recordFailure env))
               (circuitBreaker w) /\
  patches_of (trace (snd out)) =
    patches_of (trace w)
    ++ [(id r, [SetErrorMessage (Some (substring 0 200 (message e)))])] /\
  progressTracker (snd out) =
    ProgressTracker.increment (clock_increment env) false (progressTracker w).
Proof.
  intros R H. unfold on_error. rewrite H.
  assert (P : forall w2 : World,
            progressTracker w2 = progressTracker w ->
            progress_increment env false w2 =
            (Returned tt,
             mkWorld (circuitBreaker w2) (geminiLimiter w2)
                     (ProgressTracker.increment (clock_increment env) false
                                                (progressTracker w))
                     (airtable w2) (trace w2))).
  { intros w2 E. rewrite progress_increment_room by (rewrite E; exact R).
    rewrite E. reflexivity. }
  unfold bind, try_catch, breaker_recordFailure, updateAirtableRecord, bind, emit.
  cbn [fst snd trace circuitBreaker geminiLimiter progressTracker airtable].
  destruct (fetch_patch env ErrorPatch) as [e1|resp]; cbn [throw ret].
  - rewrite P by reflexivity. cbn. rewrite patches_of_app. auto.
  - destruct (negb (ok resp)).
    + destruct (text resp); cbn [throw ret]; rewrite P by reflexivity; cbn;
        rewrite patches_of_app; auto.
    + cbn [set_airtable]. destruct (json resp); cbn [throw ret];
        rewrite P by reflexivity; cbn; rewrite patches_of_app; auto.
Qed.

(** A job without images whose references are ready and whose generation
    throws leaves the outer [try] with that error. *)
Lemma pipeline_generation_fails env r base cfg w1 x w2 e w3 :
  hasExistingImages r = false ->
  prepareReferences env r base cfg w1 = (Returned x, w2) ->
  generateImages env (fst (fst x)) (snd x) w2 = (Thrown e, w3) ->
  pipeline env r base cfg w1 = (Thrown e, w3).
Proof.
  unfold hasExistingImages, pipeline. intros Hex Hprep Hgen.
  assert (Hb : generateBranch env r base cfg w1 = (Thrown e, w3)).
  { unfold generateBranch, bind. rewrite Hprep.
    destruct x as [[pt vpt] refs]. simpl in Hgen. rewrite Hgen. reflexivity. }
  unfold bind.
  destruct (Generated_Images (fields r)) as [[|img rest]|];
    try discriminate; rewrite Hb; reflexivity.
Qed.

Lemma isTransient_signals m :
  isTransient m = true <->
  includes "524" m = true \/ includes "502" m = true \/
  includes "503" m = true \/ includes "504" m = true \/
  includes "timeout" (toLowerCase m) = true \/
  includes "too many subrequests" (toLowerCase m) = true.
Proof.
  unfold isTransient. rewrite !orb_true_iff. tauto.
Qed.

(** C1 (as amended): when the generation of a job fails with error [e],
    the outer [catch] treats it as transient exactly when the message
    contains 524, 502, 503 or 504, or in lower case contains timeout or
    too many subrequests: then nothing is written to the table and the
    breaker is as the opening check left it; otherwise [recordFailure] is
    called and a PATCH with the first 200 characters of the message is
    sent.  Either way the job counts as one failure of the run.  While
    the tally has room for the job, so that the progress display returns,
    [processPrompt] returns the failure with the message, marked
    [skipErrorSave] in the transient case only. *)
Theorem generation_failure_classification :
  forall (env : Env) (r : PromptRecord) (base : list string) (cfg : GenConfig)
         (w w1 w2 w3 : World)
         (x : option string * option string * list string) (e : Error),
  breaker_check env w = (Returned true, w1) ->
  hasExistingImages r = false ->
  prepareReferences env r base cfg w1 = (Returned x, w2) ->
  generateImages env (fst (fst x)) (snd x) w2 = (Thrown e, w3) ->
  let out := processPrompt env r base cfg w in
  let signalled :=
    includes "524" (message e) = true \/ includes "502" (message e) = true \/
    includes "503" (message e) = true \/ includes "504" (message e) = true \/
    includes "timeout" (toLowerCase (message e)) = true \/
    includes "too many subrequests" (toLowerCase (message e)) = true in
  (isTransient (message e) = true <-> signalled) /\
  (signalled ->
     airtable (snd out) = airtable w2 /\
     patches_of (trace (snd out)) = patches_of (trace w2) /\
     circuitBreaker (snd out) = circuitBreaker w1) /\
  (~ signalled ->
     circuitBreaker (snd out) =
       option_map (SimpleCircuitBreaker.recordFailure (clock_recordFailure env))
                  (circuitBreaker w1) /\
     patches_of (trace (snd out)) =
       patches_of (trace w2)
       ++ [(id r, [SetErrorMessage (Some (substring 0 200 (message e)))])]) /\
  ProgressTracker.failCount (progressTracker (snd out))
    = ProgressTracker.failCount (progressTracker w) + 1 /\
  ProgressTracker.successCount (progressTracker (snd out))
    = ProgressTracker.successCount (progressTracker w) /\
  (Display.room_for_one (progressTracker w) ->
     snd (Display.increment (clock_increment env) false (progressTracker w))
       = true /\
     (signalled ->
        fst out = Returned (mkResult false (id r) (Some (message e)) true None)) /\
     (~ signalled ->
        fst out = Returned (mkResult false (id r) (Some (message e)) false None))).
Proof.
  intros env r base cfg w w1 w2 w3 x e Hgate Hex Hprep Hgen out signalled.
  assert (Hout : out = on_error env r e w3).
  { unfold out, processPrompt, bind. rewrite Hgate. unfold try_catch.
    rewrite (pipeline_generation_fails env r base cfg w1 x w2 e w3 Hex Hprep Hgen).
    reflexivity. }
  destruct (breaker_check_frame env w true w1 Hgate) as (Ft & _ & _ & _).
  pose proof (steady_prepareReferences env r base cfg w1) as Sp.
  rewrite Hprep in Sp. simpl in Sp. destruct Sp as [Sb St].
  pose proof (quiet_generateImages env (fst (fst x)) (snd x) w2) as Q.
  rewrite Hgen in Q. simpl in Q. destruct Q as (Qb & _ & Qt & Qa & Qp).
  assert (Et : progressTracker w3 = progressTracker w) by congruence.
  pose proof (increment_counts (clock_increment env) false (progressTracker w3))
    as (_ & Is & If).
  rewrite Et in Is, If.
  pose proof (isTransient_signals (message e)) as Hsig. fold signalled in Hsig.
  assert (Hnot : ~ signalled -> isTransient (message e) = false).
  { intro Hn. destruct (isTransient (message e)); [|reflexivity].
    exfalso. apply Hn, Hsig. reflexivity. }
  destruct (on_error_world env r e w3) as (Wt & Wtr & Wp).
  rewrite <- Hout in Wt, Wtr, Wp.
  split; [exact Hsig|].
  split.
  { intro Hs. apply Hsig in Hs. destruct (Wtr Hs) as (A1 & A2 & A3).
    repeat split; congruence. }
  split.
  { intro Hn. destruct (Wp (Hnot Hn)) as (P1 & P2).
    split; [rewrite P1 | rewrite P2]; congruence. }
  split; [rewrite Wt, Et; lia|].
  split; [rewrite Wt, Et; lia|].
  intro Hroom.
  assert (R3 : Display.room_for_one (progressTracker w3)) by (rewrite Et; exact Hroom).
  split; [apply DisplayFacts.increment_within_total, Hroom|].
  rewrite Hout. split.
  - intro Hs. apply Hsig in Hs.
    rewrite (on_error_transient env r e w3 R3 Hs). reflexivity.
  - intro Hn.
    destruct (on_error_permanent env r e w3 R3 (Hnot Hn)) as (P1 & _).
    exact P1.
Qed.

Lemma generation_failure_classification_witness :
  let env := Scenario.env_reject "Too many subrequests." in
  let out := processPrompt env Scenario.fresh_job Scenario.base_refs
                           Scenario.images_only Scenario.world0 in
  hasExistingImages Scenario.fresh_job = false /\
  includes "too many subrequests" (toLowerCase "Too many subrequests.") = true /\
  patches_of (trace (snd out)) = [] /\
  circuitBreaker (snd out) = Some (SimpleCircuitBreaker.new 5 60000) /\
  Display.room_for_one (progressTracker Scenario.world0) /\
  fst out = Returned (mkResult false "rec1" (Some "Too many subrequests.") true None).
Proof.
  cbv zeta.
  assert (R : Display.room_for_one (progressTracker Scenario.world0))
    by (split; cbn; lia).
  pose proof (generation_failure_classification
                (Scenario.env_reject "Too many subrequests.")
                Scenario.fresh_job Scenario.base_refs Scenario.images_only
                Scenario.world0 _ _ _ _ _
                eq_refl eq_refl eq_refl eq_refl) as H.
  cbv zeta in H. destruct H as (_ & H & _ & _ & _ & Hres).
  assert (Ht : includes "too many subrequests"
                 (toLowerCase "Too many subrequests.") = true) by reflexivity.
  destruct (H (or_intror (or_intror (or_intror (or_intror (or_intror Ht))))))
    as (_ & H3 & H4).
  destruct (Hres R) as (_ & H1 & _).
  split; [reflexivity|]. split; [exact Ht|].
  split; [exact H3|]. split; [exact H4|]. split; [exact R|].
  exact (H1 (or_intror (or_intror (or_intror (or_intror (or_intror Ht)))))).
Defined.

(** A 429 answer of the generation endpoint carries none of the signals:
    the job gets the error text written to its row and the breaker counts
    a failure. *)
Lemma throttling_429_is_hard_failure :
  let env := Scenario.env_status 429 "Too Many Requests" in
  let out := processPrompt env Scenario.fresh_job Scenario.base_refs
                           Scenario.images_only Scenario.world0 in
  generate_result (fetch_generate env 1)
    = inl (mkError "FAL API error 429: Too Many Requests") /\
  fst out = Returned (mkResult false "rec1"
                        (Some "FAL API error 429: Too Many Requests") false None) /\
  Error_Message (airtable Scenario.world0 "rec1") = None /\
  Error_Message (airtable (snd out) "rec1")
    = Some "FAL API error 429: Too Many Requests" /\
  option_map SimpleCircuitBreaker.failures (circuitBreaker Scenario.world0) = Some 0 /\
  option_map SimpleCircuitBreaker.failures (circuitBreaker (snd out)) = Some 1.
Proof. vm_compute. repeat split. Qed.

(** *** The generation retry loop *)









(** *** Jobs that already have images *)

Lemma adds_silent {A} P (m : M A) :
  (forall w, trace (snd (m w)) = trace w) -> adds P m.
Proof.
  intros H w. exists []. rewrite app_nil_r. split; [apply H | constructor].
Qed.

Lemma adds_ret {A} P (a : A) : adds P (ret a).
Proof. apply adds_silent. reflexivity. Qed.

Lemma adds_throw {A} P e : adds P (@throw A e).
Proof. apply adds_silent. reflexivity. Qed.

Lemma adds_emit (P : Effect -> Prop) e : P e -> adds P (emit e).
Proof.
  intros H w. exists [e]. split; [reflexivity | repeat constructor; exact H].
Qed.

Lemma adds_bind {A B} P (m : M A) (k : A -> M B) :
  adds P m -> (forall a, adds P (k a)) -> adds P (bind m k).
Proof.
  intros Hm Hk w. unfold bind. destruct (Hm w) as (n1 & T1 & F1).
  destruct (m w) as [[a|e] w1]; cbn [snd] in T1.
  - destruct (Hk a w1) as (n2 & T2 & F2). exists (n1 ++ n2).
    rewrite T2, T1, app_assoc. split; [reflexivity | apply Forall_app; auto].
  - exists n1. auto.
Qed.

Lemma adds_try_catch {A} P (m : M A) (h : Error -> M A) :
  adds P m -> (forall e, adds P (h e)) -> adds P (try_catch m h).
Proof.
  intros Hm Hh w. unfold try_catch. destruct (Hm w) as (n1 & T1 & F1).
  destruct (m w) as [[a|e] w1]; cbn [snd] in T1.
  - exists n1. auto.
  - destruct (Hh e w1) as (n2 & T2 & F2). exists (n1 ++ n2).
    rewrite T2, T1, app_assoc. split; [reflexivity | apply Forall_app; auto].
Qed.

Lemma adds_updateAirtableRecord env site rid us :
  adds no_generation (updateAirtableRecord env site rid us).
Proof.
  unfold updateAirtableRecord. apply adds_bind.
  - apply adds_emit. split; reflexivity.
  - intros _. destruct (fetch_patch env site) as [e|r]; [apply adds_throw|].
    destruct (negb (ok r)).
    + destruct (text r); apply adds_throw.
    + apply adds_bind; [apply adds_silent; reflexivity|].
      intros _. destruct (json r); [apply adds_throw | apply adds_ret].
Qed.

Lemma adds_video_attempts env n : forall a u p last,
  adds no_generation (video_attempts env n a u p last).
Proof.
  induction n as [|n IH]; intros a u p last; cbn [video_attempts].
  - apply adds_ret.
  - apply adds_try_catch.
    + apply adds_bind; [|intros; apply adds_ret].
      unfold api_generateVideo. apply adds_bind.
      * apply adds_emit. split; reflexivity.
      * intros _. destruct (video_result _); [apply adds_throw | apply adds_ret].
    + intro e. destruct (isVideoRetryable (message e) && (a <? 2)).
      * apply adds_bind; [apply adds_emit; split; reflexivity | intros; apply IH].
      * apply adds_throw.
Qed.

Lemma adds_generateVideos env r images vpt :
  adds no_generation (generateVideos env r images vpt).
Proof.
  unfold generateVideos. apply adds_try_catch.
  - destruct images as [|first rest]; [apply adds_throw|].
    apply adds_bind; [apply adds_video_attempts|].
    intros [[video|] last]; cbn [fst snd]; [|apply adds_throw].
    apply adds_bind; [apply adds_emit; split; reflexivity|].
    intros _. apply adds_updateAirtableRecord.
  - intro e. apply adds_updateAirtableRecord.
Qed.

Lemma adds_progress_increment env ok P : adds P (progress_increment env ok).
Proof. apply adds_silent. intro w. apply progress_increment_frame. Qed.

Lemma adds_on_error env r e : adds no_generation (on_error env r e).
Proof.
  unfold on_error. destruct (isTransient (message e)).
  - apply adds_bind; [apply adds_progress_increment | intros; apply adds_ret].
  - apply adds_bind; [apply adds_silent; reflexivity|]. intros _.
    apply adds_bind.
    + apply adds_try_catch; [apply adds_updateAirtableRecord|].
      intros; apply adds_ret.
    + intros _. apply adds_bind;
        [apply adds_progress_increment | intros; apply adds_ret].
Qed.

Lemma adds_breaker_check env : adds no_generation (breaker_check env).
Proof.
  apply adds_silent. intro w. unfold breaker_check.
  destruct (circuitBreaker w) as [b|]; [|reflexivity].
  destruct (SimpleCircuitBreaker.canProceed _ b); reflexivity.
Qed.

Lemma steady_try_catch {A} (m : M A) (h : Error -> M A) :
  steady m -> (forall e, steady (h e)) -> steady (try_catch m h).
Proof.
  intros Hm Hh w. unfold try_catch. specialize (Hm w).
  destruct (m w) as [[a|e] w1]; cbn [snd] in Hm.
  - exact Hm.
  - specialize (Hh e w1). destruct Hm, Hh. split; congruence.
Qed.

Lemma quiet_video_attempts env n : forall a u p last,
  quiet (video_attempts env n a u p last).
Proof.
  induction n as [|n IH]; intros a u p last; cbn [video_attempts].
  - apply quiet_ret.
  - apply quiet_try_catch.
    + apply quiet_bind; [|intros; apply quiet_ret].
      unfold api_generateVideo. apply quiet_bind.
      * apply quiet_emit. discriminate.
      * intros _. destruct (video_result _);
          [apply quiet_throw | apply quiet_ret].
    + intro e. destruct (isVideoRetryable (message e) && (a <? 2)).
      * apply quiet_bind;
          [apply quiet_emit; discriminate | intros; apply IH].
      * apply quiet_throw.
Qed.

Lemma steady_generateVideos env r images vpt :
  steady (generateVideos env r images vpt).
Proof.
  unfold generateVideos. apply steady_try_catch.
  - destruct images as [|first rest];
      [apply quiet_steady, quiet_throw|].
    apply steady_bind;
      [apply quiet_steady, quiet_video_attempts|].
    intros [[video|] last]; cbn [fst snd];
      [|apply quiet_steady, quiet_throw].
    apply steady_bind; [intro w; cbn; auto|].
    intros _. apply steady_updateAirtableRecord.
  - intro e. apply steady_updateAirtableRecord.
Qed.

Lemma adds_processPrompt_existing env r base cfg img rest :
  Generated_Images (fields r) = Some (img :: rest) ->
  adds no_generation (processPrompt env r base cfg).
Proof.
  intro Hex. unfold processPrompt.
  apply adds_bind; [apply adds_breaker_check|].
  intros [|]; [|apply adds_ret].
  apply adds_try_catch; [|apply adds_on_error].
  unfold pipeline. rewrite Hex.
  apply adds_bind; [apply adds_ret|]. intros x.
  apply adds_bind.
  - destruct (enableVideo cfg); [apply adds_generateVideos | apply adds_ret].
  - intros _. apply adds_bind; [apply adds_progress_increment|].
    intros _. apply adds_bind; [apply adds_silent; reflexivity|].
    intros _. apply adds_ret.
Qed.

(** When [canProceed] lets the job through, a following [recordSuccess]
    leaves the counter at zero and the other fields as they were. *)
Lemma recordSuccess_after_canProceed now b :
  SimpleCircuitBreaker.wf b ->
  fst (SimpleCircuitBreaker.canProceed now b) = true ->
  SimpleCircuitBreaker.recordSuccess (snd (SimpleCircuitBreaker.canProceed now b))
  = SimpleCircuitBreaker.set_failures 0 b.
Proof.
  unfold SimpleCircuitBreaker.wf, SimpleCircuitBreaker.canProceed,
         SimpleCircuitBreaker.recordSuccess. intros Hwf.
  destruct (SimpleCircuitBreaker.failures b <? SimpleCircuitBreaker.threshold b).
  - intros _. cbn [snd].
    destruct (Z.ltb_spec 0 (SimpleCircuitBreaker.failures b)); [reflexivity|].
    assert (H0 : SimpleCircuitBreaker.failures b = 0) by lia.
    destruct b; cbn in *; subst; reflexivity.
  - destruct (SimpleCircuitBreaker.cooldownMs b
              <? SimpleCircuitBreaker.timeSinceFailure now b);
      [|discriminate].
    intros _. reflexivity.
Qed.

(** C3 (as amended): for a job whose row already lists generated images,
    [processPrompt] requests no image generation and no vision analysis.
    If the breaker is open the job is turned away as failed.  If the
    breaker lets it through, the tally has room for the job (so that the
    progress display returns) and the video block, when video generation
    is on, completes, the job reports success with the listed images
    counted and the breaker receives [recordSuccess]: its [failures]
    become 0 and its other fields stay.  With video generation off
    nothing at all is requested or written. *)
Theorem existing_images_skip_generation :
  forall (env : Env) (r : PromptRecord) (base : list string) (cfg : GenConfig)
         (w : World) (img : Attachment) (rest : list Attachment),
  Generated_Images (fields r) = Some (img :: rest) ->
  let out := processPrompt env r base cfg w in
  let images := map (fun i => mkAttachment (url i)) (img :: rest) in
  let vpt := if truthy (Video_Prompt (fields r)) then Video_Prompt (fields r)
             else Prompt (fields r) in
  (exists new, trace (snd out) = trace w ++ new /\
               Forall (fun e => is_generate e = false /\ is_analyze e = false) new) /\
  (forall w1, breaker_check env w = (Returned false, w1) ->
     out = (Returned (mkResult false (id r) (Some "Circuit breaker open") true None),
            w1)) /\
  (forall w1 w2,
     Display.room_for_one (progressTracker w) ->
     breaker_check env w = (Returned true, w1) ->
     (if enableVideo cfg then generateVideos env r images vpt w1
      else (Returned tt, w1)) = (Returned tt, w2) ->
     snd (Display.increment (clock_increment env) true (progressTracker w)) = true /\
     fst out = Returned (mkResult true (id r) None false (Some (len (img :: rest)))) /\
     trace (snd out) = trace w2 /\
     airtable (snd out) = airtable w2 /\
     (enableVideo cfg = false ->
        trace (snd out) = trace w /\ airtable (snd out) = airtable w) /\
     circuitBreaker (snd out)
       = option_map SimpleCircuitBreaker.recordSuccess (circuitBreaker w1) /\
     (forall b, circuitBreaker w = Some b -> SimpleCircuitBreaker.wf b ->
        circuitBreaker (snd out)
        = Some (SimpleCircuitBreaker.mk 0 (SimpleCircuitBreaker.lastFailure b)
                  (SimpleCircuitBreaker.threshold b)
                  (SimpleCircuitBreaker.cooldownMs b)
                  (SimpleCircuitBreaker.totalBreaks b))) /\
     ProgressTracker.successCount (progressTracker (snd out))
       = ProgressTracker.successCount (progressTracker w) + 1).
Proof.
  intros env r base cfg w img rest Hex out images vpt.
  split; [apply (adds_processPrompt_existing env r base cfg img rest Hex)|].
  split.
  { intros w1 Hgate. unfold out, processPrompt, bind. rewrite Hgate.
    reflexivity. }
  intros w1 w2 Hroom Hgate Hvid.
  destruct (breaker_check_frame env w true w1 Hgate) as (Ft & Fa & Ftr & _).
  assert (S2 : circuitBreaker w2 = circuitBreaker w1 /\
               progressTracker w2 = progressTracker w1).
  { destruct (enableVideo cfg).
    - pose proof (steady_generateVideos env r images vpt w1) as S.
      rewrite Hvid in S. exact S.
    - inversion Hvid; subst. auto. }
  destruct S2 as [Sb St].
  assert (R2 : Display.room_for_one (progressTracker w2)) by (rewrite St, Ft; exact Hroom).
  assert (Hout : out =
    (Returned (mkResult true (id r) None false (Some (len (img :: rest)))),
     mkWorld (option_map SimpleCircuitBreaker.recordSuccess (circuitBreaker w2))
             (geminiLimiter w2)
             (ProgressTracker.increment (clock_increment env) true
                                        (progressTracker w2))
             (airtable w2) (trace w2))).
  { unfold out, processPrompt, bind. rewrite Hgate.
    unfold try_catch, pipeline, bind. rewrite Hex. cbn [ret fst snd].
    fold images. fold vpt.
    assert (Hv : (if enableVideo cfg then generateVideos env r images vpt
                  else ret tt) w1 = (Returned tt, w2)).
    { destruct (enableVideo cfg); exact Hvid. }
    rewrite Hv, (progress_increment_room env true w2 R2).
    cbn [breaker_recordSuccess ret fst snd
         circuitBreaker geminiLimiter progressTracker airtable trace].
    unfold images, len. rewrite length_map. reflexivity. }
  split; [apply DisplayFacts.increment_within_total, Hroom|].
  rewrite Hout. cbn [fst snd trace airtable circuitBreaker progressTracker].
  split; [reflexivity|]. split; [reflexivity|]. split; [reflexivity|].
  split.
  { intro Hv. rewrite Hv in Hvid. inversion Hvid; subst. auto. }
  split; [rewrite Sb; reflexivity|].
  split.
  { intros b Hb Hwf. rewrite Sb.
    unfold breaker_check in Hgate. rewrite Hb in Hgate.
    destruct (SimpleCircuitBreaker.canProceed (clock_canProceed env) b)
      as [go b'] eqn:E.
    inversion Hgate; subst. cbn [circuitBreaker option_map].
    pose proof (recordSuccess_after_canProceed (clock_canProceed env) b Hwf) as RS.
    rewrite E in RS. cbn [fst snd] in RS. rewrite (RS eq_refl). reflexivity. }
  pose proof (increment_counts (clock_increment env) true (progressTracker w2))
    as (_ & Is & _).
  rewrite Is, St, Ft. reflexivity.
Qed.

Lemma existing_images_skip_generation_witness :
  let env := Scenario.env_status 200 "ok" in
  let out := processPrompt env Scenario.done_job Scenario.base_refs
                           Scenario.images_only Scenario.world_two_failures in
  let shown := processPrompt env Scenario.done_job Scenario.base_refs
                             Fixture.with_video Scenario.world_two_failures in
  Generated_Images (fields Scenario.done_job)
    = Some [mkAttachment "https://cdn/1.png"] /\
  Display.room_for_one (progressTracker Scenario.world_two_failures) /\
  SimpleCircuitBreaker.wf (SimpleCircuitBreaker.mk 2 (Some 50) 5 60000 0) /\
  fst out = Returned (mkResult true "rec1" None false (Some 1)) /\
  trace (snd out) = [] /\
  circuitBreaker (snd out)
    = Some (SimpleCircuitBreaker.mk 0 (Some 50) 5 60000 0) /\
  enableVideo Fixture.with_video = true /\
  fst shown = Returned (mkResult true "rec1" None false (Some 1)) /\
  circuitBreaker (snd shown)
    = Some (SimpleCircuitBreaker.mk 0 (Some 50) 5 60000 0).
Proof.
  cbv zeta.
  assert (Hwf : SimpleCircuitBreaker.wf (SimpleCircuitBreaker.mk 2 (Some 50) 5 60000 0))
    by (vm_compute; discriminate).
  assert (R : Display.room_for_one (progressTracker Scenario.world_two_failures))
    by (split; cbn; lia).
  destruct (existing_images_skip_generation
              (Scenario.env_status 200 "ok") Scenario.done_job Scenario.base_refs
              Scenario.images_only Scenario.world_two_failures
              (mkAttachment "https://cdn/1.png") [] eq_refl)
    as (_ & _ & H3).
  destruct (H3 _ _ R eq_refl eq_refl) as (_ & R1 & _ & _ & R4 & _ & R6 & _).
  destruct (existing_images_skip_generation
              (Scenario.env_status 200 "ok") Scenario.done_job Scenario.base_refs
              Fixture.with_video Scenario.world_two_failures
              (mkAttachment "https://cdn/1.png") [] eq_refl)
    as (_ & _ & V3).
  destruct (V3 _ _ R eq_refl eq_refl) as (_ & V1 & _ & _ & _ & _ & V6 & _).
  split; [reflexivity|]. split; [exact R|]. split; [exact Hwf|].
  split; [exact R1|].
  split; [exact (proj1 (R4 eq_refl))|].
  split; [exact (R6 _ eq_refl Hwf)|].
  split; [reflexivity|]. split; [exact V1|].
  exact (V6 _ eq_refl Hwf).
Defined.

(** A job with existing images, processed after two hard failures: it
    succeeds without any request, and the breaker's counter goes from 2
    to 0.  With video generation on, the same job sends one video
    request.  And processed at the start of a second batch, when the
    tally carried over has passed the new total, the same job does not
    report success: [processPrompt] throws. *)
Lemma existing_images_reset_breaker :
  let env := Scenario.env_status 200 "ok" in
  let out := processPrompt env Scenario.done_job Scenario.base_refs
                           Scenario.images_only Scenario.world_two_failures in
  let shown := processPrompt env Scenario.done_job Scenario.base_refs
                             Fixture.with_video Scenario.world_two_failures in
  let late := processPrompt env Scenario.done_job Scenario.base_refs
                            Scenario.images_only Fixture.world_second_batch in
  hasExistingImages Scenario.done_job = true /\
  fst out = Returned (mkResult true "rec1" None false (Some 1)) /\
  trace (snd out) = [] /\
  circuitBreaker Scenario.world_two_failures
    = Some (SimpleCircuitBreaker.mk 2 (Some 50) 5 60000 0) /\
  circuitBreaker (snd out)
    = Some (SimpleCircuitBreaker.mk 0 (Some 50) 5 60000 0) /\
  circuitBreaker (snd out) <> circuitBreaker Scenario.world_two_failures /\
  Fixture.video_attempts_of (trace (snd shown)) = [1] /\
  match fst late with Returned _ => False | Thrown _ => True end.
Proof. vm_compute. repeat split. discriminate. Qed.

End PipelineFacts.

(* ---------------------------------------------------------------------- *)
(** ** The breaker over a run of failures *)

Module CircuitBreakerRuns.
Import SimpleCircuitBreaker.

Lemma recordFailures_snoc nows now b :
  recordFailures (nows ++ [now]) b = recordFailure now (recordFailures nows b).
Proof. unfold recordFailures. rewrite fold_left_app. reflexivity. Qed.

Lemma recordFailures_static nows : forall b,
  threshold (recordFailures nows b) = threshold b /\
  cooldownMs (recordFailures nows b) = cooldownMs b.
Proof.
  induction nows as [|now nows IH]; intro b; [split; reflexivity|].
  change (recordFailures (now :: nows) b)
    with (recordFailures nows (recordFailure now b)).
  destruct (IH (recordFailure now b)) as [H1 H2].
  destruct (CircuitBreakerFacts.recordFailure_static now b) as [S1 S2].
  split; congruence.
Qed.

Lemma recordFailures_stamp nows : forall b,
  nows <> [] -> lastFailure (recordFailures nows b) = Some (last nows 0).
Proof.
  induction nows as [|now nows IH] using rev_ind; intros b H; [congruence|].
  rewrite recordFailures_snoc, last_last.
  apply CircuitBreakerFacts.recordFailure_stamp.
Qed.

(** A breaker built with threshold [T >= 1] stays closed while fewer than
    [T] failures have been recorded in a row; after exactly [T] it turns
    every job away as long as at most [cooldownMs] have passed since the
    last of them, and the first check after that lets the job through and
    starts counting from zero again. *)
Theorem breaker_trips_then_heals :
  forall (T cd : Z) (nows : list Z) (now : Z),
  1 <= T -> len nows = T ->
  let b := recordFailures nows (new T cd) in
  (forall pre, len pre < T ->
     canProceed now (recordFailures pre (new T cd))
     = (true, recordFailures pre (new T cd))) /\
  (now - last nows 0 <= cd -> canProceed now b = (false, b)) /\
  (cd < now - last nows 0 ->
     canProceed now b = (true, set_failures 0 b) /\
     forall later, canProceed later (set_failures 0 b) = (true, set_failures 0 b)).
Proof.
  intros T cd nows now HT Hlen b.
  assert (Hne : nows <> []).
  { intro E; subst nows. unfold len in Hlen; simpl in Hlen. lia. }
  assert (Hf : failures b = T).
  { unfold b. rewrite CircuitBreakerFacts.recordFailures_failures. simpl. lia. }
  destruct (recordFailures_static nows (new T cd)) as [Ht Hc].
  fold b in Ht, Hc. simpl in Ht, Hc.
  assert (Hs : forall t, timeSinceFailure t b = t - last nows 0).
  { intro t. unfold timeSinceFailure, b.
    rewrite (recordFailures_stamp nows _ Hne). reflexivity. }
  split; [|split].
  - intros pre Hpre. apply CircuitBreakerFacts.canProceed_closed.
    rewrite CircuitBreakerFacts.recordFailures_failures.
    destruct (recordFailures_static pre (new T cd)) as [Ht' _].
    rewrite Ht'. simpl. lia.
  - intro H. apply CircuitBreakerFacts.canProceed_open; rewrite ?Hs; lia.
  - intro H. split.
    + apply CircuitBreakerFacts.canProceed_heals; rewrite ?Hs; lia.
    + intro later. apply CircuitBreakerFacts.canProceed_closed. simpl. lia.
Qed.

Lemma breaker_trips_then_heals_witness :
  1 <= 5 /\ len [10; 20; 30; 40; 50] = 5 /\
  canProceed 60050 (recordFailures [10; 20; 30; 40; 50] (new 5 60000))
  = (false, recordFailures [10; 20; 30; 40; 50] (new 5 60000)) /\
  fst (canProceed 60051 (recordFailures [10; 20; 30; 40; 50] (new 5 60000)))
  = true.
Proof.
  assert (H1 : 1 <= 5) by discriminate.
  assert (H2 : len [10; 20; 30; 40; 50] = 5) by reflexivity.
  split; [exact H1|]. split; [exact H2|].
  destruct (breaker_trips_then_heals 5 60000 [10; 20; 30; 40; 50] 60050 H1 H2)
    as (_ & Hopen & _).
  destruct (breaker_trips_then_heals 5 60000 [10; 20; 30; 40; 50] 60051 H1 H2)
    as (_ & _ & Hheal).
  split.
  - apply Hopen. vm_compute. discriminate.
  - destruct Hheal as [Hh _]; [vm_compute; reflexivity|].
    rewrite Hh. reflexivity.
Defined.

End CircuitBreakerRuns.

(* ---------------------------------------------------------------------- *)
(** ** The upload limiter over a run of recordings *)

Module UploadLimiterRuns.
Import UploadLimiter Sequences.

(** The adaptive timeout is never below the base timeout and never above
    the larger of the base timeout and 60000 ms; until three samples
    exist it is the base timeout. *)
Theorem getAdaptiveTimeout_bounds : forall (u : t),
  (baseTimeout u <= getAdaptiveTimeout u)%Q /\
  (getAdaptiveTimeout u <= Qmax (baseTimeout u) 60000)%Q /\
  (len (recentUploadTimes u) < 3 -> getAdaptiveTimeout u = baseTimeout u).
Proof.
  intro u. unfold getAdaptiveTimeout.
  destruct (Z.ltb_spec (len (recentUploadTimes u)) 3) as [Hlt|Hge].
  - split; [apply Qle_refl|]. split; [apply Q.le_max_l | reflexivity].
  - split; [apply Q.le_max_l|]. split; [|lia].
    apply Q.max_le_compat_l. apply Q.le_min_r.
Qed.

Lemma getAdaptiveTimeout_bounds_witness :
  len (recentUploadTimes (new 3 10000 2)) < 3 /\
  getAdaptiveTimeout (new 3 10000 2) = 10000%Q.
Proof.
  assert (H : len (recentUploadTimes (new 3 10000 2)) < 3) by reflexivity.
  split; [exact H|].
  exact (proj2 (proj2 (getAdaptiveTimeout_bounds (new 3 10000 2))) H).
Defined.

Lemma record_all_snoc samples d u :
  record_all (samples ++ [d]) u = recordUploadTime d (record_all samples u).
Proof. unfold record_all. rewrite fold_left_app. reflexivity. Qed.

Lemma slice_last_short {A} k (l : list A) :
  (List.length l <= k)%nat -> slice_last k l = l.
Proof.
  intro H. unfold slice_last.
  replace (List.length l - k)%nat with 0%nat by lia. reflexivity.
Qed.

Lemma slice_last_length {A} k (l : list A) :
  List.length (slice_last k l) = Nat.min k (List.length l).
Proof. unfold slice_last. rewrite length_skipn. lia. Qed.

Lemma tl_skipn {A} n (l : list A) : tl (skipn n l) = skipn (S n) l.
Proof.
  revert l. induction n as [|n IH]; intros [|x l]; try reflexivity.
  simpl. apply IH.
Qed.

(** Appending one element to the last ten: drop the oldest when that makes
    eleven. *)
Lemma slice_last_push (xs : list Q) (d : Q) :
  slice_last 10 (xs ++ [d]) =
  (if 10 <? len (slice_last 10 xs ++ [d])
   then tl (slice_last 10 xs ++ [d])
   else slice_last 10 xs ++ [d]).
Proof.
  unfold len. rewrite length_app, slice_last_length. cbn [List.length].
  destruct (Nat.le_gt_cases 10 (List.length xs)) as [Hge|Hlt].
  - rewrite Nat.min_l by lia.
    destruct (Z.ltb_spec 10 (Z.of_nat (10 + 1))); [|lia].
    unfold slice_last. rewrite length_app. cbn [List.length].
    rewrite skipn_app.
    replace (List.length xs + 1 - 10 - List.length xs)%nat with 0%nat by lia.
    cbn [skipn].
    replace (List.length xs + 1 - 10)%nat with (S (List.length xs - 10)) by lia.
    rewrite <- tl_skipn.
    destruct (skipn (List.length xs - 10) xs) as [|y ys] eqn:E; [|reflexivity].
    exfalso. apply (f_equal (@List.length Q)) in E.
    rewrite length_skipn in E. cbn in E. lia.
  - rewrite Nat.min_r by lia.
    destruct (Z.ltb_spec 10 (Z.of_nat (List.length xs + 1))); [lia|].
    rewrite (slice_last_short 10 xs) by lia.
    apply slice_last_short. rewrite length_app. cbn. lia.
Qed.

(** Starting from a new limiter, the history holds exactly the last ten
    samples recorded, oldest first, and so never more than ten. *)
Theorem history_keeps_last_ten :
  forall (samples : list Q) (maxUpload : Z) (baseTimeoutMs : Q) (fallback : Z),
  let u := record_all samples (new maxUpload baseTimeoutMs fallback) in
  recentUploadTimes u = slice_last 10 samples /\
  len (recentUploadTimes u) <= 10.
Proof.
  intros samples m b f u.
  assert (H : recentUploadTimes u = slice_last 10 samples).
  { unfold u. induction samples as [|d samples IH] using rev_ind; [reflexivity|].
    rewrite record_all_snoc, UploadLimiterFacts.recordUploadTime_history.
    unfold pushed_history. rewrite IH. symmetry. apply slice_last_push. }
  split; [exact H|].
  rewrite H. unfold len. rewrite slice_last_length. lia.
Qed.

(** Starting from a new limiter, slow mode and the limit move together:
    the fallback concurrency is never changed; while slow mode is on the
    limit is the fallback concurrency; while it is off the limit is the
    constructor's or, once slow mode has been left, the fallback plus
    one. *)
Theorem slow_mode_limit_coupled :
  forall (samples : list Q) (maxUpload : Z) (baseTimeoutMs : Q) (fallback : Z),
  let u := record_all samples (new maxUpload baseTimeoutMs fallback) in
  fallbackConcurrency u = fallback /\
  baseTimeout u = baseTimeoutMs /\
  (slowConnectionDetected u = true -> max u = fallback) /\
  (slowConnectionDetected u = false ->
     max u = maxUpload \/ max u = fallback + 1).
Proof.
  intros samples m b f u. unfold u.
  induction samples as [|d samples IH] using rev_ind.
  - simpl. repeat split; auto. discriminate.
  - rewrite record_all_snoc.
    set (v := record_all samples (new m b f)) in *.
    destruct IH as (Hf & Hb & Hs & Hn).
    destruct (UploadLimiterFacts.recordUploadTime_frame d v)
      as (_ & _ & _ & F1 & F2).
    pose proof (UploadLimiterFacts.recordUploadTime_mode d v) as M.
    cbv zeta in M.
    split; [congruence|]. split; [congruence|].
    destruct (3 <=? len (pushed_history d v)).
    + destruct (Qlt_bool 20000 (avgLast3 (pushed_history d v))
                && negb (slowConnectionDetected v)).
      * injection M as M1 M2. rewrite M1, M2, Hf. split; [auto | discriminate].
      * destruct (Qlt_bool (avgLast3 (pushed_history d v)) 15000
                  && slowConnectionDetected v).
        -- injection M as M1 M2. rewrite M1, M2, Hf.
           split; [discriminate | auto].
        -- injection M as M1 M2. rewrite M1, M2. auto.
    + injection M as M1 M2. rewrite M1, M2. auto.
Qed.

Lemma slow_mode_limit_coupled_witness :
  slowConnectionDetected
    (record_all [25000; 25000; 25000]%Q (new 3 10000 2)) = true /\
  max (record_all [25000; 25000; 25000]%Q (new 3 10000 2)) = 2.
Proof.
  split; [reflexivity|].
  destruct (slow_mode_limit_coupled [25000; 25000; 25000]%Q 3 10000 2)
    as (_ & _ & H & _).
  exact (H eq_refl).
Defined.

End UploadLimiterRuns.

(* ---------------------------------------------------------------------- *)
(** ** The rate limiter over a run of calls *)

Module RateLimiterRuns.
Import RateLimiter Sequences.

(** Calls made at the very instant of the last refill stamp add nothing. *)
Lemma refilled_same_instant r :
  (tokens r <= rpm r)%Q -> (refilled (lastRefill r) r == tokens r)%Q.
Proof.
  intro H. unfold refilled, tokensToAdd, elapsed. rewrite Z.sub_diag.
  assert (E : (tokens r + inject_Z 0 / 60000 * rpm r == tokens r)%Q)
    by (change (inject_Z 0) with 0%Q; field).
  rewrite E. apply Q.min_r. exact H.
Qed.

(** With [j] whole tokens in the bucket, [j] calls at the instant of the
    refill stamp all return at once and empty the bucket. *)
Lemma drain (j : nat) : forall r,
  (tokens r == inject_Z (Z.of_nat j))%Q -> (tokens r <= rpm r)%Q ->
  fst (acquire_seq (repeat (lastRefill r) j) r) = repeat None j /\
  (tokens (snd (acquire_seq (repeat (lastRefill r) j) r)) == 0)%Q /\
  rpm (snd (acquire_seq (repeat (lastRefill r) j) r)) = rpm r /\
  lastRefill (snd (acquire_seq (repeat (lastRefill r) j) r)) = lastRefill r.
Proof.
  induction j as [|j IH]; intros r Ht Hle.
  - cbn [repeat acquire_seq fst snd]. repeat split. exact Ht.
  - cbn [repeat acquire_seq].
    pose proof (refilled_same_instant r Hle) as Hr.
    assert (H1 : (1 <= refilled (lastRefill r) r)%Q).
    { rewrite Hr, Ht. change 1%Q with (inject_Z 1). rewrite <- Zle_Qle. lia. }
    apply Qle_bool_iff in H1.
    unfold acquire, acquire_enter. rewrite H1.
    set (r1 := mk (rpm r) (refilled (lastRefill r) r - 1)
                  (advanced (lastRefill r) r) (totalRequests r + 1)
                  (totalWaitTime r)).
    assert (Hl : lastRefill r1 = lastRefill r).
    { unfold r1, advanced, elapsed; cbn [lastRefill]. rewrite Z.sub_diag.
      reflexivity. }
    assert (Ht1 : (tokens r1 == inject_Z (Z.of_nat j))%Q).
    { unfold r1; cbn [tokens]. rewrite Hr, Ht.
      rewrite Nat2Z.inj_succ. unfold Z.succ. rewrite inject_Z_plus.
      change (inject_Z 1) with 1%Q. ring. }
    assert (Hle1 : (tokens r1 <= rpm r1)%Q).
    { rewrite Ht1. unfold r1; cbn [rpm].
      apply Qle_trans with (y := tokens r); [|exact Hle].
      rewrite Ht. rewrite <- Zle_Qle. lia. }
    specialize (IH r1 Ht1 Hle1). rewrite Hl in IH.
    destruct (acquire_seq (repeat (lastRefill r) j) r1) as [ws r2].
    cbn [fst snd] in *. destruct IH as (I1 & I2 & I3 & I4).
    split; [rewrite I1; reflexivity|]. split; [exact I2|].
    split; [rewrite I3; reflexivity | exact I4].
Qed.

(** A limiter built for [C >= 1] requests per minute serves [C] calls made
    at the instant of its construction without any wait, and makes the
    next call at that instant wait exactly [60000 / C] ms. *)
Theorem burst_then_wait : forall (C : nat) (t0 : Z),
  (1 <= C)%nat ->
  let r0 := new (inject_Z (Z.of_nat C)) t0 in
  fst (acquire_seq (repeat t0 C) r0) = repeat None C /\
  exists w,
    snd (acquire t0 (snd (acquire_seq (repeat t0 C) r0))) = Some w /\
    (w == 60000 / inject_Z (Z.of_nat C))%Q.
Proof.
  intros C t0 HC r0.
  destruct (drain C r0) as (D1 & D2 & D3 & D4);
    [reflexivity | apply Qle_refl |].
  change (lastRefill r0) with t0 in *. change (rpm r0) with (inject_Z (Z.of_nat C)) in D3.
  split; [exact D1|].
  set (r := snd (acquire_seq (repeat t0 C) r0)) in *.
  assert (Hle : (tokens r <= rpm r)%Q).
  { rewrite D2, D3. change 0%Q with (inject_Z 0). rewrite <- Zle_Qle. lia. }
  pose proof (refilled_same_instant r Hle) as Hr. rewrite D4 in Hr.
  assert (Hno : Qle_bool 1 (refilled t0 r) = false).
  { destruct (Qle_bool 1 (refilled t0 r)) eqn:E; [|reflexivity].
    apply Qle_bool_iff in E. rewrite Hr, D2 in E.
    exfalso. apply E. reflexivity. }
  unfold acquire, acquire_enter. rewrite Hno. cbn [snd].
  eexists. split; [reflexivity|].
  rewrite Hr, D2, D3. field.
  change 0%Q with (inject_Z 0). rewrite inject_Z_injective. lia.
Qed.

Lemma burst_then_wait_witness :
  (1 <= 10)%nat /\
  fst (acquire_seq (repeat 0 10) (new (inject_Z (Z.of_nat 10)) 0)) = repeat None 10.
Proof.
  assert (H : (1 <= 10)%nat) by (repeat constructor).
  split; [exact H|].
  exact (proj1 (burst_then_wait 10 0 H)).
Defined.

End RateLimiterRuns.

(* ---------------------------------------------------------------------- *)
(** ** Counters of the concurrency limiter and of the progress tracker *)

Module CounterFacts.
Import Sequences.

Lemma accounted_take_or_park i micro s :
  accounted s -> accounted (ConcurrencyLimiter.take_or_park i micro s).
Proof.
  unfold accounted, ConcurrencyLimiter.take_or_park, ConcurrencyLimiter.enter.
  intros [H1 H2].
  destruct (ConcurrencyLimiter.max _ <=? ConcurrencyLimiter.running _);
    cbn [ConcurrencyLimiter.limiter ConcurrencyLimiter.totalExecuted
         ConcurrencyLimiter.finished ConcurrencyLimiter.started
         ConcurrencyLimiter.executing].
  - auto.
  - rewrite !ConcurrencyLimiterFacts.len_snoc. split; [exact H1 | lia].
Qed.

Lemma fulfilled_snoc fin i ok :
  fulfilled (fin ++ [(i, ok)]) = fulfilled fin + (if ok then 1 else 0).
Proof.
  unfold fulfilled. rewrite filter_app. cbn [filter snd].
  destruct ok.
  - apply ConcurrencyLimiterFacts.len_snoc.
  - rewrite app_nil_r. lia.
Qed.

Lemma accounted_step ev s s' :
  accounted s -> ConcurrencyLimiter.step ev s = Some s' -> accounted s'.
Proof.
  intros A H. destruct ev as [i|i ok|]; cbn [ConcurrencyLimiter.step] in H.
  - inversion H; subst. apply accounted_take_or_park, A.
  - destruct (existsb (Nat.eqb i) (ConcurrencyLimiter.executing s)) eqn:E;
      [|discriminate].
    inversion H; subst; clear H. destruct A as [A1 A2].
    destruct (ConcurrencyLimiterFacts.remove_first_spec i _ E) as [_ Hl].
    unfold accounted.
    cbn [ConcurrencyLimiter.limiter ConcurrencyLimiter.totalExecuted
         ConcurrencyLimiter.finished ConcurrencyLimiter.started
         ConcurrencyLimiter.executing].
    rewrite fulfilled_snoc, ConcurrencyLimiterFacts.len_snoc, Hl.
    split; [destruct ok; lia | lia].
  - destruct (ConcurrencyLimiter.microtasks s) as [|j rest]; [discriminate|].
    inversion H; subst. apply accounted_take_or_park, A.
Qed.

(** Under every interleaving of calls, settlements and resumptions,
    [totalExecuted] is the number of tasks that fulfilled (a task that
    throws is not counted), and every task that took a slot is either still
    executing or has settled. *)
Theorem totalExecuted_counts_fulfilled :
  forall (L : Z) (evs : list ConcurrencyLimiter.Event) (s : ConcurrencyLimiter.Sched),
  ConcurrencyLimiter.run evs (ConcurrencyLimiter.init L) = Some s ->
  ConcurrencyLimiter.totalExecuted (ConcurrencyLimiter.limiter s)
    = fulfilled (ConcurrencyLimiter.finished s) /\
  len (ConcurrencyLimiter.started s)
    = len (ConcurrencyLimiter.executing s) + len (ConcurrencyLimiter.finished s).
Proof.
  intros L evs.
  assert (G : forall s0 s, accounted s0 ->
            ConcurrencyLimiter.run evs s0 = Some s -> accounted s).
  { induction evs as [|ev evs IH]; intros s0 s A H;
      cbn [ConcurrencyLimiter.run] in H.
    - inversion H; subst; exact A.
    - destruct (ConcurrencyLimiter.step ev s0) as [s1|] eqn:E; [|discriminate].
      apply (IH s1 s); [eapply accounted_step; eassumption | exact H]. }
  intros s H. apply (G (ConcurrencyLimiter.init L) s); [|exact H].
  split; reflexivity.
Qed.

Lemma totalExecuted_counts_fulfilled_witness :
  exists s,
    ConcurrencyLimiter.run
      [ConcurrencyLimiter.Call 0; ConcurrencyLimiter.Call 1;
       ConcurrencyLimiter.Settle 0 false; ConcurrencyLimiter.Settle 1 true]
      (ConcurrencyLimiter.init 2) = Some s /\
    ConcurrencyLimiter.totalExecuted (ConcurrencyLimiter.limiter s) = 1.
Proof.
  eexists. split; [vm_compute; reflexivity|].
  refine (proj1 (totalExecuted_counts_fulfilled 2
            [ConcurrencyLimiter.Call 0; ConcurrencyLimiter.Call 1;
             ConcurrencyLimiter.Settle 0 false; ConcurrencyLimiter.Settle 1 true]
            _ _)).
  vm_compute. reflexivity.
Defined.

Lemma increments_snoc calls c p :
  increments (calls ++ [c]) p
  = ProgressTracker.increment (fst c) (snd c) (increments calls p).
Proof. unfold increments. rewrite fold_left_app. reflexivity. Qed.

Lemma maybeShowProgress_total now p :
  ProgressTracker.totalPrompts (ProgressTracker.maybeShowProgress now p)
  = ProgressTracker.totalPrompts p.
Proof.
  unfold ProgressTracker.maybeShowProgress.
  destruct (_ && _); reflexivity.
Qed.

(** Whatever the outcomes and the clock readings, a run of [increment]
    calls raises [processedPrompts] by the number of calls, shares that
    number between [successCount] and [failCount], and leaves
    [totalPrompts] alone; so [processedPrompts = successCount + failCount]
    is kept once it holds. *)
Theorem increments_tally : forall (calls : list (Z * bool)) (p : ProgressTracker.t),
  let q := increments calls p in
  ProgressTracker.processedPrompts q
    = ProgressTracker.processedPrompts p + len calls /\
  ProgressTracker.successCount q
    = ProgressTracker.successCount p + len (filter snd calls) /\
  ProgressTracker.failCount q
    = ProgressTracker.failCount p + len (filter (fun c => negb (snd c)) calls) /\
  ProgressTracker.totalPrompts q = ProgressTracker.totalPrompts p /\
  (ProgressTracker.processedPrompts p
     = ProgressTracker.successCount p + ProgressTracker.failCount p ->
   ProgressTracker.processedPrompts q
     = ProgressTracker.successCount q + ProgressTracker.failCount q).
Proof.
  intros calls p q.
  assert (H : ProgressTracker.processedPrompts q
                = ProgressTracker.processedPrompts p + len calls /\
              ProgressTracker.successCount q
                = ProgressTracker.successCount p + len (filter snd calls) /\
              ProgressTracker.failCount q
                = ProgressTracker.failCount p
                  + len (filter (fun c => negb (snd c)) calls) /\
              ProgressTracker.totalPrompts q = ProgressTracker.totalPrompts p /\
              len calls = len (filter snd calls)
                          + len (filter (fun c => negb (snd c)) calls)).
  { unfold q. induction calls as [|[now ok] calls IH] using rev_ind.
    - cbn. repeat split; lia.
    - rewrite increments_snoc. cbn [fst snd].
      destruct IH as (I1 & I2 & I3 & I4 & I5).
      destruct (PipelineFacts.increment_counts now ok (increments calls p))
        as (C1 & C2 & C3).
      rewrite !filter_app, !ConcurrencyLimiterFacts.len_snoc.
      cbn [filter snd negb].
      split; [lia|].
      assert (T : ProgressTracker.totalPrompts
                    (ProgressTracker.increment now ok (increments calls p))
                  = ProgressTracker.totalPrompts p).
      { unfold ProgressTracker.increment. rewrite maybeShowProgress_total.
        destruct ok; exact I4. }
      destruct ok; cbn [negb];
        rewrite ?ConcurrencyLimiterFacts.len_snoc, ?app_nil_r;
        repeat split; try lia; exact T. }
  destruct H as (H1 & H2 & H3 & H4 & H5).
  repeat split; try assumption. lia.
Qed.

Lemma increments_tally_witness :
  ProgressTracker.processedPrompts (ProgressTracker.mk 3 0 0 0 0)
    = ProgressTracker.successCount (ProgressTracker.mk 3 0 0 0 0)
      + ProgressTracker.failCount (ProgressTracker.mk 3 0 0 0 0) /\
  ProgressTracker.processedPrompts
    (increments [(100, true); (200, false); (2500, true)]
                (ProgressTracker.mk 3 0 0 0 0))
  = ProgressTracker.successCount
      (increments [(100, true); (200, false); (2500, true)]
                  (ProgressTracker.mk 3 0 0 0 0))
    + ProgressTracker.failCount
        (increments [(100, true); (200, false); (2500, true)]
                    (ProgressTracker.mk 3 0 0 0 0)).
Proof.
  assert (H : ProgressTracker.processedPrompts (ProgressTracker.mk 3 0 0 0 0)
              = ProgressTracker.successCount (ProgressTracker.mk 3 0 0 0 0)
                + ProgressTracker.failCount (ProgressTracker.mk 3 0 0 0 0))
    by reflexivity.
  split; [exact H|].
  destruct (increments_tally [(100, true); (200, false); (2500, true)]
                             (ProgressTracker.mk 3 0 0 0 0))
    as (_ & _ & _ & _ & K).
  exact (K H).
Defined.

End CounterFacts.

(* ---------------------------------------------------------------------- *)
(** ** More on the per-job pipeline *)

Module PipelineMore.
Import Js Pipeline Fixture.
Local Open Scope string_scope.
Local Open Scope list_scope.
Local Open Scope Z_scope.

Local Infix "+++" := String.append (at level 60, right associativity).

(** *** The breaker check *)

(** While the breaker is open a job is turned away before anything else:
    the result says so and carries [skipErrorSave], no request is made,
    nothing is written, and neither the breaker nor the tally (not even
    [processedPrompts]) moves. *)
Theorem breaker_open_defers :
  forall (env : Env) (r : PromptRecord) (base : list string) (cfg : GenConfig)
         (w : World) (b : SimpleCircuitBreaker.t),
  circuitBreaker w = Some b ->
  fst (SimpleCircuitBreaker.canProceed (clock_canProceed env) b) = false ->
  let out := processPrompt env r base cfg w in
  fst out = Returned (mkResult false (id r) (Some "Circuit breaker open") true None) /\
  circuitBreaker (snd out) = Some b /\
  progressTracker (snd out) = progressTracker w /\
  airtable (snd out) = airtable w /\
  trace (snd out) = trace w /\
  geminiLimiter (snd out) = geminiLimiter w.
Proof.
  intros env r base cfg w b Hb Hgo out.
  assert (Hsame : snd (SimpleCircuitBreaker.canProceed (clock_canProceed env) b) = b).
  { revert Hgo. unfold SimpleCircuitBreaker.canProceed.
    destruct (_ <? _); [discriminate|].
    destruct (_ <? _); [discriminate | reflexivity]. }
  unfold out, processPrompt, bind, breaker_check. rewrite Hb.
  destruct (SimpleCircuitBreaker.canProceed (clock_canProceed env) b)
    as [go b'] eqn:E.
  cbn [fst snd] in Hgo, Hsame. subst go b'. cbn.
  repeat split; reflexivity.
Qed.

Lemma breaker_open_defers_witness :
  circuitBreaker world_tripped = Some (SimpleCircuitBreaker.mk 5 (Some 50) 5 60000 1) /\
  fst (SimpleCircuitBreaker.canProceed
         (clock_canProceed (Scenario.env_status 200 "ok"))
         (SimpleCircuitBreaker.mk 5 (Some 50) 5 60000 1)) = false /\
  progressTracker (snd (processPrompt (Scenario.env_status 200 "ok")
                          Scenario.fresh_job Scenario.base_refs
                          Scenario.images_only world_tripped))
  = progressTracker world_tripped.
Proof.
  split; [reflexivity|]. split; [reflexivity|].
  destruct (breaker_open_defers (Scenario.env_status 200 "ok")
              Scenario.fresh_job Scenario.base_refs Scenario.images_only
              world_tripped _ eq_refl eq_refl) as (_ & _ & H & _).
  exact H.
Defined.

(** *** Writing to the table *)

(** [updateAirtableRecord] sends exactly one PATCH per call, whatever
    the answer, and touches neither the breaker nor the tally.  It
    returns only when the fetch resolved with a 2xx status and the body
    parsed.  When the fetch rejects it throws that error; on any other
    status it throws "Airtable update failed: " followed by the status,
    " - " and the first 100 characters of the body. *)
Theorem updateAirtableRecord_effect :
  forall (env : Env) (site : PatchSite) (rid : string) (us : list FieldUpdate)
         (w : World),
  let out := updateAirtableRecord env site rid us w in
  trace (snd out) = trace w ++ [Patch rid us] /\
  circuitBreaker (snd out) = circuitBreaker w /\
  progressTracker (snd out) = progressTracker w /\
  (fst out = Returned tt <->
   exists resp, fetch_patch env site = Resolved resp /\
                200 <= status resp <= 299 /\ json resp = inr tt) /\
  (forall e, fetch_patch env site = Rejected e -> fst out = Thrown e) /\
  (forall resp body,
     fetch_patch env site = Resolved resp ->
     status resp < 200 \/ 299 < status resp ->
     text resp = inr body ->
     fst out = Thrown (mkError ("Airtable update failed: "
                                +++ String_of (status resp) +++ " - "
                                +++ substring 0 100 body))).
Proof.
  intros env site rid us w out. unfold out, updateAirtableRecord, bind, emit.
  assert (Hok : forall resp : Response unit,
            ok resp = true <-> 200 <= status resp <= 299).
  { intro resp. unfold ok. rewrite andb_true_iff, !Z.leb_le. reflexivity. }
  destruct (fetch_patch env site) as [e|resp].
  - cbn. repeat split; try reflexivity.
    + discriminate.
    + intros (resp & H & _). discriminate.
    + intros e0 H. inversion H. reflexivity.
    + intros resp body H. discriminate.
  - destruct (ok resp) eqn:E; cbn [negb].
    + apply Hok in E. unfold set_airtable.
      destruct (json resp) as [e|[]] eqn:J; cbn;
        repeat split; try reflexivity; try discriminate.
      * intros (resp0 & H & _ & J0). inversion H; subst. congruence.
      * intros resp0 body H [Hs|Hs]; inversion H; subst; lia.
      * intros _. exists resp. auto.
      * intros resp0 body H [Hs|Hs]; inversion H; subst; lia.
    + assert (Hn : ~ 200 <= status resp <= 299).
      { intro H. apply Hok in H. congruence. }
      destruct (text resp) as [e|body] eqn:T; cbn;
        repeat split; try reflexivity; try discriminate.
      * intros (resp0 & H & Hs & _). inversion H; subst. contradiction.
      * intros resp0 body H _ Hb. inversion H; subst. congruence.
      * intros (resp0 & H & Hs & _). inversion H; subst. contradiction.
      * intros resp0 body0 H _ Hb. inversion H; subst.
        rewrite T in Hb. inversion Hb. reflexivity.
Qed.

Lemma updateAirtableRecord_effect_witness :
  let resp := mkResponse 422 (inr "INVALID_VALUE_FOR_COLUMN") (inl (mkError "n/a")) in
  let env := mkEnv 100 100 200 300 (inl Scenario.unused) (Rejected Scenario.unused)
                   (fun _ => Rejected Scenario.unused)
                   (fun _ => Rejected Scenario.unused)
                   (fun _ => Resolved resp) in
  (status resp < 200 \/ 299 < status resp) /\
  fst (updateAirtableRecord env ErrorPatch "rec1"
         [SetErrorMessage (Some "boom")] Scenario.world0)
  = Thrown (mkError "Airtable update failed: 422 - INVALID_VALUE_FOR_COLUMN").
Proof.
  cbv zeta.
  assert (H : status (mkResponse 422 (inr "INVALID_VALUE_FOR_COLUMN")
                        (inl (mkError "n/a") : Error + unit)) < 200 \/
              299 < status (mkResponse 422 (inr "INVALID_VALUE_FOR_COLUMN")
                              (inl (mkError "n/a") : Error + unit)))
    by (right; reflexivity).
  split; [exact H|].
  destruct (updateAirtableRecord_effect
              (mkEnv 100 100 200 300 (inl Scenario.unused)
                     (Rejected Scenario.unused)
                     (fun _ => Rejected Scenario.unused)
                     (fun _ => Rejected Scenario.unused)
                     (fun _ => Resolved
                        (mkResponse 422 (inr "INVALID_VALUE_FOR_COLUMN")
                                    (inl (mkError "n/a")))))
              ErrorPatch "rec1" [SetErrorMessage (Some "boom")] Scenario.world0)
    as (_ & _ & _ & _ & _ & F).
  exact (F _ _ eq_refl H eq_refl).
Defined.

(** *** Decoding the generation response *)

(** [generate] hands back images only from a 2xx answer whose body lists
    at least one image, and then exactly that list; it never returns an
    empty list.  A 2xx answer with no images is the error "FAL returned no
    images". *)
Theorem generate_result_images :
  forall (f : Fetch (option (list Attachment))),
  (forall images, generate_result f = inr images ->
     images <> [] /\
     exists resp, f = Resolved resp /\ ok resp = true /\
                  json resp = inr (Some images)) /\
  (forall resp, f = Resolved resp -> ok resp = true ->
     json resp = inr None \/ json resp = inr (Some []) ->
     generate_result f = inl (mkError "FAL returned no images")).
Proof.
  intro f. split.
  - intros images H. unfold generate_result in H.
    destruct f as [e|resp]; [discriminate|].
    destruct (ok resp) eqn:Hok; cbn [negb] in H.
    + destruct (json resp) as [e|[l|]] eqn:Hj; try discriminate.
      cbn in H. destruct l as [|i l]; [discriminate|].
      inversion H; subst. split; [discriminate|].
      exists resp. auto.
    + destruct (text resp); discriminate.
  - intros resp -> Hok Hj. unfold generate_result. rewrite Hok. cbn [negb].
    destruct Hj as [-> | ->]; reflexivity.
Qed.

Lemma generate_result_images_witness :
  generate_result (fetch_generate env_second_try 2)
  = inr [mkAttachment "https://cdn/a.png"; mkAttachment "https://cdn/b.png"] /\
  [mkAttachment "https://cdn/a.png"; mkAttachment "https://cdn/b.png"] <> [].
Proof.
  assert (H : generate_result (fetch_generate env_second_try 2)
              = inr [mkAttachment "https://cdn/a.png";
                     mkAttachment "https://cdn/b.png"]) by reflexivity.
  split; [exact H|].
  exact (proj1 (proj1 (generate_result_images (fetch_generate env_second_try 2))
                  _ H)).
Defined.

(** *** The video loop *)





(** *** What the body of the outer [try] leaves behind *)

Lemma downloadImages_run rid images : forall i w,
  fst (downloadImages rid i images w) = Returned tt /\
  circuitBreaker (snd (downloadImages rid i images w)) = circuitBreaker w /\
  geminiLimiter (snd (downloadImages rid i images w)) = geminiLimiter w /\
  progressTracker (snd (downloadImages rid i images w)) = progressTracker w /\
  airtable (snd (downloadImages rid i images w)) = airtable w /\
  exists new,
    trace (snd (downloadImages rid i images w)) = trace w ++ new /\
    downloads_of new = map url images /\
    patches_of new = [] /\ attempts_of new = [].
Proof.
  induction images as [|img rest IH]; intros i w; cbn [downloadImages].
  - cbn. repeat split. exists []. rewrite app_nil_r. repeat split.
  - unfold bind, emit.
    specialize (IH (i + 1)
      (mkWorld (circuitBreaker w) (geminiLimiter w) (progressTracker w)
               (airtable w)
               (trace w ++ [Download (url img)
                              (rid +++ "_" +++ String_of (i + 1) +++ ".png")]))).
    destruct IH as (I1 & I2 & I3 & I4 & I5 & new & T & D & P & G).
    cbn [circuitBreaker geminiLimiter progressTracker airtable trace] in *.
    split; [exact I1|]. split; [exact I2|]. split; [exact I3|].
    split; [exact I4|]. split; [exact I5|].
    exists (Download (url img) (rid +++ "_" +++ String_of (i + 1) +++ ".png") :: new).
    split; [rewrite T, <- app_assoc; reflexivity|].
    cbn [downloads_of patches_of attempts_of map]. rewrite D. auto.
Qed.

Lemma steady_generateBranch env r base cfg :
  steady (generateBranch env r base cfg).
Proof.
  unfold generateBranch.
  apply PipelineFacts.steady_bind; [apply PipelineFacts.steady_prepareReferences|].
  intros [[pt vpt] refs].
  apply PipelineFacts.steady_bind;
    [apply PipelineFacts.quiet_steady, PipelineFacts.quiet_generateImages|].
  intros images. apply PipelineFacts.steady_bind.
  - intro w. destruct (downloadImages_run (id r) images 0 w)
      as (_ & H1 & _ & H2 & _). auto.
  - intros _. apply PipelineFacts.steady_bind;
      [apply PipelineFacts.steady_updateAirtableRecord|].
    intros _. apply PipelineFacts.quiet_steady, PipelineFacts.quiet_ret.
Qed.

(** While the tally has room for the job: if the body of the outer [try]
    throws, breaker and tally are as it found them; if it returns, the
    result is a success, the tally counts it and the breaker has received
    [recordSuccess]. *)
Lemma pipeline_outcome env r base cfg w1 :
  Display.room_for_one (progressTracker w1) ->
  match pipeline env r base cfg w1 with
  | (Returned res, w2) =>
      success res = true /\ skipErrorSave res = false /\
      circuitBreaker w2
        = option_map SimpleCircuitBreaker.recordSuccess (circuitBreaker w1) /\
      progressTracker w2
        = ProgressTracker.increment (clock_increment env) true (progressTracker w1)
  | (Thrown e, w2) =>
      circuitBreaker w2 = circuitBreaker w1 /\
      progressTracker w2 = progressTracker w1
  end.
Proof.
  intro Hroom. unfold pipeline.
  set (first := match Generated_Images (fields r) with
                | Some (img :: rest) => _
                | _ => _
                end).
  assert (S1 : steady first).
  { unfold first.
    destruct (Generated_Images (fields r)) as [[|img rest]|];
      try apply steady_generateBranch.
    apply PipelineFacts.quiet_steady, PipelineFacts.quiet_ret. }
  unfold bind at 1. specialize (S1 w1).
  destruct (first w1) as [[x|e] wa]; cbn [snd] in S1; [|exact S1].
  destruct S1 as [Sb St].
  set (second := if enableVideo cfg then _ else _).
  assert (S2 : steady second).
  { unfold second. destruct (enableVideo cfg);
      [apply PipelineFacts.steady_generateVideos
      | apply PipelineFacts.quiet_steady, PipelineFacts.quiet_ret]. }
  unfold bind at 1. specialize (S2 wa).
  destruct (second wa) as [[[]|e] wb]; cbn [snd] in S2.
  - destruct S2 as [Tb Tt]. unfold bind.
    rewrite PipelineFacts.progress_increment_room
      by (rewrite Tt, St; exact Hroom).
    cbn. rewrite Tb, Tt, Sb, St. auto.
  - destruct S2. split; congruence.
Qed.

(** When the breaker lets a job through and the tally has room for the
    job within the batch total, so that the progress display of its
    [increment] returns, the result object tells what happened to the
    breaker: a success means it received [recordSuccess]; a failure
    marked [skipErrorSave] means it was left as the opening check left
    it; any other failure means it received [recordFailure].  In each
    case the job is counted exactly once, as a success or as a failure
    according to the result. *)
Theorem result_tells_breaker :
  forall (env : Env) (r : PromptRecord) (base : list string) (cfg : GenConfig)
         (w w1 w' : World) (res : Result),
  Display.room_for_one (progressTracker w) ->
  breaker_check env w = (Returned true, w1) ->
  processPrompt env r base cfg w = (Returned res, w') ->
  snd (Display.increment (clock_increment env) (success res) (progressTracker w))
    = true /\
  circuitBreaker w' =
    (if success res
     then option_map SimpleCircuitBreaker.recordSuccess (circuitBreaker w1)
     else if skipErrorSave res
          then circuitBreaker w1
          else option_map (SimpleCircuitBreaker.recordFailure
                             (clock_recordFailure env)) (circuitBreaker w1)) /\
  ProgressTracker.processedPrompts (progressTracker w')
    = ProgressTracker.processedPrompts (progressTracker w) + 1 /\
  ProgressTracker.successCount (progressTracker w')
    = ProgressTracker.successCount (progressTracker w)
      + (if success res then 1 else 0) /\
  ProgressTracker.failCount (progressTracker w')
    = ProgressTracker.failCount (progressTracker w)
      + (if success res then 0 else 1).
Proof.
  intros env r base cfg w w1 w' res Hroom Hgate Hrun.
  split; [apply DisplayFacts.increment_within_total, Hroom|].
  destruct (PipelineFacts.breaker_check_frame env w true w1 Hgate) as (Ft & _).
  unfold processPrompt, bind in Hrun. rewrite Hgate in Hrun.
  unfold try_catch in Hrun.
  assert (R1 : Display.room_for_one (progressTracker w1))
    by (rewrite Ft; exact Hroom).
  pose proof (pipeline_outcome env r base cfg w1 R1) as P.
  destruct (pipeline env r base cfg w1) as [[res0|e] w2].
  - inversion Hrun; subst res0 w2; clear Hrun.
    destruct P as (Ps & _ & Pb & Pt). rewrite Ps.
    destruct (PipelineFacts.increment_counts (clock_increment env) true
                (progressTracker w1)) as (C1 & C2 & C3).
    rewrite Pt, Ft in *. repeat split; try assumption.
  - destruct P as [Pb Pt].
    destruct (PipelineFacts.increment_counts (clock_increment env) false
                (progressTracker w2)) as (C1 & C2 & C3).
    rewrite Pt, Ft in C1, C2, C3.
    assert (R2 : Display.room_for_one (progressTracker w2))
      by (rewrite Pt; exact R1).
    destruct (isTransient (message e)) eqn:Ht.
    + rewrite (PipelineFacts.on_error_transient env r e w2 R2 Ht) in Hrun.
      inversion Hrun; subst; clear Hrun. cbn.
      rewrite Pt, Ft. auto.
    + destruct (PipelineFacts.on_error_permanent env r e w2 R2 Ht)
        as (O1 & O2 & _ & O4).
      rewrite Hrun in O1, O2, O4. cbn [fst snd] in O1, O2, O4.
      inversion O1; subst res. cbn [success skipErrorSave].
      rewrite O2, O4, Pb, Pt, Ft. auto.
Qed.

Lemma result_tells_breaker_witness :
  let env := Scenario.env_status 429 "Too Many Requests" in
  let run := processPrompt env Scenario.fresh_job Scenario.base_refs
                           Scenario.images_only Scenario.world0 in
  let res := mkResult false "rec1"
               (Some "FAL API error 429: Too Many Requests") false None in
  Display.room_for_one (progressTracker Scenario.world0) /\
  breaker_check env Scenario.world0
    = (Returned true, snd (breaker_check env Scenario.world0)) /\
  run = (Returned res, snd run) /\
  ProgressTracker.failCount (progressTracker (snd run))
    = ProgressTracker.failCount (progressTracker Scenario.world0) + 1.
Proof.
  cbv zeta.
  assert (H1 : breaker_check (Scenario.env_status 429 "Too Many Requests")
                 Scenario.world0
               = (Returned true,
                  snd (breaker_check (Scenario.env_status 429 "Too Many Requests")
                         Scenario.world0))) by reflexivity.
  assert (H2 : processPrompt (Scenario.env_status 429 "Too Many Requests")
                 Scenario.fresh_job Scenario.base_refs Scenario.images_only
                 Scenario.world0
               = (Returned (mkResult false "rec1"
                              (Some "FAL API error 429: Too Many Requests")
                              false None),
                  snd (processPrompt (Scenario.env_status 429 "Too Many Requests")
                         Scenario.fresh_job Scenario.base_refs
                         Scenario.images_only Scenario.world0)))
    by reflexivity.
  assert (R : Display.room_for_one (progressTracker Scenario.world0))
    by (split; cbn; lia).
  split; [exact R|]. split; [exact H1|]. split; [exact H2|].
  exact (proj2 (proj2 (proj2 (proj2
           (result_tells_breaker _ _ _ _ _ _ _ _ R H1 H2))))).
Defined.

(** *** Accepted writes *)

Lemma downloads_of_app tr1 tr2 :
  downloads_of (tr1 ++ tr2) = downloads_of tr1 ++ downloads_of tr2.
Proof.
  induction tr1 as [|e tr1 IH]; [reflexivity|].
  destruct e; cbn [app downloads_of]; rewrite IH; reflexivity.
Qed.

Lemma attempts_of_app tr1 tr2 :
  attempts_of (tr1 ++ tr2) = attempts_of tr1 ++ attempts_of tr2.
Proof.
  induction tr1 as [|e tr1 IH]; [reflexivity|].
  destruct e; cbn [app attempts_of]; rewrite IH; reflexivity.
Qed.

Lemma updateAirtableRecord_accepted env site rid us resp w :
  fetch_patch env site = Resolved resp -> ok resp = true -> json resp = inr tt ->
  updateAirtableRecord env site rid us w =
  (Returned tt,
   mkWorld (circuitBreaker w) (geminiLimiter w) (progressTracker w)
           (store_patch rid us (airtable w)) (trace w ++ [Patch rid us])).
Proof.
  intros Hf Hok Hj. unfold updateAirtableRecord, bind, emit.
  rewrite Hf, Hok. cbn [negb]. unfold set_airtable. rewrite Hj. reflexivity.
Qed.

Lemma updateAirtableRecord_returns env site rid us w u w' :
  updateAirtableRecord env site rid us w = (Returned u, w') ->
  airtable w' = store_patch rid us (airtable w).
Proof.
  unfold updateAirtableRecord, bind, emit, set_airtable.
  destruct (fetch_patch env site) as [e|resp]; [discriminate|].
  destruct (ok resp); cbn [negb].
  - destruct (json resp) as [e|[]]; [discriminate|].
    intro H. inversion H. reflexivity.
  - destruct (text resp); discriminate.
Qed.

Lemma store_patch_same rid us st :
  store_patch rid us st rid = fold_left apply_update us (st rid).
Proof. unfold store_patch. rewrite String.eqb_refl. reflexivity. Qed.

Lemma store_patch_other rid us st other :
  other <> rid -> store_patch rid us st other = st other.
Proof.
  intro H. unfold store_patch. apply String.eqb_neq in H. rewrite H. reflexivity.
Qed.

(** *** A failing video does not fail the job *)

(** For a job that already has images, with video generation on and
    room for the job in the tally (so that the progress display
    returns): when the video loop fails with error [e] and the table
    accepts the note, the job still reports success and counts as one,
    the breaker receives [recordSuccess], and the row's error field reads
    "Video generation failed: " followed by the message of [e]. *)
Theorem video_failure_is_isolated :
  forall (env : Env) (r : PromptRecord) (base : list string) (cfg : GenConfig)
         (w w1 w2 : World) (img : Attachment) (rest : list Attachment)
         (e : Error) (resp : Response unit),
  Display.room_for_one (progressTracker w) ->
  Generated_Images (fields r) = Some (img :: rest) ->
  enableVideo cfg = true ->
  breaker_check env w = (Returned true, w1) ->
  video_attempts env 2 1 (url img)
    (if truthy (Video_Prompt (fields r)) then Video_Prompt (fields r)
     else Prompt (fields r)) None w1 = (Thrown e, w2) ->
  fetch_patch env VideoErrorPatch = Resolved resp ->
  ok resp = true -> json resp = inr tt ->
  let out := processPrompt env r base cfg w in
  snd (Display.increment (clock_increment env) true (progressTracker w)) = true /\
  fst out = Returned (mkResult true (id r) None false (Some (len (img :: rest)))) /\
  Error_Message (airtable (snd out) (id r))
    = Some ("Video generation failed: " +++ message e) /\
  Generated_Videos (airtable (snd out) (id r))
    = Generated_Videos (airtable w (id r)) /\
  circuitBreaker (snd out)
    = option_map SimpleCircuitBreaker.recordSuccess (circuitBreaker w1) /\
  ProgressTracker.successCount (progressTracker (snd out))
    = ProgressTracker.successCount (progressTracker w) + 1.
Proof.
  intros env r base cfg w w1 w2 img rest e resp Hroom Hex Hv Hgate Hvid Hf Hok Hj out.
  split; [apply DisplayFacts.increment_within_total, Hroom|].
  destruct (PipelineFacts.breaker_check_frame env w true w1 Hgate)
    as (Ft & Fa & _ & _).
  pose proof (PipelineFacts.quiet_video_attempts env 2 1 (url img)
                (if truthy (Video_Prompt (fields r)) then Video_Prompt (fields r)
                 else Prompt (fields r)) None w1) as Q.
  rewrite Hvid in Q. cbn [snd] in Q. destruct Q as (Qb & _ & Qt & Qa & _).
  assert (Hout : out =
    (Returned (mkResult true (id r) None false (Some (len (img :: rest)))),
     mkWorld (option_map SimpleCircuitBreaker.recordSuccess (circuitBreaker w2))
             (geminiLimiter w2)
             (ProgressTracker.increment (clock_increment env) true
                                        (progressTracker w2))
             (store_patch (id r)
                [SetErrorMessage (Some ("Video generation failed: " +++ message e))]
                (airtable w2))
             (trace w2 ++
              [Patch (id r)
                 [SetErrorMessage
                    (Some ("Video generation failed: " +++ message e))]]))).
  { unfold out, processPrompt, bind. rewrite Hgate.
    unfold try_catch, pipeline, bind. rewrite Hex, Hv.
    cbn [ret fst snd map url].
    unfold generateVideos, try_catch, bind.
    change (url {| url := url img |}) with (url img). rewrite Hvid.
    rewrite (updateAirtableRecord_accepted env VideoErrorPatch _ _ resp w2 Hf Hok Hj).
    rewrite PipelineFacts.progress_increment_room
      by (cbn [progressTracker]; rewrite Qt, Ft; exact Hroom).
    cbn [breaker_recordSuccess ret fst snd
         circuitBreaker geminiLimiter progressTracker airtable trace].
    unfold len. cbn [List.length]. rewrite length_map. reflexivity. }
  rewrite Hout. cbn [fst snd airtable circuitBreaker progressTracker].
  rewrite store_patch_same. cbn [fold_left apply_update Error_Message Generated_Videos].
  destruct (PipelineFacts.increment_counts (clock_increment env) true
              (progressTracker w2)) as (_ & Is & _).
  split; [reflexivity|]. split; [reflexivity|].
  split; [congruence|]. split; [congruence|].
  rewrite Is, Qt, Ft. reflexivity.
Qed.

Lemma video_failure_is_isolated_witness :
  let env := Scenario.env_status 200 "ok" in
  let out := processPrompt env Scenario.done_job Scenario.base_refs with_video
                           Scenario.world0 in
  Display.room_for_one (progressTracker Scenario.world0) /\
  enableVideo with_video = true /\
  fst out = Returned (mkResult true "rec1" None false (Some 1)) /\
  Error_Message (airtable (snd out) "rec1")
    = Some "Video generation failed: not requested".
Proof.
  cbv zeta.
  assert (R : Display.room_for_one (progressTracker Scenario.world0))
    by (split; cbn; lia).
  destruct (video_failure_is_isolated (Scenario.env_status 200 "ok")
              Scenario.done_job Scenario.base_refs with_video Scenario.world0
              _ _ (mkAttachment "https://cdn/1.png") [] Scenario.unused
              (mkResponse 200 (inr "{}") (inr tt))
              R eq_refl eq_refl eq_refl eq_refl eq_refl eq_refl eq_refl)
    as (_ & H1 & H2 & _).
  split; [exact R|]. split; [reflexivity|]. split; [exact H1 | exact H2].
Defined.

(** *** A generation that succeeds *)

(** For a job without images whose generation returns [images], with
    video generation off, a table that accepts the write and room for the
    job in the tally (so that the progress display returns): the job
    reports success with the images counted, each image is handed to the
    downloader once and in order, one PATCH stores the image URLs and
    clears the error field of the job's row and of no other, and the
    breaker receives [recordSuccess]. *)
Theorem generation_success_persists :
  forall (env : Env) (r : PromptRecord) (base : list string) (cfg : GenConfig)
         (w w1 w2 w3 : World)
         (x : option string * option string * list string)
         (images : list Attachment) (resp : Response unit),
  Display.room_for_one (progressTracker w) ->
  breaker_check env w = (Returned true, w1) ->
  hasExistingImages r = false ->
  prepareReferences env r base cfg w1 = (Returned x, w2) ->
  generateImages env (fst (fst x)) (snd x) w2 = (Returned images, w3) ->
  fetch_patch env ImagesPatch = Resolved resp ->
  ok resp = true -> json resp = inr tt ->
  enableVideo cfg = false ->
  let out := processPrompt env r base cfg w in
  let saved := map (fun i => mkAttachment (url i)) images in
  snd (Display.increment (clock_increment env) true (progressTracker w)) = true /\
  fst out = Returned (mkResult true (id r) None false (Some (len images))) /\
  Generated_Images (airtable (snd out) (id r)) = Some saved /\
  Error_Message (airtable (snd out) (id r)) = None /\
  (forall other, other <> id r -> airtable (snd out) other = airtable w2 other) /\
  (exists new,
     trace (snd out) = trace w3 ++ new /\
     downloads_of new = map url images /\
     patches_of new = [(id r, [SetGeneratedImages saved; SetErrorMessage None])] /\
     attempts_of new = []) /\
  circuitBreaker (snd out)
    = option_map SimpleCircuitBreaker.recordSuccess (circuitBreaker w1).
Proof.
  intros env r base cfg w w1 w2 w3 x images resp
         Hroom Hgate Hex Hprep Hgen Hf Hok Hj Hv out saved.
  split; [apply DisplayFacts.increment_within_total, Hroom|].
  destruct (downloadImages_run (id r) images 0 w3)
    as (D1 & D2 & D3 & D4 & D5 & new & DT & DD & DP & DA).
  destruct (downloadImages (id r) 0 images w3) as [o4 w4] eqn:E4.
  cbn [fst snd] in *. subst o4.
  pose proof (PipelineFacts.steady_prepareReferences env r base cfg w1) as Sp.
  rewrite Hprep in Sp. cbn [snd] in Sp. destruct Sp as [Sb _].
  pose proof (PipelineFacts.quiet_generateImages env (fst (fst x)) (snd x) w2) as Q.
  rewrite Hgen in Q. cbn [snd] in Q. destruct Q as (Qb & _ & _ & Qa & _).
  assert (R4 : Display.room_for_one (progressTracker w4)).
  { destruct (PipelineFacts.breaker_check_frame env w true w1 Hgate) as (Ft & _).
    pose proof (PipelineFacts.steady_prepareReferences env r base cfg w1) as Sp2.
    rewrite Hprep in Sp2. cbn [snd] in Sp2. destruct Sp2 as [_ St].
    pose proof (PipelineFacts.quiet_generateImages env (fst (fst x)) (snd x) w2) as Q2.
    rewrite Hgen in Q2. cbn [snd] in Q2. destruct Q2 as (_ & _ & Qt & _).
    rewrite D4, Qt, St, Ft. exact Hroom. }
  assert (Hout : out =
    (Returned (mkResult true (id r) None false (Some (len images))),
     mkWorld (option_map SimpleCircuitBreaker.recordSuccess (circuitBreaker w4))
             (geminiLimiter w4)
             (ProgressTracker.increment (clock_increment env) true
                                        (progressTracker w4))
             (store_patch (id r) [SetGeneratedImages saved; SetErrorMessage None]
                          (airtable w4))
             (trace w4 ++
              [Patch (id r) [SetGeneratedImages saved; SetErrorMessage None]]))).
  { unfold out, processPrompt, bind. rewrite Hgate.
    unfold try_catch, pipeline, bind.
    assert (Hb : generateBranch env r base cfg w1 =
                 (Returned (images, snd (fst x)),
                  mkWorld (circuitBreaker w4) (geminiLimiter w4)
                          (progressTracker w4)
                          (store_patch (id r)
                             [SetGeneratedImages saved; SetErrorMessage None]
                             (airtable w4))
                          (trace w4 ++
                           [Patch (id r)
                              [SetGeneratedImages saved; SetErrorMessage None]]))).
    { unfold generateBranch, bind. rewrite Hprep.
      destruct x as [[pt vpt] refs]. cbn [fst snd] in *. rewrite Hgen, E4.
      rewrite (updateAirtableRecord_accepted env ImagesPatch _ _ resp w4 Hf Hok Hj).
      reflexivity. }
    unfold hasExistingImages in Hex.
    destruct (Generated_Images (fields r)) as [[|i0 l0]|]; try discriminate;
      rewrite Hb, Hv; cbn [ret fst snd];
      rewrite PipelineFacts.progress_increment_room
        by (cbn [progressTracker]; exact R4);
      reflexivity. }
  rewrite Hout. cbn [fst snd airtable circuitBreaker trace].
  rewrite store_patch_same.
  cbn [fold_left apply_update Generated_Images Error_Message].
  split; [reflexivity|]. split; [reflexivity|]. split; [reflexivity|].
  split.
  { intros other Hne. rewrite store_patch_other by exact Hne. congruence. }
  split.
  { exists (new ++ [Patch (id r) [SetGeneratedImages saved; SetErrorMessage None]]).
    rewrite DT, <- app_assoc. split; [reflexivity|].
    rewrite PipelineFacts.patches_of_app, DP.
    rewrite downloads_of_app, attempts_of_app, DD, DA.
    split; [apply app_nil_r|]. split; reflexivity. }
  congruence.
Qed.

Lemma generation_success_persists_witness :
  let out := processPrompt env_second_try Scenario.fresh_job Scenario.base_refs
                           Scenario.images_only Scenario.world0 in
  Display.room_for_one (progressTracker Scenario.world0) /\
  hasExistingImages Scenario.fresh_job = false /\
  enableVideo Scenario.images_only = false /\
  fst out = Returned (mkResult true "rec1" None false (Some 2)) /\
  Generated_Images (airtable (snd out) "rec1")
    = Some [mkAttachment "https://cdn/a.png"; mkAttachment "https://cdn/b.png"] /\
  Error_Message (airtable (snd out) "rec1") = None.
Proof.
  cbv zeta.
  assert (R : Display.room_for_one (progressTracker Scenario.world0))
    by (split; cbn; lia).
  destruct (generation_success_persists env_second_try Scenario.fresh_job
              Scenario.base_refs Scenario.images_only Scenario.world0
              _ _ _ _ _ (mkResponse 200 (inr "{}") (inr tt))
              R eq_refl eq_refl eq_refl eq_refl eq_refl eq_refl eq_refl eq_refl)
    as (_ & H1 & H2 & H3 & _).
  split; [exact R|]. split; [reflexivity|]. split; [reflexivity|].
  split; [exact H1|]. split; [exact H2 | exact H3].
Defined.

(** *** What the generation is given *)

(** When the preparation of a job returns, the reference list is the
    base list or the base list followed by exactly one more entry (the
    prompt image), the video prompt is the row's own video prompt when it
    has one and the image prompt otherwise, and the image prompt is
    either the row's own, with the table untouched, or the text Gemini
    returned, which is then also what the row's prompt field holds. *)
Theorem prepareReferences_shape :
  forall (env : Env) (r : PromptRecord) (base : list string) (cfg : GenConfig)
         (w w' : World) (pt vpt : option string) (refs : list string),
  prepareReferences env r base cfg w = (Returned (pt, vpt, refs), w') ->
  (refs = base \/ exists d, refs = base ++ [d]) /\
  vpt = (if truthy (Video_Prompt (fields r)) then Video_Prompt (fields r)
         else pt) /\
  ((pt = Prompt (fields r) /\ airtable w' = airtable w) \/
   (exists g, analyzeImageWithGemini env = inr g /\
              pt = Some (gemini_text g) /\
              refs = base ++ [gemini_dataUri g] /\
              Prompt (airtable w' (id r)) = Some (gemini_text g))).
Proof.
  intros env r base cfg w w' pt vpt refs H.
  unfold prepareReferences in H.
  destruct (Prompt_Image (fields r)) as [[|att atts]|].
  1, 3: inversion H; subst; split; [left; reflexivity|];
        split; [reflexivity|]; left; split; reflexivity.
  destruct (truthy (geminiApiKey cfg)).
  - unfold bind at 1 in H. unfold bind at 1 in H.
    destruct (geminiAcquire env w) as [[[]|e0] w0]; [|discriminate].
    unfold bind at 1 in H. unfold emit at 1 in H.
    destruct (analyzeImageWithGemini env) as [e1|g] eqn:Eg; [discriminate|].
    unfold bind at 1 in H.
    match type of H with
    | context [updateAirtableRecord ?e ?s ?i ?u ?x] =>
        destruct (updateAirtableRecord e s i u x) as [[[]|e2] w2] eqn:Eu;
        [apply updateAirtableRecord_returns in Eu|discriminate]
    end.
    cbn in H. inversion H; subst. clear H.
    split; [right; eexists; reflexivity|].
    split; [destruct (truthy (Video_Prompt (fields r))); reflexivity|].
    right. exists g. split; [reflexivity|]. split; [reflexivity|].
    split; [reflexivity|].
    rewrite Eu, store_patch_same. reflexivity.
  - unfold bind, ret, emit in H. cbn [fst snd] in H.
    destruct (fetch_promptImage env) as [e|imgResp]; [discriminate|].
    destruct (ok imgResp).
    + destruct (json imgResp) as [e|d]; [discriminate|].
      cbn in H. inversion H; subst.
      split; [right; eexists; reflexivity|].
      split; [reflexivity|]. left. split; reflexivity.
    + cbn in H. inversion H; subst.
      split; [left; reflexivity|].
      split; [reflexivity|]. left. split; reflexivity.
Qed.

Lemma prepareReferences_shape_witness :
  let out := prepareReferences env_gemini job_with_image Scenario.base_refs
                               with_gemini world_gemini in
  fst out = Returned (Some "a described pose", Some "a described pose",
                      Scenario.base_refs ++ ["data:image/png;base64,AAAA"]) /\
  Prompt (airtable (snd out) "rec7") = Some "a described pose".
Proof.
  cbv zeta. split; [reflexivity|].
  destruct (prepareReferences_shape env_gemini job_with_image Scenario.base_refs
              with_gemini world_gemini
              (snd (prepareReferences env_gemini job_with_image
                      Scenario.base_refs with_gemini world_gemini))
              (Some "a described pose") (Some "a described pose")
              (Scenario.base_refs ++ ["data:image/png;base64,AAAA"]) eq_refl)
    as (_ & _ & [[A _] | (g & Hg & _ & _ & P)]).
  - discriminate A.
  - inversion Hg. subst g. exact P.
Defined.

End PipelineMore.

(* ---------------------------------------------------------------------- *)
(** ** The display across batches *)

Module DisplayRuns.
Import Display.
Local Open Scope Z_scope.

Lemma increment_fields now ok p :
  ProgressTracker.totalPrompts (fst (increment now ok p))
    = ProgressTracker.totalPrompts p /\
  ProgressTracker.processedPrompts (fst (increment now ok p))
    = ProgressTracker.processedPrompts p + 1.
Proof.
  unfold increment, maybeShowProgress.
  destruct ok; cbn [ProgressTracker.lastUpdate ProgressTracker.processedPrompts
                    ProgressTracker.totalPrompts];
    destruct (_ && _); split; reflexivity.
Qed.

Lemma increment_overshoot now ok p :
  0 < ProgressTracker.totalPrompts p ->
  203 * ProgressTracker.totalPrompts p
    <= 200 * (ProgressTracker.processedPrompts p + 1) ->
  snd (increment now ok p) = false.
Proof.
  intros Ht H. unfold increment, maybeShowProgress.
  destruct ok; cbn [ProgressTracker.lastUpdate ProgressTracker.processedPrompts
                    ProgressTracker.totalPrompts ProgressTracker.successCount
                    ProgressTracker.failCount];
    (destruct (Z.ltb_spec (ProgressTracker.processedPrompts p + 1)
                          (ProgressTracker.totalPrompts p)); [lia|]);
    rewrite andb_false_r; cbn [snd];
    apply DisplayFacts.showProgress_throws, DisplayFacts.percentage_overshoot;
    cbn [ProgressTracker.processedPrompts ProgressTracker.totalPrompts];
    assumption.
Qed.

(** The tracker is created once and [setTotal] resets only the total.
    When a batch of [k] rows (at most 100, the batch size) starts with
    [processedPrompts] already at [k] or more, as after a full first
    batch, the second [increment] of that batch throws, whatever the
    clock reads and whatever the outcomes counted; when [k] is below 100
    and the count carried over is 100 or more, the first one already
    does. *)
Theorem carried_count_breaks_display :
  forall (p : ProgressTracker.t) (k now1 now2 : Z) (ok1 ok2 : bool),
  1 <= k <= 100 ->
  k <= ProgressTracker.processedPrompts p ->
  snd (increment now2 ok2 (fst (increment now1 ok1 (setTotal k p)))) = false /\
  (k < 100 -> 100 <= ProgressTracker.processedPrompts p ->
   snd (increment now1 ok1 (setTotal k p)) = false).
Proof.
  intros p k now1 now2 ok1 ok2 Hk Hp. split.
  - destruct (increment_fields now1 ok1 (setTotal k p)) as [Ft Fp].
    cbn [setTotal ProgressTracker.totalPrompts ProgressTracker.processedPrompts]
      in Ft, Fp.
    apply increment_overshoot; rewrite Ft, ?Fp; lia.
  - intros Hlt H100. apply increment_overshoot;
      cbn [setTotal ProgressTracker.totalPrompts ProgressTracker.processedPrompts];
      lia.
Qed.

Lemma carried_count_breaks_display_witness :
  snd (increment 9000 false
         (fst (increment 9000 true
                 (setTotal 100 (ProgressTracker.mk 100 100 97 3 8000))))) = false /\
  snd (increment 9000 true (setTotal 40 (ProgressTracker.mk 100 100 97 3 8000)))
    = false.
Proof.
  split.
  - apply (carried_count_breaks_display (ProgressTracker.mk 100 100 97 3 8000)
             100 9000 9000 true false); cbn; lia.
  - apply (carried_count_breaks_display (ProgressTracker.mk 100 100 97 3 8000)
             40 9000 9000 true false); cbn; lia.
Defined.

End DisplayRuns.

(* ---------------------------------------------------------------------- *)
(** ** A job counted beyond the batch total *)

Module PipelineRollover.
Import Js Pipeline Fixture.
Local Open Scope string_scope.
Local Open Scope list_scope.
Local Open Scope Z_scope.





End PipelineRollover.

(* ---------------------------------------------------------------------- *)
(** ** Settings and base references *)

Module MainFacts.
Import Js Pipeline Main Fixture.
Local Open Scope string_scope.
Local Open Scope list_scope.
Local Open Scope Z_scope.

Lemma Qlt_bool_not_below a b : Qlt_bool a b = false -> (b <= a)%Q.
Proof.
  unfold Qlt_bool. intro H. apply negb_false_iff in H.
  apply Qle_bool_iff. exact H.
Qed.

(** Whatever the configuration row holds under [num_images] (nothing, a
    string, a number of any size), [numImages] ends up a finite number
    between 1 and 6; a number already in that range is kept as it is,
    also when it is not whole. *)
Theorem numImages_range : forall (raw : JsValue),
  (exists q, numImages raw = JNumber (Finite q) /\ (1 <= q <= 6)%Q) /\
  (forall q, (1 <= q <= 6)%Q ->
             raw = JNumber (Finite q) -> numImages raw = raw).
Proof.
  intro raw. split.
  - assert (D : exists q, JNumber (Finite 6) = JNumber (Finite q) /\ (1 <= q <= 6)%Q).
    { exists 6%Q. split; [reflexivity|]. split; discriminate. }
    unfold numImages, or_else.
    destruct (ToBoolean raw); [|exact D].
    destruct raw as [| |b|[q| |]|s|]; try exact D.
    cbn [num_lt num_gt].
    destruct (Qlt_bool q 1) eqn:E1; [exact D|].
    destruct (Qlt_bool 6 q) eqn:E6; [exact D|].
    exists q. split; [reflexivity|].
    split; apply Qlt_bool_not_below; assumption.
  - intros q [H1 H6] ->. unfold numImages, or_else.
    assert (T : ToBoolean (JNumber (Finite q)) = true).
    { cbn. apply negb_true_iff. destruct (Qeq_bool q 0) eqn:E; [|reflexivity].
      apply Qeq_bool_iff in E. rewrite E in H1. exfalso. apply H1. reflexivity. }
    rewrite T. cbn [num_lt num_gt].
    assert (A : Qlt_bool q 1 = false).
    { unfold Qlt_bool. apply negb_false_iff, Qle_bool_iff, H1. }
    assert (B : Qlt_bool 6 q = false).
    { unfold Qlt_bool. apply negb_false_iff, Qle_bool_iff, H6. }
    rewrite A, B. reflexivity.
Qed.

Lemma numImages_range_witness :
  (1 <= 5 # 2 <= 6)%Q /\
  numImages (JNumber (Finite (5 # 2))) = JNumber (Finite (5 # 2)).
Proof.
  assert (H : (1 <= 5 # 2 <= 6)%Q) by (split; discriminate).
  split; [exact H|].
  exact (proj2 (numImages_range (JNumber (Finite (5 # 2)))) (5 # 2) H eq_refl).
Defined.

(** Whatever the configuration row holds under [Video_Duration],
    [videoDuration] ends up the number 5 or the number 10, and it is 10
    only when the row holds the number 10. *)
Theorem videoDuration_choice : forall (raw : JsValue),
  exists q, videoDuration raw = JNumber (Finite q) /\
            ((q == 5)%Q \/ ((q == 10)%Q /\ raw = JNumber (Finite q))).
Proof.
  intro raw.
  assert (D : exists q, JNumber (Finite 5) = JNumber (Finite q) /\
                        ((q == 5)%Q \/ ((q == 10)%Q /\ raw = JNumber (Finite q)))).
  { exists 5%Q. split; [reflexivity|]. left. reflexivity. }
  unfold videoDuration, or_else.
  destruct (ToBoolean raw); [|exact D].
  destruct raw as [| |b|[q| |]|s|]; try exact D.
  cbn [includes_5_10].
  destruct (Qeq_bool q 5) eqn:E5.
  - exists q. split; [reflexivity|]. left. apply Qeq_bool_iff. exact E5.
  - destruct (Qeq_bool q 10) eqn:E10; [|exact D].
    exists q. split; [reflexivity|]. right.
    split; [apply Qeq_bool_iff; exact E10 | reflexivity].
Qed.

Lemma len_app {A : Type} (a b : list A) : len (a ++ b) = len a + len b.
Proof. unfold len. rewrite length_app. lia. Qed.

Lemma len_firstn_2 {A : Type} (l : list A) :
  len (firstn 2 l) = Z.min 2 (len l).
Proof. unfold len. rewrite length_firstn. lia. Qed.

Lemma convertReferences_length fetch_ref faceCount atts : forall i acc urls,
  convertReferences fetch_ref faceCount i atts acc = inr urls ->
  len urls = len acc + len atts /\ firstn (List.length acc) urls = acc.
Proof.
  induction atts as [|a rest IH]; intros i acc urls H; cbn [convertReferences] in H.
  - inversion H; subst. unfold len. cbn [List.length].
    split; [lia | apply firstn_all].
  - destruct (fetch_ref i) as [e|resp]; [discriminate|].
    destruct (ok resp); cbn [negb] in H; [|discriminate].
    destruct (json resp) as [e|d]; [discriminate|].
    apply IH in H. destruct H as [HL HF]. split.
    + rewrite HL, len_app. unfold len. cbn [List.length]. lia.
    + rewrite length_app in HF. cbn [List.length] in HF.
      assert (E : firstn (List.length acc) (firstn (List.length acc + 1) urls)
                  = firstn (List.length acc) (acc ++ [d])) by (rewrite HF; reflexivity).
      rewrite firstn_firstn in E.
      replace (Init.Nat.min (List.length acc) (List.length acc + 1))
        with (List.length acc) in E by lia.
      rewrite E, firstn_app, Nat.sub_diag, firstn_all. cbn [firstn].
      apply app_nil_r.
Qed.

Lemma prepareReferences_refs env r base cfg w w' pt vpt refs :
  prepareReferences env r base cfg w = (Returned (pt, vpt, refs), w') ->
  refs = base \/ exists d, refs = base ++ [d].
Proof.
  intro H. unfold prepareReferences in H.
  destruct (Prompt_Image (fields r)) as [[|att atts]|].
  1, 3: inversion H; subst; left; reflexivity.
  unfold bind at 1 in H.
  match type of H with
  | context [let (_, _) := ?m w in _] => destruct (m w) as [[[[a b] c]|e0] w0]
  end; [|discriminate].
  destruct c as [dataUri|].
  - cbn in H. inversion H; subst. right. eexists. reflexivity.
  - unfold bind, ret, emit in H. cbn [fst snd] in H.
    destruct (fetch_promptImage env) as [e|imgResp]; [discriminate|].
    destruct (ok imgResp).
    + destruct (json imgResp) as [e|d]; [discriminate|].
      cbn in H. inversion H; subst. right. eexists. reflexivity.
    + cbn in H. inversion H; subst. left. reflexivity.
Qed.

(** [main] starts the jobs with between one and four base references,
    at most two from each of the face and body fields, and every job's
    generation is given those, in the same order, followed by at most one
    more: never fewer than one reference and never more than five. *)
Theorem reference_count_bounds :
  forall (fetch_ref : Z -> Fetch string)
         (face body : option (list Attachment)) (base : list string)
         (env : Env) (r : PromptRecord) (cfg : GenConfig) (w w' : World)
         (pt vpt : option string) (refs : list string),
  baseRefImageUrls fetch_ref face body = inr base ->
  prepareReferences env r base cfg w = (Returned (pt, vpt, refs), w') ->
  len base = Z.min 2 (len (or_empty face)) + Z.min 2 (len (or_empty body)) /\
  1 <= len base <= 4 /\
  firstn (List.length base) refs = base /\
  1 <= len refs <= 5.
Proof.
  intros fetch_ref face body base env r cfg w w' pt vpt refs Hb Hp.
  unfold baseRefImageUrls, referenceImages in Hb.
  destruct ((len (or_empty face) =? 0) && (len (or_empty body) =? 0)) eqn:E;
    [discriminate|].
  apply convertReferences_length in Hb. destruct Hb as [HL _].
  rewrite len_app, !len_firstn_2 in HL. change (len []) with 0 in HL.
  assert (Hf : 0 <= len (or_empty face)) by (unfold len; lia).
  assert (Hg : 0 <= len (or_empty body)) by (unfold len; lia).
  assert (Hne : len (or_empty face) <> 0 \/ len (or_empty body) <> 0).
  { apply andb_false_iff in E. destruct E as [E|E]; apply Z.eqb_neq in E; auto. }
  split; [lia|]. split; [lia|].
  destruct (prepareReferences_refs _ _ _ _ _ _ _ _ _ Hp) as [->|[d ->]].
  - split; [apply firstn_all | lia].
  - split.
    + rewrite firstn_app, Nat.sub_diag, firstn_all. cbn [firstn]. apply app_nil_r.
    + rewrite len_app. change (len [d]) with 1. lia.
Qed.

Lemma reference_count_bounds_witness :
  let face := Some [mkAttachment "f1"; mkAttachment "f2"; mkAttachment "f3"] in
  let base := ["data:0"; "data:1"] in
  let out := prepareReferences env_gemini job_with_image base with_gemini
                               world_gemini in
  baseRefImageUrls fetch_ref_ok face None = inr base /\
  fst out = Returned (Some "a described pose", Some "a described pose",
                      base ++ ["data:image/png;base64,AAAA"]) /\
  len base = 2 /\
  len (base ++ ["data:image/png;base64,AAAA"]) <= 5.
Proof.
  cbv zeta. split; [reflexivity|]. split; [reflexivity|].
  destruct (reference_count_bounds fetch_ref_ok
              (Some [mkAttachment "f1"; mkAttachment "f2"; mkAttachment "f3"])
              None ["data:0"; "data:1"] env_gemini job_with_image with_gemini
              world_gemini
              (snd (prepareReferences env_gemini job_with_image
                      ["data:0"; "data:1"] with_gemini world_gemini))
              (Some "a described pose") (Some "a described pose")
              (["data:0"; "data:1"] ++ ["data:image/png;base64,AAAA"])
              eq_refl eq_refl)
    as (H1 & _ & _ & _ & H5).
  split; [exact H1 | exact H5].
Defined.

End MainFacts.

(* ---------------------------------------------------------------------- *)
(** ** Encoding in chunks *)

Module HelperFacts.
Import Helpers.
Local Open Scope string_scope.
Local Open Scope list_scope.
Local Open Scope nat_scope.

Lemma CHUNK_pos : 0 < CHUNK.
Proof. apply Nat.ltb_lt. vm_compute. reflexivity. Qed.

Lemma fromCharCode_app (a b : list ascii) :
  fromCharCode (a ++ b) = String.append (fromCharCode a) (fromCharCode b).
Proof.
  unfold fromCharCode. induction a as [|c a IH]; cbn; [reflexivity|].
  rewrite IH. reflexivity.
Qed.

Lemma firstn_add_chunk {A : Type} (i c : nat) (l : list A) :
  firstn i l ++ subarray i (i + c) l = firstn (i + c) l.
Proof.
  unfold subarray. replace (i + c - i) with c by lia.
  rewrite firstn_skipn_comm.
  rewrite <- (firstn_skipn i (firstn (i + c) l)) at 2.
  rewrite firstn_firstn. replace (Init.Nat.min i (i + c)) with i by lia.
  reflexivity.
Qed.

Lemma chunk_loop_spec (bytes : list ascii) : forall fuel i,
  List.length bytes - i <= fuel ->
  chunk_loop fuel i bytes (fromCharCode (firstn i bytes)) = fromCharCode bytes.
Proof.
  pose proof CHUNK_pos as C.
  induction fuel as [|fuel IH]; intros i H; cbn [chunk_loop].
  - rewrite firstn_all2 by lia. reflexivity.
  - destruct (Nat.ltb_spec i (List.length bytes)) as [Hi|Hi].
    + rewrite <- fromCharCode_app, firstn_add_chunk. apply IH. lia.
    + rewrite firstn_all2 by lia. reflexivity.
Qed.

(** Cutting the bytes into chunks of [0x8000] changes nothing: for a
    byte array of any length, [arrayToBase64] is [btoa] applied to the
    string that has one character per byte, in order. *)
Theorem arrayToBase64_whole :
  forall (btoa : string -> string) (bytes : list ascii),
  arrayToBase64 btoa bytes = btoa (fromCharCode bytes).
Proof.
  intros btoa bytes. unfold arrayToBase64. f_equal.
  apply (chunk_loop_spec bytes (List.length bytes) 0). lia.
Qed.

End HelperFacts.
